(** * FORMAT-directed formatted output of the Fortran runtime

    A shallow embedding of [runtime/format.cpp], [runtime/io-stmt.cpp] and
    [runtime/io.cpp]: the FORMAT interpreter [FormatControl], the internal
    formatted output statement, and the integer output conversion
    [OutputInteger64]; the grammar of FORMAT lists and what a list asks
    for; and the properties established about them. *)

From Stdlib Require Import ZArith String Ascii Bool List Lia Sorted.
Import ListNotations.
Open Scope Z_scope.

(** ** Characters

    [CHAR] is instantiated at [char]; a character is its code.  Every
    comparison the runtime makes is against a 7-bit constant, so the
    signedness of [char] is immaterial. *)

Definition code (a : ascii) : Z := Z.of_N (N_of_ascii a).
Definition chars (s : string) : list Z := map code (list_ascii_of_string s).
Definition text (l : list Z) : string :=
  string_of_list_ascii (map (fun z => ascii_of_N (Z.to_N z)) l).

Abbreviation ch_nul := (0%Z) (only parsing).
Abbreviation ch_space := (32%Z) (only parsing).
Abbreviation ch_dquote := (34%Z) (only parsing).
Abbreviation ch_squote := (39%Z) (only parsing).
Abbreviation ch_lparen := (40%Z) (only parsing).
Abbreviation ch_rparen := (41%Z) (only parsing).
Abbreviation ch_star := (42%Z) (only parsing).
Abbreviation ch_plus := (43%Z) (only parsing).
Abbreviation ch_comma := (44%Z) (only parsing).
Abbreviation ch_minus := (45%Z) (only parsing).
Abbreviation ch_dot := (46%Z) (only parsing).
Abbreviation ch_slash := (47%Z) (only parsing).
Abbreviation ch_0 := (48%Z) (only parsing).
Abbreviation ch_9 := (57%Z) (only parsing).
Abbreviation ch_colon := (58%Z) (only parsing).
Abbreviation ch_A := (65%Z) (only parsing).
Abbreviation ch_B := (66%Z) (only parsing).
Abbreviation ch_C := (67%Z) (only parsing).
Abbreviation ch_D := (68%Z) (only parsing).
Abbreviation ch_E := (69%Z) (only parsing).
Abbreviation ch_F := (70%Z) (only parsing).
Abbreviation ch_G := (71%Z) (only parsing).
Abbreviation ch_H := (72%Z) (only parsing).
Abbreviation ch_I := (73%Z) (only parsing).
Abbreviation ch_L := (76%Z) (only parsing).
Abbreviation ch_N := (78%Z) (only parsing).
Abbreviation ch_O := (79%Z) (only parsing).
Abbreviation ch_P := (80%Z) (only parsing).
Abbreviation ch_R := (82%Z) (only parsing).
Abbreviation ch_S := (83%Z) (only parsing).
Abbreviation ch_T := (84%Z) (only parsing).
Abbreviation ch_U := (85%Z) (only parsing).
Abbreviation ch_X := (88%Z) (only parsing).
Abbreviation ch_Z := (90%Z) (only parsing).
Abbreviation ch_a := (97%Z) (only parsing).
Abbreviation ch_d := (100%Z) (only parsing).
Abbreviation ch_e := (101%Z) (only parsing).
Abbreviation ch_z := (122%Z) (only parsing).

Definition isDigit (ch : Z) : bool := (ch_0 <=? ch) && (ch <=? ch_9).
Definition isUpper (ch : Z) : bool := (ch_A <=? ch) && (ch <=? ch_Z).

(** Modelled from the spec: [Capitalize] is declared in [format.h], which is
    not part of the sources; "all letters folded to upper case". *)
Definition Capitalize (ch : Z) : Z :=
  if (ch_a <=? ch) && (ch <=? ch_z) then ch + ch_A - ch_a else ch.

(** ** Machine integers *)

Definition INT_MAX : Z := 2147483647.
Definition wrap_u16 (x : Z) : Z := x mod 2 ^ 16.
Definition wrap_u64 (x : Z) : Z := x mod 2 ^ 64.
Definition wrap_i64 (x : Z) : Z := (x + 2 ^ 63) mod 2 ^ 64 - 2 ^ 63.
Definition INT64_MIN : Z := - 2 ^ 63.

(** ** Outcomes

    [Crash] is the fatal diagnostic of [Terminator::Crash], which does not
    return; [OutOfFuel] marks a run of the unbounded scanning loop that the
    given fuel did not finish. *)

Inductive outcome (A : Type) : Type :=
| Ok (a : A)
| Crash (msg : string)
| OutOfFuel.
Arguments Ok {A} a.
Arguments Crash {A} msg.
Arguments OutOfFuel {A}.

Definition M (S A : Type) : Type := S -> outcome (A * S).

Definition ret {S A} (a : A) : M S A := fun s => Ok (a, s).
Definition bind {S A B} (m : M S A) (k : A -> M S B) : M S B :=
  fun s => match m s with
           | Ok (a, s') => k a s'
           | Crash msg => Crash msg
           | OutOfFuel => OutOfFuel
           end.
Definition crash {S A} (msg : string) : M S A := fun _ => Crash msg.

Declare Scope io_scope.
Delimit Scope io_scope with io.
Notation "x <- m ;; k" := (bind m (fun x => k))
  (at level 61, m at next level, right associativity) : io_scope.
Notation "m ;;; k" := (bind m (fun _ => k))
  (at level 61, right associativity) : io_scope.
Open Scope io_scope.

(** ** Data model ([format.h])

    Modelled from the spec: the declarations of [MutableModes], [DataEdit],
    [Iteration] and the editing flag bits live in [format.h], which is not
    part of the sources; the fields are the ones the code under study reads
    and writes, the flags are three distinct bits and [unlimited] is a
    value no finite count takes. *)

Inductive RoundingMode : Type :=
| TiesToEven | ToZero | Up | Down | TiesAwayFromZero.

Definition blankZero : Z := 1.
Definition decimalComma : Z := 2.
Definition signPlus : Z := 4.

Record MutableModes : Type := mkModes {
  editingFlags : Z;
  roundingMode : RoundingMode
}.

Definition defaultModes : MutableModes := mkModes 0 TiesToEven.

Record DataEdit : Type := mkEdit {
  descriptor : Z;
  variation : Z;
  width : Z;
  digits : option Z;
  expoDigits : option Z;
  modes : MutableModes;
  repeat : Z
}.

Record Iteration : Type := mkIteration {
  start : Z;
  remaining : Z
}.

Definition unlimited : Z := -1.

(** [stack_] holds the live frames [stack_[0 .. height_-1]], innermost
    first; [height_] is its length.  The array slots at and above
    [height_] are written before they are read, so they carry no state. *)
Record FormatControl : Type := mkControl {
  scale_ : Z;
  maxHeight_ : Z;
  stack_ : list Iteration;
  format_ : list Z;
  offset_ : Z;
  formatLength_ : Z
}.

Definition height_ (f : FormatControl) : Z := Z.of_nat (length (stack_ f)).

Definition set_offset (o : Z) (f : FormatControl) : FormatControl :=
  mkControl (scale_ f) (maxHeight_ f) (stack_ f) (format_ f) o (formatLength_ f).
Definition set_stack (k : list Iteration) (f : FormatControl) : FormatControl :=
  mkControl (scale_ f) (maxHeight_ f) k (format_ f) (offset_ f) (formatLength_ f).
Definition set_scale (n : Z) (f : FormatControl) : FormatControl :=
  mkControl n (maxHeight_ f) (stack_ f) (format_ f) (offset_ f) (formatLength_ f).

Definition charAt (f : FormatControl) (i : Z) : Z :=
  nth (Z.to_nat i) (format_ f) ch_nul.

(** [FormatControl::FormatControl]; the constructor crashes on a
    [maxHeight] above 127 and otherwise starts at offset 0 with no frame. *)
Definition newFormatControl (format : list Z) (formatLength maxHeight : Z)
  : outcome FormatControl :=
  if maxHeight >? 127
  then Crash "internal Fortran runtime error: maxHeight %d"
  else Ok (mkControl 0 maxHeight [] format 0 formatLength).

(** ** The sink capability [FormatContext]

    The virtual member functions of [FormatContext]; each one either
    updates the context or crashes. *)
Class FormatContext (C : Type) : Type := {
  Emit : list Z -> C -> outcome C;
  HandleSlash : Z -> C -> outcome C;
  HandleAbsolutePosition : Z -> C -> outcome C;
  HandleRelativePosition : Z -> C -> outcome C;
  mutableModes : C -> MutableModes;
  set_mutableModes : MutableModes -> C -> C
}.

(** Default member functions of [FormatContext] ([format.cpp]). *)
Definition default_Emit {C} (_ : list Z) (_ : C) : outcome C :=
  Crash "Cannot emit data from this FORMAT string".
Definition default_HandleSlash {C} (_ : Z) (_ : C) : outcome C :=
  Crash "A / control edit descriptor may not appear in this FORMAT string".
Definition default_HandleAbsolutePosition {C} (_ : Z) (_ : C) : outcome C :=
  Crash "A Tn control edit descriptor may not appear in this FORMAT string".
Definition default_HandleRelativePosition {C} (_ : Z) (_ : C) : outcome C :=
  Crash "An nX, TLn, or TRn control edit descriptor may not appear in this FORMAT string".

(** ** The FORMAT interpreter ([format.cpp])

    The interpreter runs over a pair of its own state and the context it
    reports to. *)

Section Control.
Context {C : Type} {ctx : FormatContext C}.

Definition St : Type := (FormatControl * C)%type.

Definition getControl : M St FormatControl := fun s => Ok (fst s, s).
Definition getContext : M St C := fun s => Ok (snd s, s).
Definition onControl (g : FormatControl -> FormatControl) : M St unit :=
  fun s => Ok (tt, (g (fst s), snd s)).
Definition onContext (g : C -> outcome C) : M St unit :=
  fun s => match g (snd s) with
           | Ok c' => Ok (tt, (fst s, c'))
           | Crash msg => Crash msg
           | OutOfFuel => OutOfFuel
           end.
Definition setOffset (o : Z) : M St unit := onControl (set_offset o).
Definition pushFrame (it : Iteration) : M St unit :=
  onControl (fun f => set_stack (it :: stack_ f) f).

(** Number of characters from the cursor to the end of the FORMAT. *)
Definition remainingChars (f : FormatControl) : nat :=
  Z.to_nat (formatLength_ f - offset_ f).

(** Modelled from the spec: [PeekNext] and [GetNextChar] are members
    declared in [format.h], which is not part of the sources.  The cursor
    never reads outside [0, formatLength): [PeekNext] yields the character
    under the cursor, or NUL at the end of the FORMAT; [GetNextChar] yields
    it and advances, and a FORMAT that ends where a character is needed is
    malformed. *)
Definition PeekNext (f : FormatControl) : Z :=
  if offset_ f <? formatLength_ f then charAt f (offset_ f) else ch_nul.

Definition GetNextChar : M St Z :=
  fun s =>
    let f := fst s in
    if formatLength_ f <=? offset_ f
    then Crash "FORMAT missing at least one ')'"
    else Ok (charAt f (offset_ f), (set_offset (offset_ f + 1) f, snd s)).

(** The [while (ch >= '0' && ch <= '9')] loop of [GetIntField] once
    [firstCh] is clear, when [ch] is [PeekNext()] on every trip.  The fuel
    is [remainingChars]: at 0 the cursor is at the end, [PeekNext()] is NUL
    and the loop exits. *)
Fixpoint GetIntField_loop (fuel : nat) (result : Z) (f : FormatControl)
  : outcome (Z * FormatControl) :=
  match fuel with
  | O => Ok (result, f)
  | S fuel' =>
      let ch := PeekNext f in
      if isDigit ch then
        if result >? INT_MAX / 10 - (ch - ch_0)
        then Crash "FORMAT integer field out of range"
        else GetIntField_loop fuel' (10 * result + ch - ch_0)
               (set_offset (offset_ f + 1) f)
      else Ok (result, f)
  end.

(** [FormatControl::GetIntField]; [firstCh = 0] stands for the default
    argument.  The first trip of the loop is written out, since with
    [firstCh] set it consumes that character and leaves the cursor alone. *)
Definition GetIntField (firstCh : Z) : M St Z :=
  fun s =>
    let f := fst s in
    let ch := if firstCh =? ch_nul then PeekNext f else firstCh in
    if negb (ch =? ch_minus) && negb (ch =? ch_plus) && negb (isDigit ch)
    then Crash "Invalid FORMAT: integer expected at '%c'"
    else
      let negate := ch =? ch_minus in
      let firstCh := if negate then ch_nul else firstCh in
      let ch := if negate then PeekNext f else ch in
      let scanned :=
        if firstCh =? ch_nul then GetIntField_loop (remainingChars f) 0 f
        else if isDigit ch then
          if 0 >? INT_MAX / 10 - (ch - ch_0)
          then Crash "FORMAT integer field out of range"
          else GetIntField_loop (remainingChars f) (10 * 0 + ch - ch_0) f
        else Ok (0, f) in
      match scanned with
      | Ok (result, f') =>
          let result := if negate then result * -1 else result in
          if negate && (result >? 0)
          then Crash "FORMAT integer field out of range"
          else Ok (result, (f', snd s))
      | Crash msg => Crash msg
      | OutOfFuel => OutOfFuel
      end.

Definition modifyModes (g : MutableModes -> MutableModes) : M St unit :=
  fun s => Ok (tt, (fst s, set_mutableModes (g (mutableModes (snd s))) (snd s))).
Definition setFlag (flag : Z) : M St unit :=
  modifyModes (fun m => mkModes (Z.lor (editingFlags m) flag) (roundingMode m)).
Definition clearFlag (flag : Z) : M St unit :=
  modifyModes (fun m =>
    mkModes (Z.land (editingFlags m) (Z.lnot flag)) (roundingMode m)).
Definition setRounding (r : RoundingMode) : M St unit :=
  modifyModes (fun m => mkModes (editingFlags m) r).

(** [HandleControl]; [next = 0] when the descriptor has one letter. *)
Definition HandleControl (ch next n : Z) : M St unit :=
  let unknown : M St unit :=
    if negb (next =? ch_nul)
    then crash "Unknown '%c%c' edit descriptor in FORMAT"
    else crash "Unknown '%c' edit descriptor in FORMAT" in
  if ch =? ch_B then
    if next =? ch_Z then setFlag blankZero
    else if next =? ch_N then clearFlag blankZero
    else unknown
  else if ch =? ch_D then
    if next =? ch_C then setFlag decimalComma
    else if next =? ch_P then clearFlag decimalComma
    else unknown
  else if ch =? ch_P then
    if next =? ch_nul then onControl (set_scale (wrap_u16 n))
    else unknown
  else if ch =? ch_R then
    if next =? ch_N then setRounding TiesToEven
    else if next =? ch_Z then setRounding ToZero
    else if next =? ch_U then setRounding Up
    else if next =? ch_D then setRounding Down
    else if next =? ch_C then setRounding TiesAwayFromZero
    else unknown
  else if ch =? ch_X then
    if next =? ch_nul then onContext (HandleRelativePosition n)
    else unknown
  else if ch =? ch_S then
    if next =? ch_P then setFlag signPlus
    else if (next =? ch_nul) || (next =? ch_S) then clearFlag signPlus
    else unknown
  else if ch =? ch_T then
    if next =? ch_nul then onContext (HandleAbsolutePosition n)
    else if (next =? ch_L) || (next =? ch_R)
    then onContext (HandleRelativePosition (if next =? ch_L then - n else n))
    else unknown
  else unknown.

(** The [while (ch == ',' || ch == ':')] loop at the head of each trip of
    [CueUpNextDataEdit]; [None] is the [return 0] taken at a colon when
    stopping.  The fuel is [remainingChars]: at 0 the [GetNextChar] of the
    loop body is at the end of the FORMAT and crashes. *)
Fixpoint skipSeparators (fuel : nat) (stop : bool) (ch : Z) : M St (option Z) :=
  if (ch =? ch_comma) || (ch =? ch_colon) then
    if stop && (ch =? ch_colon) then ret None
    else match fuel with
         | O => crash "FORMAT missing at least one ')'"
         | S fuel' =>
             c <- GetNextChar ;; skipSeparators fuel' stop (Capitalize c)
         end
  else ret (Some ch).

(** The scan for the closing quote of a character literal:
    [while (offset_ < formatLength_ && format_[offset_] != quote) ++offset_]. *)
Fixpoint scanQuote (fuel : nat) (quote : Z) (f : FormatControl) (o : Z) : Z :=
  match fuel with
  | O => o
  | S fuel' => if charAt f o =? quote then o else scanQuote fuel' quote f (o + 1)
  end.

(** The characters [format_[from .. from+n-1]] handed to [Emit]. *)
Definition slice (f : FormatControl) (from n : Z) : list Z :=
  firstn (Z.to_nat n) (skipn (Z.to_nat from) (format_ f)).

(** [repeat && *repeat > 0 ? *repeat : 1] *)
Definition countOf (r : option Z) : Z :=
  match r with
  | Some n => if n >? 0 then n else 1
  | None => 1
  end.

Definition isDataLetter (ch : Z) : bool :=
  (ch =? ch_A) || (ch =? ch_I) || (ch =? ch_B) || (ch =? ch_O) ||
  (ch =? ch_Z) || (ch =? ch_F) || (ch =? ch_D) || (ch =? ch_G).

(** What one trip through the body of [while (true)] ends in: another
    trip, with the current [unlimitedLoopCheck], or a [return]. *)
Inductive trip : Type :=
| Continue (unlimitedLoopCheck : Z)
| Return (result : Z).

(** The pieces of one trip through the body of the loop of
    [CueUpNextDataEdit], in the order of the source. *)

(** The optional repeat count or [*]: the count, whether [*] was seen, and
    the character to dispatch on. *)
Definition readRepeat (ch0 : Z) : M St (option Z * bool * Z) :=
  if (ch0 =? ch_minus) || (ch0 =? ch_plus) || isDigit ch0 then
    n <- GetIntField ch0 ;;
    c <- GetNextChar ;;
    ret (Some n, false, c)
  else if ch0 =? ch_star then
    c <- GetNextChar ;;
    if negb (c =? ch_lparen)
    then crash "Invalid FORMAT: '*' may appear only before '('"
    else ret (None, true, c)
  else ret (None, false, ch0).

(** [if (ch == '(')] *)
Definition openParen (unlimitedLoopCheck : Z) (repeat : option Z)
    (unlimitedFlag : bool) (f : FormatControl) : M St trip :=
  if height_ f >=? maxHeight_ f
  then crash "FORMAT stack overflow: too many nested parentheses"
  else if unlimitedFlag || (height_ f =? 0) then
    pushFrame (mkIteration (offset_ f - 1) unlimited) ;;;
    ret (Continue (offset_ f - 1))
  else
    match repeat with
    | Some r =>
        let r := if r <=? 0 then 1 else r in
        pushFrame (mkIteration (offset_ f - 1) (r - 1)) ;;;
        ret (Continue unlimitedLoopCheck)
    | None =>
        pushFrame (mkIteration (offset_ f - 1) 0) ;;;
        ret (Continue unlimitedLoopCheck)
    end.

(** [else if (ch == ')')], with [top = stack_[height_ - 1]]. *)
Definition closeParen (stop : bool) (unlimitedLoopCheck : Z)
    (top : Iteration) (below : list Iteration) (f : FormatControl) : M St trip :=
  if (height_ f =? 1) && stop then ret (Return 0)
  else
    (if height_ f =? 1 then onContext (HandleSlash 1) else ret tt) ;;;
    if remaining top =? unlimited then
      setOffset (start top + 1) ;;;
      if start top + 1 =? unlimitedLoopCheck
      then crash "Unlimited repetition in FORMAT lacks data edit descriptors"
      else ret (Continue unlimitedLoopCheck)
    else if remaining top >? 0 then
      onControl (fun g =>
        set_offset (start top + 1)
          (set_stack (mkIteration (start top) (remaining top - 1) :: below) g)) ;;;
      ret (Continue unlimitedLoopCheck)
    else
      onControl (set_stack below) ;;;
      ret (Continue unlimitedLoopCheck).

(** The [else if] on a quote character: a character literal. *)
Definition characterLiteral (unlimitedLoopCheck : Z) (quote : Z)
    (f : FormatControl) : M St trip :=
  let from := offset_ f in
  let close := scanQuote (remainingChars f) quote f from in
  if close >=? formatLength_ f
  then crash "FORMAT missing closing quote on character literal"
  else
    let f1 := set_offset (close + 1) f in
    let n := close + 1 - from in
    let n := if PeekNext f1 =? quote then n else n - 1 in
    setOffset (close + 1) ;;;
    onContext (Emit (slice f from n)) ;;;
    ret (Continue unlimitedLoopCheck).

(** [else if (ch == 'H')] *)
Definition hollerith (unlimitedLoopCheck : Z) (repeat : option Z)
    (f : FormatControl) : M St trip :=
  match repeat with
  | None => crash "Invalid width on Hollerith in FORMAT"
  | Some r =>
      if (r <? 1) || (offset_ f + r >? formatLength_ f)
      then crash "Invalid width on Hollerith in FORMAT"
      else
        onContext (Emit (slice f (offset_ f) r)) ;;;
        setOffset (offset_ f + r) ;;;
        ret (Continue unlimitedLoopCheck)
  end.

(** [else if (ch >= 'A' && ch <= 'Z')]: a data edit descriptor ends the
    scan with the cursor back on its letter; a control edit descriptor is
    handled. *)
Definition editDescriptor (unlimitedLoopCheck : Z) (repeat : option Z)
    (ch : Z) (f : FormatControl) : M St trip :=
  let from := offset_ f - 1 in
  let next := Capitalize (PeekNext f) in
  let next := if isUpper next then next else ch_nul in
  if (ch =? ch_E) || ((next =? ch_nul) && isDataLetter ch) then
    setOffset from ;;;
    ret (Return (countOf repeat))
  else
    repeat' <- (if ch =? ch_T
                then n <- GetIntField ch_nul ;; ret (Some n)
                else ret repeat) ;;
    HandleControl ch next (countOf repeat') ;;;
    ret (Continue unlimitedLoopCheck).

(** The chain of [if]s on [ch]. *)
Definition dispatch (stop : bool) (unlimitedLoopCheck : Z)
    (repeat : option Z) (unlimitedFlag : bool) (ch : Z) : M St trip :=
  f <- getControl ;;
  if ch =? ch_lparen then openParen unlimitedLoopCheck repeat unlimitedFlag f
  else
    match stack_ f with
    | [] => crash "FORMAT lacks initial '('"
    | top :: below =>
        if ch =? ch_rparen then closeParen stop unlimitedLoopCheck top below f
        else if (ch =? ch_squote) || (ch =? ch_dquote)
        then characterLiteral unlimitedLoopCheck ch f
        else if ch =? ch_H then hollerith unlimitedLoopCheck repeat f
        else if isUpper ch then editDescriptor unlimitedLoopCheck repeat ch f
        else if ch =? ch_slash then
          onContext (HandleSlash (countOf repeat)) ;;;
          ret (Continue unlimitedLoopCheck)
        else crash "Invalid character '%c' in FORMAT"
    end.

(** One trip through the body of the loop of [CueUpNextDataEdit]. *)
Definition CueUpTrip (stop : bool) (unlimitedLoopCheck : Z) : M St trip :=
  c0 <- GetNextChar ;;
  f0 <- getControl ;;
  sep <- skipSeparators (remainingChars f0) stop (Capitalize c0) ;;
  match sep with
  | None => ret (Return 0)
  | Some ch0 =>
      pre <- readRepeat ch0 ;;
      dispatch stop unlimitedLoopCheck (fst (fst pre)) (snd (fst pre)) (snd pre)
  end.

(** [while (true)], with [unlimitedLoopCheck] carried from trip to trip. *)
Fixpoint CueUpLoop (fuel : nat) (stop : bool) (unlimitedLoopCheck : Z) : M St Z :=
  match fuel with
  | O => fun _ => OutOfFuel
  | S fuel' =>
      t <- CueUpTrip stop unlimitedLoopCheck ;;
      match t with
      | Continue check => CueUpLoop fuel' stop check
      | Return r => ret r
      end
  end.

(** [FormatControl::CueUpNextDataEdit] *)
Definition CueUpNextDataEdit (fuel : nat) (stop : bool) : M St Z :=
  CueUpLoop fuel stop (-1).

Definition isExpoLetter (ch : Z) : bool :=
  (ch =? ch_e) || (ch =? ch_E) || (ch =? ch_d) || (ch =? ch_D).

(** The variation letter that may follow [E]. *)
Definition readVariation (descr : Z) : M St Z :=
  if descr =? ch_E then
    f <- getControl ;;
    let v := Capitalize (PeekNext f) in
    if isUpper v then setOffset (offset_ f + 1) ;;; ret v
    else ret ch_nul
  else ret ch_nul.

(** The digits after a point and the exponent digits after them. *)
Definition readFraction : M St (option Z * option Z) :=
  f1 <- getControl ;;
  if PeekNext f1 =? ch_dot then
    setOffset (offset_ f1 + 1) ;;;
    d <- GetIntField ch_nul ;;
    f2 <- getControl ;;
    if isExpoLetter (PeekNext f2) then
      setOffset (offset_ f2 + 1) ;;;
      e <- GetIntField ch_nul ;;
      ret (Some d, Some e)
    else ret (Some d, None)
  else ret (None, None).

(** The descriptor under the cursor as [GetNext] reads it: the letter,
    the variation letter of [E], the width, the modes in force, and the
    optional digits and exponent digits. *)
Definition readDataEdit : M St (Z -> DataEdit) :=
  c <- GetNextChar ;;
  let descr := Capitalize c in
  var <- readVariation descr ;;
  w <- GetIntField ch_nul ;;
  cx <- getContext ;;
  let md := mutableModes cx in
  de <- readFraction ;;
  ret (mkEdit descr var w (fst de) (snd de) md).

(** "Handle repeated nonparenthesized edit descriptors": the frame of a
    repeated descriptor is pushed, and the frame on top, if it is one of
    a repeated descriptor, is charged with [maxRepeat] applications. *)
Definition chargeRepeat (rep from maxRepeat : Z) (edit : Z -> DataEdit)
  : M St DataEdit :=
  (if rep >? 1 then pushFrame (mkIteration from rep) else ret tt) ;;;
  f3 <- getControl ;;
  if height_ f3 >? 1 then
    match stack_ f3 with
    | top :: below =>
        if negb (charAt f3 (start top) =? ch_lparen) then
          if remaining top >? maxRepeat then
            onControl (fun g =>
              set_offset (start top)
                (set_stack (mkIteration (start top) (remaining top - maxRepeat) :: below) g)) ;;;
            ret (edit maxRepeat)
          else
            onControl (set_stack below) ;;;
            ret (edit (remaining top))
        else ret (edit 1)
    | [] => ret (edit 1)
    end
  else ret (edit 1).

(** [FormatControl::GetNext] *)
Definition GetNext (fuel : nat) (maxRepeat : Z) : M St DataEdit :=
  rep <- CueUpNextDataEdit fuel false ;;
  f0 <- getControl ;;
  edit <- readDataEdit ;;
  chargeRepeat rep (offset_ f0) maxRepeat edit.

(** [FormatControl::FinishOutput] *)
Definition FinishOutput (fuel : nat) : M St unit :=
  CueUpNextDataEdit fuel true ;;; ret tt.

End Control.

(** ** The internal formatted output statement ([io-stmt.cpp])

    [InternalFormattedIoStatementState<false, char>] without its
    [format_] member, which the interpreter carries beside it. *)

Record Statement : Type := mkStatement {
  internal_ : list Z;
  internalLength_ : Z;
  at_ : Z;
  modes_ : MutableModes;
  eor_ : bool
}.

(** Modelled from the spec: [SignalEor] and [GetIoStat] belong to
    [IoErrorHandler] in [io-error.h], which is not part of the sources.
    "The statement records the condition, EndIoStatement returns a nonzero
    status"; the value of that status is opaque, success is 0. *)
Definition IostatEor : Z := 1.
Definition SignalEor (s : Statement) : Statement :=
  mkStatement (internal_ s) (internalLength_ s) (at_ s) (modes_ s) true.
Definition GetIoStat (s : Statement) : Z :=
  if eor_ s then IostatEor else 0.

(** [std::memcpy(internal_ + pos, data, n)] *)
Definition memcpy (buf : list Z) (pos n : Z) (data : list Z) : list Z :=
  firstn (Z.to_nat pos) buf ++ firstn (Z.to_nat n) data
    ++ skipn (Z.to_nat (pos + n)) buf.

Definition set_buffer (buf : list Z) (pos : Z) (s : Statement) : Statement :=
  mkStatement buf (internalLength_ s) pos (modes_ s) (eor_ s).
Definition set_at (pos : Z) (s : Statement) : Statement :=
  mkStatement (internal_ s) (internalLength_ s) pos (modes_ s) (eor_ s).

Module Internal.

(** [InternalFormattedIoStatementState::Emit]; [chars] is the length of
    [data], and the sums are those of [std::size_t]. *)
Definition Emit (data : list Z) (s : Statement) : bool * Statement :=
  let chars := Z.of_nat (length data) in
  if wrap_u64 (at_ s + chars) >? internalLength_ s then
    let s1 := SignalEor s in
    (false,
     if at_ s1 <? internalLength_ s1
     then set_buffer
            (memcpy (internal_ s1) (at_ s1) (internalLength_ s1 - at_ s1) data)
            (internalLength_ s1) s1
     else s1)
  else
    (true,
     set_buffer (memcpy (internal_ s) (at_ s) chars data)
       (wrap_u64 (at_ s + chars)) s).

(** [InternalFormattedIoStatementState::HandleAbsolutePosition] *)
Definition HandleAbsolutePosition (n : Z) (s : Statement) : bool * Statement :=
  let n := if n <? 0 then 0 else n in
  if n >=? internalLength_ s then (false, SignalEor s)
  else (true, set_at n s).

(** [InternalFormattedIoStatementState::HandleRelativePosition] *)
Definition HandleRelativePosition (n : Z) (s : Statement) : bool * Statement :=
  if n <? 0 then
    (true, set_at (at_ s - Z.min (at_ s) (wrap_u64 (- wrap_u64 n))) s)
  else if wrap_u64 (at_ s + n) >? internalLength_ s then
    (false, set_at (internalLength_ s) (SignalEor s))
  else (true, set_at (wrap_u64 (at_ s + n)) s).

End Internal.

(** The statement as a [FormatContext]: it overrides [Emit] and the two
    positioning members; the override of [HandleSlash] is not written yet,
    so the default applies. *)
#[export] Instance Statement_FormatContext : FormatContext Statement := {
  Emit := fun data s => Ok (snd (Internal.Emit data s));
  HandleSlash := default_HandleSlash;
  HandleAbsolutePosition := fun n s => Ok (snd (Internal.HandleAbsolutePosition n s));
  HandleRelativePosition := fun n s => Ok (snd (Internal.HandleRelativePosition n s));
  mutableModes := modes_;
  set_mutableModes := fun m s =>
    mkStatement (internal_ s) (internalLength_ s) (at_ s) m (eor_ s)
}.

(** A statement in progress, the value behind a [Cookie]. *)
Definition Cookie : Type := (FormatControl * Statement)%type.

(** The constructor of the statement: the [FormatControl] is built with
    the default [maxHeight] of [format.h], a constant that is not part of
    the sources and is taken as the parameter [maxMaxHeight]; the buffer
    is filled with blanks. *)
Definition newStatement (maxMaxHeight : Z) (internalLength : Z)
    (format : list Z) (formatLength : Z) : outcome Cookie :=
  match newFormatControl format formatLength maxMaxHeight with
  | Ok fc =>
      Ok (fc, mkStatement (List.repeat ch_space (Z.to_nat internalLength))
                internalLength 0 defaultModes false)
  | Crash msg => Crash msg
  | OutOfFuel => OutOfFuel
  end.

(** ** The statement interface seen by the API ([io-stmt.h]) *)
Class IoStatementState (S : Type) : Type := {
  io_GetNext : nat -> Z -> M S DataEdit;
  io_Emit : list Z -> M S bool
}.

#[export] Instance Cookie_IoStatementState : IoStatementState Cookie := {
  io_GetNext := fun fuel maxRepeat => GetNext fuel maxRepeat;
  io_Emit := fun data s =>
    let r := Internal.Emit data (snd s) in Ok (fst r, (fst s, snd r))
}.

(** ** Integer output conversion ([io.cpp]) *)

(** The digit loops: [while (un > 0) { *--p = digit(un); un = next(un); }].
    The scratch buffer has 66 bytes; 64 trips are enough for any 64-bit
    value, see [digitLoop_fuel]. *)
Fixpoint digitLoop (next digit : Z -> Z) (fuel : nat) (un : Z) (p : list Z)
  : list Z :=
  match fuel with
  | O => p
  | S fuel' =>
      if un >? 0 then digitLoop next digit fuel' (next un) (digit un :: p)
      else p
  end.

(** Modelled from the spec: [common::DivideUnsignedBy<std::uint64_t, 10>]
    comes from [unsigned-const-division.h], which is not part of the
    sources; "loop dividing by 10". *)
Definition DivideUnsignedBy10 (un : Z) : Z := un / 10.

Definition decimalDigit (un : Z) : Z := ch_0 + un - 10 * DivideUnsignedBy10 un.
Definition binaryDigit (un : Z) : Z := ch_0 + Z.land un 1.
Definition octalDigit (un : Z) : Z := ch_0 + Z.land un 7.
Definition hexDigit (un : Z) : Z :=
  let digit := Z.land un 15 in
  if digit >=? 10 then ch_A + (digit - 10) else ch_0 + digit.

(** The characters [p .. end) after the [switch] on the descriptor, or
    [None] in the [default] case. *)
Definition convertDigits (descr : Z) (un : Z) : option (list Z) :=
  if (descr =? ch_G) || (descr =? ch_I)
  then Some (digitLoop DivideUnsignedBy10 decimalDigit 64 un [])
  else if descr =? ch_B
  then Some (digitLoop (fun u => Z.shiftr u 1) binaryDigit 64 un [])
  else if descr =? ch_O
  then Some (digitLoop (fun u => Z.shiftr u 3) octalDigit 64 un [])
  else if descr =? ch_Z
  then Some (digitLoop (fun u => Z.shiftr u 4) hexDigit 64 un [])
  else None.

(** [static_cast<std::uint64_t>(n < 0 ? -n : n)], the negation being the
    two's-complement one. *)
Definition magnitude (n : Z) : Z :=
  wrap_u64 (if n <? 0 then wrap_i64 (- n) else n).

Section Conversion.
Context {S : Type} {io : IoStatementState S}.

(** [for (k trips) if (!io->Emit(c, 1)) return false;] — [true] when
    every emission was accepted. *)
Fixpoint emitRepeated (k : nat) (c : Z) : M S bool :=
  match k with
  | O => ret true
  | Datatypes.S k' =>
      ok <- io_Emit [c] ;;
      if ok : bool then emitRepeated k' c else ret false
  end.

(** The body of [OutputInteger64] after [io->GetNext(edit)]. *)
Definition EditInteger64 (edit : DataEdit) (n : Z) : M S bool :=
  let un := magnitude n in
  let descr := descriptor edit in
  match convertDigits descr un with
  | None =>
      crash "Data edit descriptor '%c' does not correspond to an INTEGER data item"
  | Some p =>
    let signChars :=
      if ((descr =? ch_G) || (descr =? ch_I)) &&
         ((n <? 0) || negb (Z.land (editingFlags (modes edit)) signPlus =? 0))
      then 1 else 0 in
    let ndigits := Z.of_nat (length p) in
    let blank :=
      match digits edit with
      | Some m => (ndigits <=? m) && (m =? 0) && (n =? 0)
      | None => false
      end in
    let leadingZeroes :=
      match digits edit with
      | Some m =>
          if ndigits <=? m then (if (m =? 0) && (n =? 0) then 0 else m - ndigits)
          else if n =? 0 then 1 else 0
      | None => if n =? 0 then 1 else 0
      end in
    let signChars := if blank then 0 else signChars in
    let w := if blank then Z.max 1 (width edit) else width edit in
    let total := signChars + leadingZeroes + ndigits in
    if (w >? 0) && (total >? w) then
      emitRepeated (Z.to_nat w) ch_star
    else if total <? w then
      ok <- emitRepeated (Z.to_nat (w - total)) ch_space ;;
      ret false
    else
      ok <- (if signChars =? 0 then ret true
             else io_Emit [if n <? 0 then ch_minus else ch_plus]) ;;
      if negb ok then ret false
      else
        ok <- emitRepeated (Z.to_nat leadingZeroes) ch_0 ;;
        if negb ok then ret false
        else io_Emit p
  end.

(** [IONAME(OutputInteger64)] *)
Definition OutputInteger64 (fuel : nat) (n : Z) : M S bool :=
  edit <- io_GetNext fuel 1 ;;
  EditInteger64 edit n.

End Conversion.

(** [IONAME(BeginInternalFormattedOutput)] *)
Definition BeginInternalFormattedOutput (maxMaxHeight : Z)
    (internalLength : Z) (format : list Z) (formatLength : Z) : outcome Cookie :=
  newStatement maxMaxHeight internalLength format formatLength.

(** [IONAME(EndIoStatement)], that is
    [InternalFormattedIoStatementState::EndIoStatement]. *)
Definition EndIoStatement (fuel : nat) : M Cookie Z :=
  FinishOutput fuel ;;;
  fun s => Ok (GetIoStat (snd s), s).

(** ** The test driver ([runtime-test/format.cpp]: [main])

    One formatted output statement over a buffer of [internalLength]
    characters: begin, one [OutputInteger64] per item, end.  The result is
    what each [OutputInteger64] returned, the status of [EndIoStatement],
    and the statement as it was left. *)

Fixpoint outputItems (fuel : nat) (items : list Z) : M Cookie (list bool) :=
  match items with
  | [] => ret []
  | n :: rest =>
      ok <- OutputInteger64 fuel n ;;
      oks <- outputItems fuel rest ;;
      ret (ok :: oks)
  end.

Definition formattedOutput (maxMaxHeight : Z) (fuel : nat) (internalLength : Z)
    (format : string) (items : list Z) : outcome ((list bool * Z) * Cookie) :=
  match BeginInternalFormattedOutput maxMaxHeight internalLength
          (chars format) (Z.of_nat (length (chars format))) with
  | Ok cookie =>
      (oks <- outputItems fuel items ;;
       status <- EndIoStatement fuel ;;
       ret (oks, status)) cookie
  | Crash msg => Crash msg
  | OutOfFuel => OutOfFuel
  end.

(** The buffer the caller reads back. *)
Definition bufferOf (c : Cookie) : string := text (internal_ (snd c)).

(** ** Well-formedness of a statement

    The buffer has [internalLength_] characters, a length that fits
    [std::size_t], and the cursor is inside it. *)
Definition wfStatement (s : Statement) : Prop :=
  internalLength_ s = Z.of_nat (length (internal_ s)) /\
  0 <= at_ s <= internalLength_ s /\
  internalLength_ s < 2 ^ 63.

(** What the caller of the API observes of a run: the values returned
    by the [OutputInteger64] calls, the status of [EndIoStatement], the
    buffer, and the cursor and end-of-record flag the statement ended with. *)
Definition observed (r : outcome ((list bool * Z) * Cookie))
  : outcome (list bool * Z * string * Z * bool) :=
  match r with
  | Ok (oks, st, c) => Ok (oks, st, bufferOf c, at_ (snd c), eor_ (snd c))
  | Crash msg => Crash msg
  | OutOfFuel => OutOfFuel
  end.

(** The scale factor and editing flags a run ended with. *)
Definition observedModes (r : outcome ((list bool * Z) * Cookie))
  : outcome (Z * Z) :=
  match r with
  | Ok (_, c) => Ok (scale_ (fst c), editingFlags (modes_ (snd c)))
  | Crash msg => Crash msg
  | OutOfFuel => OutOfFuel
  end.

(** A fresh statement on [format] cued up to its first data edit: the
    repeat count [CueUpNextDataEdit] returned, the offset it stopped at
    and the character there. *)
Definition cuedUp (maxMaxHeight : Z) (fuel : nat) (format : string)
  : outcome (Z * Z * Z) :=
  match BeginInternalFormattedOutput maxMaxHeight 32
          (chars format) (Z.of_nat (length (chars format))) with
  | Ok cookie =>
      match CueUpNextDataEdit fuel false cookie with
      | Ok (r, c) => Ok (r, offset_ (fst c), PeekNext (fst c))
      | Crash msg => Crash msg
      | OutOfFuel => OutOfFuel
      end
  | Crash msg => Crash msg
  | OutOfFuel => OutOfFuel
  end.

(** The FORMAT made of the unlimited group [*(1X)] alone, inside that
    group: both frames are on
    the stack and the cursor is at offset [o] of the group. *)
Definition format_unlimited1X : list Z := ch_lparen :: chars "*(1X))".

Definition unlimited1X (o : Z) : FormatControl :=
  mkControl 0 100 [mkIteration 2 unlimited; mkIteration 0 unlimited]
    format_unlimited1X o 7.

(** * FORMAT lists

    The grammar of the FORMAT strings the scan is followed on, what a
    format list asks for, and where the scan stands in it. *)

(** ** The cursor between two parts of the FORMAT *)

(** The cursor of [f] stands between [pre] and [rest]. *)
Definition At (f : FormatControl) (pre rest : list Z) : Prop :=
  format_ f = pre ++ rest /\
  offset_ f = Z.of_nat (length pre) /\
  formatLength_ f = Z.of_nat (length (pre ++ rest)).

Definition advance (k : nat) (f : FormatControl) : FormatControl :=
  set_offset (offset_ f + Z.of_nat k) f.

(** ** Numbers of the FORMAT *)

Definition digitsValueFrom (r : Z) (ds : list Z) : Z :=
  fold_left (fun r d => 10 * r + d - ch_0) ds r.
Definition digitsValue (ds : list Z) : Z := digitsValueFrom 0 ds.

Fixpoint digitsFitFrom (r : Z) (ds : list Z) : bool :=
  match ds with
  | [] => true
  | d :: ds' =>
      isDigit d && negb (r >? INT_MAX / 10 - (d - ch_0))
      && digitsFitFrom (10 * r + d - ch_0) ds'
  end.

(** A nonempty string of digits that [GetIntField] reads without
    overflow. *)
Definition isNumber (ds : list Z) : bool :=
  match ds with [] => false | _ => digitsFitFrom 0 ds end.

(** The next character does not continue a number. *)
Definition endsNumber (rest : list Z) : bool := negb (isDigit (hd ch_nul rest)).

(** ** FORMAT items

    The items of a format list as the grammar has them: a data edit
    descriptor [r a v w.d E e], a one-letter control edit descriptor [r a],
    a slash [r /], a character literal, a Hollerith field, and a
    parenthesized group [r ( ... )].  A repeat count, a width and the like
    are kept as their digits; an absent count is the empty string. *)
Inductive item : Type :=
| IData (count : list Z) (letter : Z) (var : option Z) (w : list Z)
        (d : option (list Z)) (e : option (Z * list Z))
| ICtl (count : list Z) (letter : Z)
| ISlash (count : list Z)
| ILit (quote : Z) (body : list Z)
| IHol (count : list Z) (payload : list Z)
| IGroup (count : list Z) (body : list item).

(** Texts joined by commas. *)
Fixpoint joinComma (ls : list (list Z)) : list Z :=
  match ls with
  | [] => []
  | a :: rest =>
      match rest with
      | [] => a
      | _ => a ++ ch_comma :: joinComma rest
      end
  end.

Definition printOpt (o : option (list Z)) : list Z :=
  match o with Some l => l | None => [] end.

Fixpoint print (x : item) : list Z :=
  match x with
  | IData c a v w d e =>
      c ++ a :: match v with Some v => [v] | None => [] end
        ++ w
        ++ match d with Some d => ch_dot :: d | None => [] end
        ++ match e with Some (l, e) => l :: e | None => [] end
  | ICtl c a => c ++ [a]
  | ISlash c => c ++ [ch_slash]
  | ILit q body => q :: body ++ [q]
  | IHol c payload => c ++ ch_H :: payload
  | IGroup c body => c ++ ch_lparen :: joinComma (map print body) ++ [ch_rparen]
  end.

Definition printItems (l : list item) : list Z := joinComma (map print l).

(** The whole FORMAT: a list of items in parentheses. *)
Definition printFormat (l : list item) : list Z :=
  ch_lparen :: printItems l ++ [ch_rparen].

(** The value of an optional repeat count, as [CueUpNextDataEdit] holds
    it. *)
Definition countValue (c : list Z) : option Z :=
  match c with [] => None | _ => Some (digitsValue c) end.

Definition okCount (c : list Z) : bool :=
  match c with [] => true | _ => isNumber c end.

(** The number of passes of a group: [max(1, repeat)], or one. *)
Definition laps (c : list Z) : nat :=
  match countValue c with
  | Some r => Z.to_nat (if r <=? 0 then 1 else r)
  | None => 1
  end.

(** Well-formed items that fit a stack of [mh] frames when scanned with
    [h] frames on it. *)
Fixpoint okItem (mh h : nat) (x : item) : bool :=
  match x with
  | IData c a v w d e =>
      okCount c && ((a =? ch_E) || isDataLetter a)
      && match v with Some v => (a =? ch_E) && isUpper v | None => true end
      && isNumber w
      && match d with Some d => isNumber d | None => true end
      && match e with
         | Some (l, e) =>
             isExpoLetter l && isNumber e
             && match d with Some _ => true | None => false end
         | None => true
         end
  | ICtl c a =>
      okCount c && isUpper a && negb (a =? ch_H) && negb (a =? ch_E)
      && negb (a =? ch_T) && negb (isDataLetter a)
  | ISlash c => okCount c
  | ILit q body =>
      ((q =? ch_squote) || (q =? ch_dquote))
      && forallb (fun b => negb (b =? q)) body
  | IHol c payload =>
      isNumber c && (digitsValue c =? Z.of_nat (length payload))
      && negb (Nat.eqb (length payload) 0)
  | IGroup c body =>
      okCount c && Nat.ltb h mh && forallb (okItem mh (S h)) body
  end.

Definition okItems (mh h : nat) (l : list item) : bool := forallb (okItem mh h) l.

(** ** What a format list asks for

    The actions of a format list in the order the scan meets them: a
    pause where the scan only moves (it opens or closes a group), an
    emission, a slash, a control edit, and a data edit descriptor to hand
    out. *)
Inductive action : Type :=
| ATau
| AEmit (data : list Z)
| ASlash (n : Z)
| ACtl (letter n : Z)
| AYield (descr var w : Z) (d e : option Z).

Definition repeatList {A} (n : nat) (l : list A) : list A :=
  concat (List.repeat l n).

Fixpoint flat (x : item) : list action :=
  match x with
  | IData c a v w d e =>
      List.repeat
        (AYield a (match v with Some v => v | None => ch_nul end)
           (digitsValue w) (option_map digitsValue d)
           (option_map (fun le => digitsValue (snd le)) e))
        (Z.to_nat (countOf (countValue c)))
  | ICtl c a => [ACtl a (countOf (countValue c))]
  | ISlash c => [ASlash (countOf (countValue c))]
  | ILit q body => [AEmit body]
  | IHol c payload => [AEmit payload]
  | IGroup c body =>
      ATau :: repeatList (laps c) (concat (map flat body) ++ [ATau])
  end.

Definition flatItems (l : list item) : list action := concat (map flat l).

(** The actions with the pauses removed. *)
Definition isTau (a : action) : bool :=
  match a with ATau => true | _ => false end.
Definition erase (l : list action) : list action :=
  filter (fun a => negb (isTau a)) l.

(** One group of a format list unrolled: [r(l)] replaced by [l, ..., l],
    at any depth. *)
Inductive unroll : list item -> list item -> Prop :=
| unroll_here pre c body post :
    unroll (pre ++ IGroup c body :: post)
           (pre ++ repeatList (laps c) body ++ post)
| unroll_inside pre c body body' post :
    unroll body body' ->
    unroll (pre ++ IGroup c body :: post) (pre ++ IGroup c body' :: post).

(** ** The format list as a program

    The actions run against a context, one step for each trip of the
    scan; [all] is the list the scan returns to after the last right
    parenthesis. *)

Section Abstract.
Context {C : Type} {ctx : FormatContext C}.

Definition absState : Type := (list action * Z * C)%type.

Definition liftContext (r : outcome C) (k : C -> absState)
  : outcome (option (Z -> DataEdit) * absState) :=
  match r with
  | Ok c' => Ok (None, k c')
  | Crash msg => Crash msg
  | OutOfFuel => OutOfFuel
  end.

(** A control edit acts on the scale factor and the context only. *)
Definition controlEffect (letter n : Z) (scale : Z) (c : C) : outcome (Z * C) :=
  match HandleControl letter ch_nul n (mkControl scale 0 [] [] 0 0, c) with
  | Ok (_, (f, c')) => Ok (scale_ f, c')
  | Crash msg => Crash msg
  | OutOfFuel => OutOfFuel
  end.

Definition absStep (all : list action) (s : absState)
  : outcome (option (Z -> DataEdit) * absState) :=
  let '(cur, scale, c) := s in
  match cur with
  | [] => liftContext (HandleSlash 1 c) (fun c' => (all, scale, c'))
  | ATau :: cur' => Ok (None, (cur', scale, c))
  | AEmit data :: cur' => liftContext (Emit data c) (fun c' => (cur', scale, c'))
  | ASlash n :: cur' => liftContext (HandleSlash n c) (fun c' => (cur', scale, c'))
  | ACtl a n :: cur' =>
      match controlEffect a n scale c with
      | Ok (scale', c') => Ok (None, (cur', scale', c'))
      | Crash msg => Crash msg
      | OutOfFuel => OutOfFuel
      end
  | AYield descr var w d e :: cur' =>
      Ok (Some (mkEdit descr var w d e (mutableModes c)), (cur', scale, c))
  end.

(** The steps up to the next data edit descriptor, which is handed out
    for one application. *)
Fixpoint absNext (all : list action) (fuel : nat) (s : absState)
  : outcome (DataEdit * absState) :=
  match fuel with
  | O => OutOfFuel
  | S fuel' =>
      match absStep all s with
      | Ok (None, s') => absNext all fuel' s'
      | Ok (Some edit, s') => Ok (edit 1, s')
      | Crash msg => Crash msg
      | OutOfFuel => OutOfFuel
      end
  end.

Fixpoint absWalk (all : list action) (fuel : nat) (k : nat) (s : absState)
  : outcome (list DataEdit * absState) :=
  match k with
  | O => Ok ([], s)
  | S k' =>
      match absNext all fuel s with
      | Ok (e, s') =>
          match absWalk all fuel k' s' with
          | Ok (es, s'') => Ok (e :: es, s'')
          | Crash msg => Crash msg
          | OutOfFuel => OutOfFuel
          end
      | Crash msg => Crash msg
      | OutOfFuel => OutOfFuel
      end
  end.

(** Driving [GetNext] for [k] data items, one application at a time. *)
Fixpoint walk (fuel : nat) (k : nat) : M St (list DataEdit) :=
  match k with
  | O => ret []
  | S k' =>
      e <- GetNext fuel 1 ;;
      es <- walk fuel k' ;;
      ret (e :: es)
  end.

End Abstract.

(** ** Where the scan stands in a format list *)

(** A group the scan is inside of: its items, the passes left after this
    one, and the items after it. *)
Record zframe : Type := mkZ {
  zbody : list item;
  zleft : nat;
  zafter : list item
}.

Inductive cursor : Type :=
| CInit
| CItems (sep : bool) (now : list item)
| CRepeat (x : item) (m : nat) (now : list item).

Definition sepText (l : list item) : list Z :=
  match l with [] => [] | _ => ch_comma :: printItems l end.

(** The text from the right parenthesis of the innermost group to the
    end of the FORMAT. *)
Fixpoint tailText (zs : list zframe) : list Z :=
  ch_rparen ::
  match zs with
  | [] => []
  | z :: zs' => sepText (zafter z) ++ tailText zs'
  end.

(** A data edit descriptor without its repeat count. *)
Definition uncounted (x : item) : item :=
  match x with
  | IData _ a v w d e => IData [] a v w d e
  | _ => x
  end.

Definition isData (x : item) : bool :=
  match x with IData _ _ _ _ _ _ => true | _ => false end.

Definition cursorText (all : list item) (cur : cursor) (zs : list zframe)
  : list Z :=
  match cur with
  | CInit => printFormat all
  | CItems sep now =>
      (if sep then sepText now else printItems now) ++ tailText zs
  | CRepeat x m now => print (uncounted x) ++ sepText now ++ tailText zs
  end.

(** The frames of the groups the scan is inside of, innermost first, over
    the frame of the whole FORMAT. *)
Inductive Frames (mh : nat) (F : list Z)
  : list zframe -> list Iteration -> Prop :=
| Frames_nil : Frames mh F [] [mkIteration 0 unlimited]
| Frames_cons z zs K pre :
    Frames mh F zs K ->
    F = pre ++ ch_lparen :: printItems (zbody z) ++ tailText (z :: zs) ->
    okItems mh (S (S (length zs))) (zbody z) = true ->
    okItems mh (S (length zs)) (zafter z) = true ->
    Frames mh F (z :: zs)
      (mkIteration (Z.of_nat (length pre)) (Z.of_nat (zleft z)) :: K).

Definition Rep (mh : nat) (all : list item) (f : FormatControl)
    (cur : cursor) (zs : list zframe) : Prop :=
  format_ f = printFormat all /\
  maxHeight_ f = Z.of_nat mh /\
  okItems mh 1 all = true /\
  exists pre K,
    At f pre (cursorText all cur zs) /\
    match cur with
    | CInit => pre = [] /\ zs = [] /\ stack_ f = [] /\ (1 <= mh)%nat
    | CItems sep now =>
        Frames mh (format_ f) zs K /\ stack_ f = K /\
        okItems mh (S (length zs)) now = true
    | CRepeat x m now =>
        Frames mh (format_ f) zs K /\
        stack_ f = mkIteration (offset_ f) (Z.of_nat m) :: K /\
        isData x = true /\ okItem mh (S (length zs)) x = true /\
        (1 <= m)%nat /\
        okItems mh (S (length zs)) now = true
    end.

Definition yieldOf (x : item) : list action :=
  match x with
  | IData _ a v w d e => flat (IData [] a v w d e)
  | _ => []
  end.

Fixpoint actsUp (zs : list zframe) : list action :=
  match zs with
  | [] => []
  | z :: zs' =>
      ATau :: repeatList (zleft z) (flatItems (zbody z) ++ [ATau])
        ++ flatItems (zafter z) ++ actsUp zs'
  end.

Definition acts (all : list item) (cur : cursor) (zs : list zframe)
  : list action :=
  match cur with
  | CInit => ATau :: flatItems all
  | CItems _ now => flatItems now ++ actsUp zs
  | CRepeat x m now => repeatList m (yieldOf x) ++ flatItems now ++ actsUp zs
  end.

(** The character a trip dispatches on when it opens an item: not part
    of a number, not a separator, not a lower-case letter. *)
Definition mainChar (m : Z) : bool :=
  negb (isDigit m) && negb (m =? ch_comma) && negb (m =? ch_colon)
  && negb (m =? ch_minus) && negb (m =? ch_plus) && negb (m =? ch_star)
  && negb ((ch_a <=? m) && (m <=? ch_z)).

(** The parts of the text of a data edit descriptor. *)
Definition varText (v : option Z) : list Z :=
  match v with Some v => [v] | None => [] end.
Definition dotText (d : option (list Z)) : list Z :=
  match d with Some d => ch_dot :: d | None => [] end.
Definition expoText (e : option (Z * list Z)) : list Z :=
  match e with Some (l, e) => l :: e | None => [] end.

(** The text ends an item: a comma or a right parenthesis comes next. *)
Definition isDelim (rest : list Z) : Prop :=
  hd ch_nul rest = ch_comma \/ hd ch_nul rest = ch_rparen.

(** What every cursor of a scan shares: the FORMAT is the text of [all],
    it fits the stack, and the stack below a repeated descriptor holds
    the frames of the groups entered. *)
Definition Base (mh : nat) (all : list item) (f : FormatControl)
    (zs : list zframe) (K : list Iteration) : Prop :=
  format_ f = printFormat all /\
  maxHeight_ f = Z.of_nat mh /\
  okItems mh 1 all = true /\
  Frames mh (format_ f) zs K.

Definition okCheck (chk : Z) : Prop := chk = -1 \/ chk = 0.

Section TripSim.
Context {C : Type} {ctx : FormatContext C}.

(** One trip of the scan does what one step of the format list asks
    for, and ends where the rest of the list begins. *)
Definition TripSim (mh : nat) (all : list item) (chk : Z)
    (f : FormatControl) (c : C)
    (r : outcome (option (Z -> DataEdit) * absState)) : Prop :=
  match r with
  | Ok (None, (a', scale', c')) =>
      exists f' cur' zs' chk',
        CueUpTrip false chk (f, c) = Ok (Continue chk', (f', c')) /\
        Rep mh all f' cur' zs' /\ acts all cur' zs' = a' /\
        scale_ f' = scale' /\ okCheck chk'
  | Ok (Some edit, (a', scale', c')) =>
      exists rep f1 f' cur' zs',
        CueUpTrip false chk (f, c) = Ok (Return rep, (f1, c)) /\
        (e <- readDataEdit ;; chargeRepeat rep (offset_ f1) 1 e) (f1, c)
          = Ok (edit 1, (f', c')) /\
        Rep mh all f' cur' zs' /\ acts all cur' zs' = a' /\
        scale_ f' = scale'
  | Crash msg => CueUpTrip false chk (f, c) = Crash msg
  | OutOfFuel => CueUpTrip false chk (f, c) = OutOfFuel
  end.

End TripSim.

(** ** Outcomes of the scan and of the format list *)

Section Outcomes.
Context {C : Type} {ctx : FormatContext C}.

(** [GetNext] for one application, with the loop of [CueUpNextDataEdit]
    entered at any value of [unlimitedLoopCheck]. *)
Definition GetNextFrom (fuel : nat) (chk : Z) : M (@St C) DataEdit :=
  rep <- CueUpLoop fuel false chk ;;
  f0 <- getControl ;;
  edit <- readDataEdit ;;
  chargeRepeat rep (offset_ f0) 1 edit.

(** The outcome of the scan is the outcome of the format list. *)
Definition NextSim (mh : nat) (all : list item)
    (r : outcome (DataEdit * absState)) (m : outcome (DataEdit * @St C)) : Prop :=
  match r with
  | Ok (e, (a', scale', c')) =>
      exists f' cur' zs',
        m = Ok (e, (f', c')) /\
        Rep mh all f' cur' zs' /\ acts all cur' zs' = a' /\ scale_ f' = scale'
  | Crash msg => m = Crash msg
  | OutOfFuel => m = OutOfFuel
  end.

(** The same for a walk over several data items. *)
Definition WalkSim (mh : nat) (all : list item)
    (r : outcome (list DataEdit * absState))
    (m : outcome (list DataEdit * @St C)) : Prop :=
  match r with
  | Ok (es, (a', scale', c')) =>
      exists f' cur' zs',
        m = Ok (es, (f', c')) /\
        Rep mh all f' cur' zs' /\ acts all cur' zs' = a' /\ scale_ f' = scale'
  | Crash msg => m = Crash msg
  | OutOfFuel => m = OutOfFuel
  end.

(** An outcome with the pauses removed from the actions left. *)
Definition eraseOutcome {A} (r : outcome (A * @absState C))
  : outcome (A * @absState C) :=
  match r with
  | Ok (x, (cur, scale, c)) => Ok (x, (erase cur, scale, c))
  | Crash msg => Crash msg
  | OutOfFuel => OutOfFuel
  end.

(** The data edit descriptors a walk handed out. *)
Definition handedOut (r : outcome (list DataEdit * @St C))
  : outcome (list DataEdit) :=
  match r with
  | Ok (es, _) => Ok es
  | Crash msg => Crash msg
  | OutOfFuel => OutOfFuel
  end.

(** A [FormatControl] built on [format] with room for [maxHeight] frames
    and driven for [k] data items. *)
Definition walkFormat (maxHeight : Z) (fuel k : nat) (format : list Z) (c : C)
  : outcome (list DataEdit) :=
  match newFormatControl format (Z.of_nat (length format)) maxHeight with
  | Ok f => handedOut (walk fuel k (f, c))
  | Crash msg => Crash msg
  | OutOfFuel => OutOfFuel
  end.

End Outcomes.

Section ItemInduction.
Variable P : item -> Prop.
Hypothesis HData : forall c a v w d e, P (IData c a v w d e).
Hypothesis HCtl : forall c a, P (ICtl c a).
Hypothesis HSlash : forall c, P (ISlash c).
Hypothesis HLit : forall q body, P (ILit q body).
Hypothesis HHol : forall c payload, P (IHol c payload).
Hypothesis HGroup : forall c body, Forall P body -> P (IGroup c body).

(** Induction on items, through the bodies of groups. *)
Fixpoint item_nested_ind (x : item) : P x :=
  match x with
  | IData c a v w d e => HData c a v w d e
  | ICtl c a => HCtl c a
  | ISlash c => HSlash c
  | ILit q body => HLit q body
  | IHol c payload => HHol c payload
  | IGroup c body =>
      HGroup c body
        ((fix go (l : list item) : Forall P l :=
            match l with
            | [] => Forall_nil P
            | y :: l' => Forall_cons y (item_nested_ind y) (go l')
            end) body)
  end.
End ItemInduction.

(** [inner] inside [n] pairs of parentheses. *)
Definition nested (n : nat) (inner : list Z) : list Z :=
  List.repeat ch_lparen n ++ inner ++ List.repeat ch_rparen n.

(** * Further definitions

    What the properties of the sink, of the integer fields, of the
    conversion and of the bounds of the scan are stated with. *)

(** ** Text laid over a buffer *)

(** [d] laid over [buf] from position [p], cut at the end of [buf]. *)
Definition overlay (buf : list Z) (p : nat) (d : list Z) : list Z :=
  firstn p buf ++ firstn (length buf - p) d ++ skipn (p + length d) buf.

(** ** Digits and their value *)

(** The value of a digit character, [0-9] and [A-F]. *)
Definition digitValue (ch : Z) : Z :=
  if ch_A <=? ch then ch - ch_A + 10 else ch - ch_0.

Definition isHexDigit (ch : Z) : bool :=
  isDigit ch || ((ch_A <=? ch) && (ch <=? ch_F)).

(** The number a string of digits denotes in a radix, most significant
    digit first. *)
Definition valueFromIn (radix : Z) (r : Z) (p : list Z) : Z :=
  fold_left (fun r d => radix * r + digitValue d) p r.
Definition valueIn (radix : Z) (p : list Z) : Z := valueFromIn radix 0 p.

(** The radix of an integer data edit descriptor. *)
Definition radixOf (descr : Z) : Z :=
  if descr =? ch_B then 2
  else if descr =? ch_O then 8
  else if descr =? ch_Z then 16
  else 10.

(** The sign [OutputInteger64] writes: only under [I] and [G], a minus
    for a negative value, a plus under [SP]. *)
Definition signText (edit : DataEdit) (n : Z) : list Z :=
  if ((descriptor edit =? ch_G) || (descriptor edit =? ch_I)) &&
     ((n <? 0) || negb (Z.land (editingFlags (modes edit)) signPlus =? 0))
  then [if n <? 0 then ch_minus else ch_plus]
  else [].

(** ** Sample states *)

(** A statement over a buffer of eight blanks, and a [FormatControl]
    inside the outer parentheses of [format] with the cursor at [o]. *)
Definition blank8 : Statement :=
  mkStatement (List.repeat ch_space 8) 8 0 defaultModes false.
Definition controlAt (format : string) (o : Z) : FormatControl :=
  mkControl 0 100 [mkIteration 0 unlimited] (chars format) o
    (Z.of_nat (length (chars format))).

(** ** Bounds of the cursor and of the stack *)

(** The cursor has only moved forward, not beyond the end of the
    FORMAT. *)
Definition Fwd (f f' : FormatControl) : Prop :=
  format_ f' = format_ f /\ formatLength_ f' = formatLength_ f /\
  maxHeight_ f' = maxHeight_ f /\ stack_ f' = stack_ f /\
  offset_ f <= offset_ f' <= Z.max (offset_ f) (formatLength_ f).

(** The same FORMAT and the same capacity. *)
Definition sameFormat (f f' : FormatControl) : Prop :=
  format_ f' = format_ f /\ formatLength_ f' = formatLength_ f /\
  maxHeight_ f' = maxHeight_ f.

(** The cursor is inside the FORMAT or at its end, and every frame
    starts at a character of the FORMAT. *)
Definition inBounds (f : FormatControl) : Prop :=
  0 <= offset_ f <= formatLength_ f /\
  Forall (fun it => 0 <= start it < formatLength_ f) (stack_ f).

(** * Token sequences

    [TokenSequence] of token-sequence.h: a buffer of characters cut into
    tokens.  [start_] holds the offset in [char_] where each closed
    token begins, [nextStart_] the offset where the token being put
    begins.  Offsets are [std::size_t] values; the provenance mappings
    are kept as they are handed to [provenances_.Put]. *)
Module Tokens.
Section Tokens.
Variable Provenance : Type.
Variable OffsetToProvenanceMappings : Type.
(** [OffsetToProvenanceMappings::Put] of a range: a start and a size. *)
Variable PutRange : Provenance * Z -> OffsetToProvenanceMappings ->
                    OffsetToProvenanceMappings.

Record TokenSequence : Type := mkTokenSequence {
  start_ : list Z;
  nextStart_ : Z;
  char_ : list Z;
  provenances_ : OffsetToProvenanceMappings
}.

(** A [CharBlock] is a pointer and a size; the pointer is kept as an
    offset in [char_]. *)
Record CharBlock : Type := mkCharBlock { begin_ : Z; size_ : Z }.

(** The characters a block of [t] points at. *)
Definition blockChars (t : TokenSequence) (b : CharBlock) : list Z :=
  firstn (Z.to_nat (size_ b)) (skipn (Z.to_nat (begin_ b)) (char_ t)).

Definition empty (t : TokenSequence) : bool :=
  match start_ t with [] => true | _ => false end.

Definition SizeInTokens (t : TokenSequence) : Z := Z.of_nat (length (start_ t)).
Definition SizeInChars (t : TokenSequence) : Z := Z.of_nat (length (char_ t)).

(** [TokenBytes]: the distance from the start of the token to the start
    of the next one, or to the end of [char_] for the last token; an
    unsigned subtraction.  [None] stands for an index outside [start_],
    which [operator[]] does not check. *)
Definition TokenBytes (t : TokenSequence) (token : nat) : option Z :=
  match nth_error (start_ t) token with
  | None => None
  | Some s =>
      if Z.of_nat token + 1 >=? SizeInTokens t then
        Some (wrap_u64 (SizeInChars t - s))
      else
        match nth_error (start_ t) (token + 1) with
        | Some e => Some (wrap_u64 (e - s))
        | None => None
        end
  end.

(** [TokenAt]: [None] stands for the [std::out_of_range] that
    [start_.at(token)] throws. *)
Definition TokenAt (t : TokenSequence) (token : nat) : option CharBlock :=
  match nth_error (start_ t) token with
  | None => None
  | Some s =>
      match TokenBytes t token with
      | Some n => Some (mkCharBlock s n)
      | None => None
      end
  end.

(** [CharAt]: [None] stands for the [std::out_of_range] of [char_.at(j)]. *)
Definition CharAt (t : TokenSequence) (j : nat) : option Z :=
  nth_error (char_ t) j.

Definition PutNextTokenChar (ch : Z) (provenance : Provenance)
    (t : TokenSequence) : TokenSequence :=
  mkTokenSequence (start_ t) (nextStart_ t) (char_ t ++ [ch])
    (PutRange (provenance, 1) (provenances_ t)).

Definition CloseToken (t : TokenSequence) : TokenSequence :=
  mkTokenSequence (start_ t ++ [nextStart_ t]) (SizeInChars t) (char_ t)
    (provenances_ t).

(** [ReopenLastToken]: [None] stands for [back()] and [pop_back()] of an
    empty vector, which are undefined. *)
Definition ReopenLastToken (t : TokenSequence) : option TokenSequence :=
  match start_ t with
  | [] => None
  | _ => Some (mkTokenSequence (removelast (start_ t)) (last (start_ t) 0)
                 (char_ t) (provenances_ t))
  end.

(** The characters of a token. *)
Definition tokenChars (t : TokenSequence) (token : nat) : option (list Z) :=
  option_map (blockChars t) (TokenAt t token).

(** Several characters put one after the other, each with its
    provenance. *)
Fixpoint putChars (cs : list (Z * Provenance)) (t : TokenSequence)
  : TokenSequence :=
  match cs with
  | [] => t
  | (ch, p) :: cs' => putChars cs' (PutNextTokenChar ch p t)
  end.

(** The characters of all the tokens, in order. *)
Definition allTokens (t : TokenSequence) : list (option (list Z)) :=
  map (tokenChars t) (seq 0 (length (start_ t))).

(** [TokenSequence()]: no token, no character; [provenances] stands for
    the mappings as their own constructor leaves them. *)
Definition newTokenSequence (provenances : OffsetToProvenanceMappings)
  : TokenSequence :=
  mkTokenSequence [] 0 [] provenances.

(** The starts of the tokens, with the start of the one being put, go
    up from 0 and stay inside [char_]. *)
Definition ordered (t : TokenSequence) : Prop :=
  StronglySorted Z.le (start_ t ++ [nextStart_ t]) /\
  hd 0 (start_ t ++ [nextStart_ t]) = 0 /\
  nextStart_ t <= SizeInChars t.

End Tokens.

Arguments mkTokenSequence {OffsetToProvenanceMappings}.
Arguments start_ {OffsetToProvenanceMappings}.
Arguments nextStart_ {OffsetToProvenanceMappings}.
Arguments char_ {OffsetToProvenanceMappings}.
Arguments provenances_ {OffsetToProvenanceMappings}.
Arguments blockChars {OffsetToProvenanceMappings}.
Arguments empty {OffsetToProvenanceMappings}.
Arguments SizeInTokens {OffsetToProvenanceMappings}.
Arguments SizeInChars {OffsetToProvenanceMappings}.
Arguments TokenBytes {OffsetToProvenanceMappings}.
Arguments TokenAt {OffsetToProvenanceMappings}.
Arguments CharAt {OffsetToProvenanceMappings}.
Arguments PutNextTokenChar {Provenance OffsetToProvenanceMappings}.
Arguments CloseToken {OffsetToProvenanceMappings}.
Arguments ReopenLastToken {OffsetToProvenanceMappings}.
Arguments tokenChars {OffsetToProvenanceMappings}.
Arguments putChars {Provenance OffsetToProvenanceMappings}.
Arguments ordered {OffsetToProvenanceMappings}.
Arguments allTokens {OffsetToProvenanceMappings}.
Arguments newTokenSequence {OffsetToProvenanceMappings}.
End Tokens.

(** * Properties *)

(** ** The digit loops exit by their own condition

    64 trips are enough for any value below [2^64]: a further trip finds
    the value exhausted. *)

Lemma digitLoop_done next digit fuel p : digitLoop next digit fuel 0 p = p.
Proof. destruct fuel; reflexivity. Qed.

Lemma digitLoop_fuel next digit :
  (forall u, 0 <= u -> 0 <= next u <= u / 2) ->
  forall fuel un p extra,
    0 <= un < 2 ^ Z.of_nat fuel ->
    digitLoop next digit (fuel + extra) un p = digitLoop next digit fuel un p.
Proof.
  intros Hnext. induction fuel as [|fuel IH]; intros un p extra Hun.
  - change (2 ^ Z.of_nat 0) with 1 in Hun.
    assert (un = 0) by lia. subst un.
    now rewrite !digitLoop_done.
  - cbn [Nat.add digitLoop]. destruct (un >? 0) eqn:Hpos; [|reflexivity].
    apply IH. specialize (Hnext un ltac:(lia)).
    rewrite Nat2Z.inj_succ, Z.pow_succ_r in Hun by lia.
    split; [lia|].
    apply Z.le_lt_trans with (un / 2); [lia|].
    apply Z.div_lt_upper_bound; lia.
Qed.

(** ** Concrete runs *)

Open Scope string_scope.

(** C1 (the code at the failing input): under [(I5)] the item [-42] has
    two characters of padding to emit; after them [OutputInteger64]
    returns [false] at once, so neither the sign nor the digits reach the
    buffer, which stays blank with its cursor after the padding. *)
Theorem OutputInteger64_I5_stops_after_padding :
  observed (formattedOutput 100 8 32 "(I5)" [-42])
  = Ok ([false], 0, "                                ", 2, false).
Proof. vm_compute. reflexivity. Qed.

(** C3 (the code at the failing input): under [(I5.3)] the item [7] makes
    [OutputInteger64] return [false] although no emission was rejected:
    the two blanks it emitted fit the 32-character buffer and no end of
    record was signalled. *)
Theorem OutputInteger64_false_without_rejection :
  observed (formattedOutput 100 8 32 "(I5.3)" [7])
  = Ok ([false], 0, "                                ", 2, false).
Proof. vm_compute. reflexivity. Qed.

(** C4 (the code at the failing inputs): the second letter of a two-letter
    control edit descriptor is left under the cursor.  After [SP] the [P]
    is scanned again as a scale factor [1P], and the item [12] under
    [(SP,I4)] leaves only a blank in the buffer; after [BZ] the [Z], at
    offset 2, is what [CueUpNextDataEdit] returns as the data edit
    descriptor, and the run crashes on its missing width; [TL2] crashes
    before it is dispatched, in the [GetIntField] that finds the [L]. *)
Theorem two_letter_control_edits_rescanned :
  observed (formattedOutput 100 8 32 "(SP,I4)" [12])
    = Ok ([false], 0, "                                ", 1, false) /\
  observedModes (formattedOutput 100 8 32 "(SP,I4)" [12])
    = Ok (1, signPlus) /\
  cuedUp 100 8 "(BZ,I3)" = Ok (1, 2, ch_Z) /\
  formattedOutput 100 8 32 "(BZ,I3)" [5]
    = Crash "Invalid FORMAT: integer expected at '%c'" /\
  formattedOutput 100 8 32 "(TL2,I3)" [5]
    = Crash "Invalid FORMAT: integer expected at '%c'".
Proof. repeat split; vm_compute; reflexivity. Qed.

(** C2: the test of the I/O API.  Over a 32-character buffer, the format
    [(12HHELLO, WORLD,2X,I3,1X,'0x',Z8)] with the items 678 and
    0xFEEDFACE leaves "HELLO, WORLD  678 0xFEEDFACE" followed by blanks,
    both conversions succeed and [EndIoStatement] returns 0, for every
    stack capacity the constructor accepts and every fuel of at least the
    four trips the longest scan takes. *)
Theorem format1_hello_world (maxMaxHeight : Z) (extra : nat) :
  1 <= maxMaxHeight <= 127 ->
  observed (formattedOutput maxMaxHeight (4 + extra) 32
              "(12HHELLO, WORLD,2X,I3,1X,'0x',Z8)" [678; 4277009102])
  = Ok ([true; true], 0, "HELLO, WORLD  678 0xFEEDFACE    ", 28, false).
Proof.
  intros Hmax.
  unfold formattedOutput, BeginInternalFormattedOutput, newStatement,
    newFormatControl.
  destruct (Z.gtb_spec maxMaxHeight 127) as [Hgt|_]; [lia|].
  destruct maxMaxHeight as [|p|p]; try lia.
  vm_compute. reflexivity.
Qed.

Lemma format1_hello_world_witness :
  1 <= 100 <= 127 /\
  observed (formattedOutput 100 (4 + 0) 32
              "(12HHELLO, WORLD,2X,I3,1X,'0x',Z8)" [678; 4277009102])
  = Ok ([true; true], 0, "HELLO, WORLD  678 0xFEEDFACE    ", 28, false).
Proof.
  split; [lia|]. apply (format1_hello_world 100 0). lia.
Defined.

(** C10: for the most negative 64-bit integer the magnitude is taken by
    two's-complement wrap-around and is [2^63] as an unsigned value, so
    every integer descriptor converts the digits of [2^63]: 19 decimal
    digits under [I] and [G], [8000000000000000] under [Z], and the
    fields written under [(I20)] and [(Z16)] are complete. *)
Theorem magnitude_of_INT64_MIN :
  magnitude INT64_MIN = 2 ^ 63 /\
  option_map text (convertDigits ch_I (magnitude INT64_MIN))
    = Some "9223372036854775808" /\
  option_map text (convertDigits ch_G (magnitude INT64_MIN))
    = Some "9223372036854775808" /\
  option_map text (convertDigits ch_Z (magnitude INT64_MIN))
    = Some "8000000000000000" /\
  option_map text (convertDigits ch_O (magnitude INT64_MIN))
    = Some "1000000000000000000000" /\
  option_map text (convertDigits ch_B (magnitude INT64_MIN))
    = Some "1000000000000000000000000000000000000000000000000000000000000000" /\
  observed (formattedOutput 100 8 32 "(I20)" [INT64_MIN])
    = Ok ([true], 0, "-9223372036854775808            ", 20, false) /\
  observed (formattedOutput 100 8 32 "(Z16)" [INT64_MIN])
    = Ok ([true], 0, "8000000000000000                ", 16, false).
Proof. repeat split; vm_compute; reflexivity. Qed.

(** ** The sink of the internal statement *)

Close Scope string_scope.

Lemma wrap_u64_small x : 0 <= x < 2 ^ 64 -> wrap_u64 x = x.
Proof. intros H. unfold wrap_u64. now apply Z.mod_small. Qed.

Lemma memcpy_length buf pos n data :
  0 <= pos -> 0 <= n <= Z.of_nat (length data) ->
  pos + n <= Z.of_nat (length buf) ->
  length (memcpy buf pos n data) = length buf.
Proof.
  intros Hpos Hn Hfit. unfold memcpy.
  rewrite !length_app, !length_firstn, length_skipn. lia.
Qed.

Lemma memcpy_nothing buf pos :
  0 <= pos -> memcpy buf pos 0 [] = buf.
Proof.
  intros Hpos. unfold memcpy. rewrite Z.add_0_r. cbn [firstn Z.to_nat app].
  apply firstn_skipn.
Qed.

Lemma firstn_app_exact {A} (l r : list A) : firstn (length l) (l ++ r) = l.
Proof. now rewrite firstn_app, firstn_all, Nat.sub_diag, app_nil_r. Qed.

Lemma skipn_app_exact {A} (l r : list A) (n : nat) :
  skipn (length l + n) (l ++ r) = skipn n r.
Proof.
  rewrite Nat.add_comm, <- skipn_skipn, skipn_app, skipn_all, Nat.sub_diag.
  reflexivity.
Qed.

(** Two adjacent copies are one copy of the concatenation. *)
Lemma memcpy_adjacent buf pos d1 d2 :
  0 <= pos ->
  pos + Z.of_nat (length d1) <= Z.of_nat (length buf) ->
  memcpy (memcpy buf pos (Z.of_nat (length d1)) d1)
         (pos + Z.of_nat (length d1)) (Z.of_nat (length d2)) d2
  = memcpy buf pos (Z.of_nat (length (d1 ++ d2))) (d1 ++ d2).
Proof.
  intros Hpos Hfit. unfold memcpy.
  rewrite !Nat2Z.id. repeat rewrite firstn_all.
  set (P := firstn (Z.to_nat pos) buf).
  assert (Hl : length (P ++ d1) = Z.to_nat (pos + Z.of_nat (length d1))).
  { unfold P. rewrite length_app, length_firstn. lia. }
  rewrite <- Hl.
  replace (Z.to_nat (pos + Z.of_nat (length d1) + Z.of_nat (length d2)))
    with (length (P ++ d1) + length d2)%nat by lia.
  rewrite (app_assoc P d1), firstn_app_exact, skipn_app_exact, skipn_skipn.
  rewrite <- !app_assoc. do 3 f_equal.
  rewrite Hl, length_app. f_equal. lia.
Qed.

Lemma Emit_fits data s :
  wfStatement s ->
  at_ s + Z.of_nat (length data) <= internalLength_ s ->
  Internal.Emit data s
  = (true, set_buffer (memcpy (internal_ s) (at_ s) (Z.of_nat (length data)) data)
             (at_ s + Z.of_nat (length data)) s).
Proof.
  intros (Hlen & Hat & Hsz) Hfit. unfold Internal.Emit.
  rewrite wrap_u64_small by lia.
  destruct (Z.gtb_spec (at_ s + Z.of_nat (length data)) (internalLength_ s));
    [lia|reflexivity].
Qed.

Lemma Emit_fits_wf data s :
  wfStatement s ->
  at_ s + Z.of_nat (length data) <= internalLength_ s ->
  wfStatement (snd (Internal.Emit data s)).
Proof.
  intros Hwf Hfit. rewrite Emit_fits by assumption.
  destruct Hwf as (Hlen & Hat & Hsz). unfold wfStatement; cbn.
  rewrite memcpy_length by lia. lia.
Qed.

(** [k] single characters emitted where they fit land side by side. *)
Lemma emitRepeated_fits (k : nat) (ch : Z) (c : Cookie) :
  wfStatement (snd c) ->
  at_ (snd c) + Z.of_nat k <= internalLength_ (snd c) ->
  emitRepeated k ch c
  = Ok (true,
        (fst c,
         set_buffer (memcpy (internal_ (snd c)) (at_ (snd c)) (Z.of_nat k)
                       (List.repeat ch k))
           (at_ (snd c) + Z.of_nat k) (snd c))).
Proof.
  revert c. induction k as [|k IH]; intros [f s] Hwf Hfit; cbn [fst snd] in *.
  - cbn [emitRepeated ret List.repeat Z.of_nat].
    rewrite memcpy_nothing by (destruct Hwf; lia).
    rewrite Z.add_0_r. destruct s; reflexivity.
  - cbn [emitRepeated]. unfold bind at 1. cbn [io_Emit Cookie_IoStatementState fst snd].
    assert (Hone : at_ s + Z.of_nat (length [ch]) <= internalLength_ s)
      by (cbn [length]; lia).
    pose proof (Emit_fits_wf [ch] s Hwf Hone) as Hwf'.
    rewrite (Emit_fits [ch] s Hwf Hone) in *. cbn [fst snd] in *.
    rewrite IH; cbn [fst snd set_buffer at_ internal_ internalLength_ modes_ eor_];
      [|assumption|cbn [length]; lia].
    destruct Hwf as (Hlen & Hat & Hsz).
    replace (Z.of_nat k) with (Z.of_nat (length (List.repeat ch k)))
      by (now rewrite repeat_length).
    rewrite memcpy_adjacent by (change (length [ch]) with 1%nat; lia).
    change ([ch] ++ List.repeat ch k) with (List.repeat ch (S k)).
    rewrite !repeat_length. change (length [ch]) with 1%nat.
    unfold set_buffer; cbn [internalLength_ modes_ eor_].
    replace (at_ s + Z.of_nat 1 + Z.of_nat k) with (at_ s + Z.of_nat (S k))
      by lia.
    reflexivity.
Qed.

(** ** The blank field of [Iw.0] with a zero value *)

(** Whatever the sink, the conversion of 0 under [Iw.0] is [max(1, w)]
    single blanks and nothing else; the sign flag of the edit is not
    consulted. *)
Lemma EditInteger64_Iw0_zero {S : Type} {io : IoStatementState S}
    (edit : DataEdit) (s : S) :
  descriptor edit = ch_I -> digits edit = Some 0 ->
  EditInteger64 edit 0 s
  = (emitRepeated (Z.to_nat (Z.max 1 (width edit))) ch_space ;;; ret false) s.
Proof.
  intros Hd Hm. unfold EditInteger64. rewrite Hd, Hm.
  change (convertDigits ch_I (magnitude 0)) with (Some (@nil Z)).
  cbn [length Z.of_nat Z.leb Z.eqb Z.compare andb Z.add].
  assert (Hw : 1 <= Z.max 1 (width edit)) by lia.
  destruct (Z.gtb_spec (Z.max 1 (width edit)) 0) as [_|]; [|lia].
  destruct (Z.gtb_spec 0 (Z.max 1 (width edit))) as [|_]; [lia|].
  destruct (Z.ltb_spec 0 (Z.max 1 (width edit))) as [_|]; [|lia].
  cbn [andb]. now rewrite Z.sub_0_r.
Qed.

(** C7: under an [Iw.0] edit the value 0 is written as [max(1, w)]
    blanks, whatever the sign mode of the edit: in a statement whose
    buffer has room for them, [EditInteger64] copies exactly that many
    blanks at the cursor, advances the cursor past them and emits nothing
    else.  Under [I0.0] that is one blank. *)
Theorem Iw0_zero_field_is_blank (edit : DataEdit) (c : Cookie) :
  descriptor edit = ch_I ->
  digits edit = Some 0 ->
  wfStatement (snd c) ->
  at_ (snd c) + Z.max 1 (width edit) <= internalLength_ (snd c) ->
  exists ok,
    EditInteger64 edit 0 c
    = Ok (ok,
          (fst c,
           set_buffer
             (memcpy (internal_ (snd c)) (at_ (snd c)) (Z.max 1 (width edit))
                (List.repeat ch_space (Z.to_nat (Z.max 1 (width edit)))))
             (at_ (snd c) + Z.max 1 (width edit)) (snd c))).
Proof.
  intros Hd Hm Hwf Hroom. exists false.
  rewrite EditInteger64_Iw0_zero by assumption.
  unfold bind. rewrite emitRepeated_fits by (try assumption; lia).
  rewrite Z2Nat.id by lia. reflexivity.
Qed.

Lemma Iw0_zero_field_is_blank_witness :
  let edit := mkEdit ch_I ch_nul 0 (Some 0) None (mkModes signPlus TiesToEven) 1 in
  let c : Cookie :=
    (mkControl 0 100 [mkIteration 0 unlimited] (chars "(SP,I0.0)") 8 9,
     mkStatement (chars "abcd") 4 1 (mkModes signPlus TiesToEven) false) in
  exists ok,
    EditInteger64 edit 0 c
    = Ok (ok, (fst c, mkStatement (chars "a cd") 4 2
                        (mkModes signPlus TiesToEven) false)).
Proof.
  intros edit c.
  apply (Iw0_zero_field_is_blank edit c); try reflexivity.
  - unfold wfStatement; cbn; lia.
  - cbn; lia.
Defined.

(** The edit [(I0.0)] as [GetNext] delivers it, and the run of the whole
    statement: one blank is emitted and the cursor ends at 1. *)
Example I0_0_single_blank :
  observed (formattedOutput 100 8 32 "(I0.0)" [0])
    = Ok ([false], 0, "                                "%string, 1, false) /\
  observed (formattedOutput 100 8 32 "(SP,I0.0)" [0])
    = Ok ([false], 0, "                                "%string, 1, false).
Proof. split; vm_compute; reflexivity. Qed.

(** ** [Emit] at the end of the record *)

(** C9: [Emit] on a statement whose buffer cannot take all of [data]
    signals the end of record, copies the [internalLength - at] characters
    that fit, leaves the cursor at [internalLength] and returns [false],
    after which the status of the statement is not 0; when [data] fits, it
    is copied whole at the cursor, the cursor advances by its length and
    [Emit] returns [true]. *)
Theorem Emit_end_of_record (data : list Z) (s : Statement) :
  wfStatement s ->
  Z.of_nat (length data) < 2 ^ 63 ->
  let chars := Z.of_nat (length data) in
  let r := Internal.Emit data s in
  (at_ s + chars > internalLength_ s ->
     fst r = false /\
     eor_ (snd r) = true /\ GetIoStat (snd r) <> 0 /\
     internal_ (snd r)
       = firstn (Z.to_nat (at_ s)) (internal_ s)
         ++ firstn (Z.to_nat (internalLength_ s - at_ s)) data /\
     at_ (snd r) = internalLength_ s /\
     internalLength_ (snd r) = internalLength_ s) /\
  (at_ s + chars <= internalLength_ s ->
     fst r = true /\
     eor_ (snd r) = eor_ s /\
     internal_ (snd r)
       = firstn (Z.to_nat (at_ s)) (internal_ s) ++ data
         ++ skipn (Z.to_nat (at_ s + chars)) (internal_ s) /\
     at_ (snd r) = at_ s + chars /\
     internalLength_ (snd r) = internalLength_ s).
Proof.
  intros Hwf Hdata chars r. pose proof Hwf as (Hlen & Hat & Hsz).
  split; intros Hcmp.
  - subst r. unfold Internal.Emit. fold chars.
    rewrite wrap_u64_small by lia.
    destruct (Z.gtb_spec (at_ s + chars) (internalLength_ s)) as [_|]; [|lia].
    cbn [fst snd SignalEor at_ internalLength_ internal_].
    destruct (Z.ltb_spec (at_ s) (internalLength_ s)) as [Hlt|Hge].
    + cbn. repeat split; try discriminate.
      unfold memcpy.
      replace (at_ s + (internalLength_ s - at_ s)) with (internalLength_ s) by lia.
      rewrite Hlen, Nat2Z.id, skipn_all, app_nil_r. reflexivity.
    + cbn. repeat split; try discriminate; try lia.
      replace (internalLength_ s - at_ s) with 0 by lia. cbn [Z.to_nat firstn].
      rewrite app_nil_r.
      replace (Z.to_nat (at_ s)) with (length (internal_ s)) by lia.
      now rewrite firstn_all.
  - subst r. rewrite Emit_fits by (try assumption; lia). fold chars.
    cbn. repeat split. unfold memcpy. subst chars.
    now rewrite Nat2Z.id, firstn_all.
Qed.

Lemma Emit_end_of_record_witness :
  let s := mkStatement (chars "ab") 2 0 defaultModes false in
  let r := Internal.Emit (chars "678") s in
  (fst r = false /\ eor_ (snd r) = true /\ GetIoStat (snd r) <> 0 /\
   internal_ (snd r) = chars "67" /\ at_ (snd r) = 2 /\
   internalLength_ (snd r) = 2).
Proof.
  intros s r.
  destruct (Emit_end_of_record (chars "678") s) as [Hover _].
  - unfold wfStatement; cbn; lia.
  - cbn; lia.
  - apply Hover. cbn; lia.
Defined.

(** The caller's view of an overflowing statement: under [(I3)] the item
    678 does not fit a 2-character buffer; the buffer keeps "67" and
    [EndIoStatement] returns the end-of-record status. *)
Example end_of_record_status :
  observed (formattedOutput 100 8 2 "(I3)" [678])
    = Ok ([false], IostatEor, "67"%string, 2, true).
Proof. vm_compute. reflexivity. Qed.

(** ** An unlimited group without data edits *)

(** Inside the unlimited group [*(1X)]: the trip at offset 3 handles [1X] and
    the trip at offset 5 closes the group and returns to offset 3, since
    the sentinel, the offset 2 of the parenthesis, is not the offset 3
    the cursor returns to. *)
Lemma unlimited1X_trip_3 stop (s : Statement) :
  CueUpTrip stop 2 (unlimited1X 3, s)
  = Ok (Continue 2, (unlimited1X 5, snd (Internal.HandleRelativePosition 1 s))).
Proof. reflexivity. Qed.

Lemma unlimited1X_trip_5 stop (s : Statement) :
  CueUpTrip stop 2 (unlimited1X 5, s) = Ok (Continue 2, (unlimited1X 3, s)).
Proof. destruct s; reflexivity. Qed.

Lemma unlimited1X_laps (fuel : nat) :
  forall stop (s : Statement),
    CueUpLoop fuel stop 2 (unlimited1X 3, s) = OutOfFuel /\
    CueUpLoop fuel stop 2 (unlimited1X 5, s) = OutOfFuel.
Proof.
  induction fuel as [|fuel IH]; intros stop s; [split; reflexivity|].
  split; cbn [CueUpLoop]; unfold bind.
  - rewrite unlimited1X_trip_3. apply IH.
  - rewrite unlimited1X_trip_5. apply IH.
Qed.

Lemma unlimited1X_from_start (fuel : nat) stop (s : Statement) :
  CueUpNextDataEdit fuel stop
    (mkControl 0 100 [] format_unlimited1X 0 7, s) = OutOfFuel.
Proof.
  unfold CueUpNextDataEdit.
  destruct fuel as [|[|fuel]]; try reflexivity.
  change (CueUpLoop (S (S fuel)) stop (-1)
            (mkControl 0 100 [] format_unlimited1X 0 7, s))
    with (CueUpLoop fuel stop 2 (unlimited1X 3, s)).
  apply unlimited1X_laps.
Qed.

(** C5 (the code at the failing input): on the FORMAT made of the
    unlimited group [*(1X)], which holds no data edit descriptor, neither [OutputInteger64]
    nor [EndIoStatement] crashes or returns, whatever the fuel: the scan
    laps the group for ever. *)
Theorem unlimited_group_without_data_edit_laps_for_ever (fuel : nat) (n : Z) :
  exists cookie,
    BeginInternalFormattedOutput 100 32 format_unlimited1X 7 = Ok cookie /\
    OutputInteger64 fuel n cookie = OutOfFuel /\
    EndIoStatement fuel cookie = OutOfFuel.
Proof.
  eexists. split; [reflexivity|].
  split.
  - unfold OutputInteger64, bind at 1. cbn [io_GetNext Cookie_IoStatementState].
    unfold GetNext, bind at 1. now rewrite unlimited1X_from_start.
  - unfold EndIoStatement, bind at 1, FinishOutput, bind at 1.
    now rewrite unlimited1X_from_start.
Qed.

(** * A group and its repetition

    The scan of a FORMAT follows the format list it is the text of. *)

(* ---------- lemmas ---------- *)

Section Cursor.
Context {C : Type} {ctx : FormatContext C}.

Lemma At_remaining f pre rest : At f pre rest -> remainingChars f = length rest.
Proof.
  intros (Hf & Ho & Hl). unfold remainingChars. rewrite Hl, Ho, length_app. lia.
Qed.

Lemma At_charAt f pre rest i :
  At f pre rest -> charAt f (offset_ f + Z.of_nat i) = nth i rest ch_nul.
Proof.
  intros (Hf & Ho & Hl). unfold charAt. rewrite Hf, Ho.
  replace (Z.to_nat (Z.of_nat (length pre) + Z.of_nat i)) with (length pre + i)%nat by lia.
  now rewrite app_nth2_plus.
Qed.

Lemma At_PeekNext f pre rest : At f pre rest -> PeekNext f = hd ch_nul rest.
Proof.
  intros H. pose proof (At_charAt f pre rest 0 H) as Hc.
  rewrite Z.add_0_r in Hc. destruct H as (Hf & Ho & Hl).
  unfold PeekNext. rewrite Hc, Hl, Ho, length_app.
  destruct rest as [|x rest]; cbn [length hd nth].
  - destruct (Z.ltb_spec (Z.of_nat (length pre)) (Z.of_nat (length pre + 0))); [lia|reflexivity].
  - destruct (Z.ltb_spec (Z.of_nat (length pre)) (Z.of_nat (length pre + S (length rest)))); [reflexivity|lia].
Qed.

Lemma At_advance f pre a rest :
  At f pre (a ++ rest) -> At (advance (length a) f) (pre ++ a) rest.
Proof.
  intros (Hf & Ho & Hl). unfold At, advance. cbn.
  rewrite <- !app_assoc, Hf, Ho, Hl. repeat split.
  rewrite !length_app. lia.
Qed.

Lemma At_advance1 f pre x rest :
  At f pre (x :: rest) -> At (set_offset (offset_ f + 1) f) (pre ++ [x]) rest.
Proof. intros H. apply (At_advance f pre [x] rest H). Qed.

Lemma advance_advance a b f : advance a (advance b f) = advance (b + a) f.
Proof. unfold advance, set_offset; cbn. f_equal. lia. Qed.

Lemma advance_1 f : set_offset (offset_ f + 1) f = advance 1 f.
Proof. reflexivity. Qed.

Lemma At_GetNextChar f pre x rest (c : C) :
  At f pre (x :: rest) ->
  GetNextChar (f, c) = Ok (x, (advance 1 f, c)).
Proof.
  intros H. pose proof (At_charAt f pre _ 0 H) as Hc. rewrite Z.add_0_r in Hc.
  destruct H as (Hf & Ho & Hl). unfold GetNextChar, advance. cbn [fst snd].
  rewrite Hc. cbn [nth].
  destruct (Z.leb_spec (formatLength_ f) (offset_ f)); [|reflexivity].
  rewrite Hl, Ho, length_app in *. cbn [length] in *. lia.
Qed.

Lemma At_GetNextChar_end f pre (c : C) :
  At f pre [] -> GetNextChar (f, c) = Crash "FORMAT missing at least one ')'".
Proof.
  intros (Hf & Ho & Hl). unfold GetNextChar. cbn [fst snd].
  destruct (Z.leb_spec (formatLength_ f) (offset_ f)); [reflexivity|].
  rewrite Hl, Ho, app_nil_r in *. lia.
Qed.

Lemma advance_0 f : advance 0 f = f.
Proof. unfold advance, set_offset. destruct f; cbn. f_equal. lia. Qed.

(** The digit loop of [GetIntField] over a run of digits. *)
Lemma GetIntField_loop_digits ds :
  forall r f pre rest,
    At f pre (ds ++ rest) ->
    digitsFitFrom r ds = true ->
    endsNumber rest = true ->
    GetIntField_loop (remainingChars f) r f
    = Ok (digitsValueFrom r ds, advance (length ds) f).
Proof.
  induction ds as [|d ds IH]; intros r f pre rest HAt Hfit Hend.
  - cbn [app length digitsValueFrom fold_left] in *. rewrite advance_0.
    destruct (remainingChars f) as [|fuel]; [reflexivity|]. cbn [GetIntField_loop].
    rewrite (At_PeekNext _ _ _ HAt).
    unfold endsNumber in Hend. apply negb_true_iff in Hend. now rewrite Hend.
  - cbn [digitsFitFrom] in Hfit. apply andb_true_iff in Hfit as [Hfit Hfit3].
    apply andb_true_iff in Hfit as [Hd Hov]. apply negb_true_iff in Hov.
    rewrite (At_remaining _ _ _ HAt).
    change (length ((d :: ds) ++ rest)) with (S (length (ds ++ rest))).
    cbn [GetIntField_loop].
    rewrite (At_PeekNext _ _ _ HAt).
    change (hd ch_nul ((d :: ds) ++ rest)) with d. rewrite Hd, Hov.
    rewrite advance_1.
    pose proof (At_advance f pre [d] (ds ++ rest) HAt) as HAt'.
    change (length [d]) with 1%nat in HAt'.
    specialize (IH (10 * r + d - ch_0) _ _ _ HAt' Hfit3 Hend).
    rewrite (At_remaining _ _ _ HAt') in IH. rewrite IH.
    cbn [digitsValueFrom fold_left length]. rewrite advance_advance. reflexivity.
Qed.


Lemma isDigit_range d : isDigit d = true -> 48 <= d <= 57.
Proof. unfold isDigit. intros H. apply andb_true_iff in H. lia. Qed.

Ltac bool_cases :=
  repeat match goal with
         | |- context [Z.eqb ?a ?b] => destruct (Z.eqb_spec a b); try lia
         | |- context [Z.gtb ?a ?b] => destruct (Z.gtb_spec a b); try lia
         | |- context [Z.ltb ?a ?b] => destruct (Z.ltb_spec a b); try lia
         | |- context [Z.leb ?a ?b] => destruct (Z.leb_spec a b); try lia
         | |- context [Z.geb ?a ?b] => destruct (Z.geb_spec a b); try lia
         end.

(** [GetIntField] with the cursor on the first digit. *)
Lemma GetIntField_number f pre ds rest (c : C) :
  At f pre (ds ++ rest) ->
  isNumber ds = true ->
  endsNumber rest = true ->
  GetIntField ch_nul (f, c) = Ok (digitsValue ds, (advance (length ds) f, c)).
Proof.
  intros HAt Hnum Hend. destruct ds as [|d ds]; [discriminate|].
  cbn [isNumber] in Hnum. pose proof Hnum as Hfit.
  cbn [digitsFitFrom] in Hnum. apply andb_true_iff in Hnum as [Hnum _].
  apply andb_true_iff in Hnum as [Hd _]. pose proof (isDigit_range _ Hd) as Hr.
  unfold GetIntField. cbn [fst snd]. rewrite (At_PeekNext _ _ _ HAt).
  change (hd ch_nul ((d :: ds) ++ rest)) with d.
  change (0 =? 0) with true. cbv iota. rewrite Hd.
  destruct (Z.eqb_spec d 45); [lia|]. destruct (Z.eqb_spec d 43); [lia|].
  cbn [negb andb].
  rewrite (GetIntField_loop_digits (d :: ds) 0 f pre rest HAt Hfit Hend).
  reflexivity.
Qed.

(** [GetIntField] entered with the first digit already read. *)
Lemma GetIntField_first f pre d ds rest (c : C) :
  At f pre (ds ++ rest) ->
  isNumber (d :: ds) = true ->
  endsNumber rest = true ->
  GetIntField d (f, c)
  = Ok (digitsValue (d :: ds), (advance (length ds) f, c)).
Proof.
  intros HAt Hnum Hend.
  cbn [isNumber digitsFitFrom] in Hnum. apply andb_true_iff in Hnum as [Hnum Hfit].
  apply andb_true_iff in Hnum as [Hd Hov]. pose proof (isDigit_range _ Hd) as Hr.
  apply negb_true_iff in Hov.
  unfold GetIntField. cbn [fst snd].
  destruct (Z.eqb_spec d 0); [lia|]. rewrite Hd.
  destruct (Z.eqb_spec d 45); [lia|]. destruct (Z.eqb_spec d 43); [lia|].
  cbn [negb andb]. destruct (Z.eqb_spec d 0); [lia|]. rewrite Hd, Hov.
  rewrite (GetIntField_loop_digits ds _ f pre rest HAt Hfit Hend).
  reflexivity.
Qed.

End Cursor.

Section Trip.
Context {C : Type} {ctx : FormatContext C}.

Lemma bind_Ok {S A B} (m : M S A) (k : A -> M S B) s a s' :
  m s = Ok (a, s') -> bind m k s = k a s'.
Proof. intros H. unfold bind. now rewrite H. Qed.

Lemma bind_Crash {S A B} (m : M S A) (k : A -> M S B) s msg :
  m s = Crash msg -> bind m k s = Crash msg.
Proof. intros H. unfold bind. now rewrite H. Qed.

Lemma mainChar_facts m :
  mainChar m = true ->
  isDigit m = false /\ m <> 44 /\ m <> 58 /\ m <> 45 /\ m <> 43 /\ m <> 42 /\
  Capitalize m = m.
Proof.
  unfold mainChar, Capitalize. intros H.
  repeat (apply andb_true_iff in H as [H ?]).
  repeat match goal with
         | H : negb _ = true |- _ => apply negb_true_iff in H
         end.
  repeat match goal with
         | H : (_ =? _) = false |- _ => apply Z.eqb_neq in H
         end.
  repeat split; try assumption.
  match goal with H : (_ && _) = false |- _ => now rewrite H end.
Qed.

Lemma digit_facts d :
  isDigit d = true ->
  d <> 44 /\ d <> 58 /\ d <> 45 /\ d <> 43 /\ d <> 42 /\ Capitalize d = d.
Proof.
  intros H. pose proof (isDigit_range _ H). unfold Capitalize.
  destruct (Z.leb_spec 97 d); [lia|]. cbn. repeat split; lia.
Qed.

Lemma bind_assoc {S A B D} (m : M S A) (k1 : A -> M S B) (k2 : B -> M S D) s :
  bind (bind m k1) k2 s = bind m (fun a => bind (k1 a) k2) s.
Proof. unfold bind. destruct (m s) as [[a s']| |]; reflexivity. Qed.

Lemma bind_getControl {B} (k : FormatControl -> M (@St C) B) (s : @St C) :
  bind getControl k s = k (fst s) s.
Proof. reflexivity. Qed.

Lemma bind_ret {S A B} (a : A) (k : A -> M S B) s : bind (ret a) k s = k a s.
Proof. reflexivity. Qed.

(** A trip that starts on a comma is the trip that starts after it. *)
Lemma trip_skip_comma stop chk f pre x rest (c : C) :
  At f pre (ch_comma :: x :: rest) ->
  CueUpTrip stop chk (f, c) = CueUpTrip stop chk (advance 1 f, c).
Proof.
  intros HAt. unfold CueUpTrip.
  pose proof (At_advance f pre [ch_comma] (x :: rest) HAt) as HAt1.
  change (length [ch_comma]) with 1%nat in HAt1.
  pose proof (At_advance _ _ [x] rest HAt1) as HAt2.
  change (length [x]) with 1%nat in HAt2.
  rewrite (bind_Ok _ _ _ _ _ (At_GetNextChar _ _ _ _ c HAt)).
  rewrite (bind_Ok _ _ _ _ _ (At_GetNextChar _ _ _ _ c HAt1)).
  rewrite !bind_getControl. cbn [fst snd].
  rewrite (At_remaining _ _ _ HAt1), (At_remaining _ _ _ HAt2).
  cbn [length skipSeparators]. change (Capitalize ch_comma) with ch_comma.
  change ((ch_comma =? ch_comma) || (ch_comma =? ch_colon)) with true.
  change (ch_comma =? ch_colon) with false. rewrite andb_false_r. cbv iota.
  rewrite bind_assoc.
  rewrite (bind_Ok _ _ _ _ _ (At_GetNextChar _ _ _ _ c HAt1)).
  reflexivity.
Qed.

Lemma skipSeparators_none fuel stop m (s : @St C) :
  m <> 44 -> m <> 58 -> skipSeparators fuel stop m s = Ok (Some m, s).
Proof.
  intros. destruct fuel; cbn [skipSeparators];
    destruct (Z.eqb_spec m 44); try lia; destruct (Z.eqb_spec m 58); try lia;
    reflexivity.
Qed.

(** A trip from the start of an item reads its repeat count and
    dispatches on its main character. *)
Lemma trip_count stop chk f pre cnt m rest (c : C) :
  At f pre (cnt ++ m :: rest) ->
  okCount cnt = true ->
  mainChar m = true ->
  CueUpTrip stop chk (f, c)
  = dispatch stop chk (countValue cnt) false m (advance (length cnt + 1) f, c).
Proof.
  intros HAt Hcnt Hm.
  destruct (mainChar_facts m Hm) as (Hmd & ? & ? & ? & ? & ? & Hcap).
  unfold CueUpTrip. destruct cnt as [|d ds].
  - cbn [app] in HAt.
    rewrite (bind_Ok _ _ _ _ _ (At_GetNextChar _ _ _ _ c HAt)).
    rewrite bind_getControl. cbn [fst snd].
    rewrite Hcap.
    rewrite (bind_Ok _ _ _ _ _ (skipSeparators_none _ stop m _ ltac:(lia) ltac:(lia))).
    unfold readRepeat. rewrite Hmd.
    destruct (Z.eqb_spec m 45); [lia|]. destruct (Z.eqb_spec m 43); [lia|].
    destruct (Z.eqb_spec m 42); [lia|]. cbn [orb].
    unfold bind at 1, ret. cbn [fst snd length Nat.add]. reflexivity.
  - cbn [okCount] in Hcnt. pose proof Hcnt as Hnum.
    cbn [isNumber digitsFitFrom] in Hcnt. apply andb_true_iff in Hcnt as [Hcnt _].
    apply andb_true_iff in Hcnt as [Hd _].
    destruct (digit_facts d Hd) as (? & ? & ? & ? & ? & Hcapd).
    change ((d :: ds) ++ m :: rest) with (d :: ds ++ m :: rest) in HAt.
    rewrite (bind_Ok _ _ _ _ _ (At_GetNextChar _ _ _ _ c HAt)).
    rewrite bind_getControl. cbn [fst snd].
    rewrite Hcapd.
    rewrite (bind_Ok _ _ _ _ _ (skipSeparators_none _ stop d _ ltac:(lia) ltac:(lia))).
    unfold readRepeat. rewrite Hd, !orb_true_r.
    pose proof (At_advance f pre [d] _ HAt) as HAt1.
    change (length [d]) with 1%nat in HAt1.
    assert (Hend : endsNumber (m :: rest) = true)
      by (unfold endsNumber; cbn [hd]; now rewrite Hmd).
    rewrite bind_assoc.
    rewrite (bind_Ok _ _ _ _ _ (GetIntField_first _ _ d ds _ c HAt1 Hnum Hend)).
    pose proof (At_advance _ _ ds _ HAt1) as HAt2.
    rewrite bind_assoc.
    rewrite (bind_Ok _ _ _ _ _ (At_GetNextChar _ _ _ _ c HAt2)).
    rewrite bind_ret. cbn [fst snd countValue].
    rewrite !advance_advance. cbn [length].
    replace (1 + length ds + 1)%nat with (S (length ds) + 1)%nat by lia.
    reflexivity.
Qed.

End Trip.

Section Dispatch.
Context {C : Type} {ctx : FormatContext C}.

Lemma At_slice f pre a rest :
  At f pre (a ++ rest) -> slice f (offset_ f) (Z.of_nat (length a)) = a.
Proof.
  intros (Hf & Ho & Hl). unfold slice. rewrite Hf, Ho, !Nat2Z.id.
  rewrite skipn_app, skipn_all, Nat.sub_diag. cbn [skipn app].
  now rewrite firstn_app, firstn_all, Nat.sub_diag, firstn_O, app_nil_r.
Qed.

Lemma laps_value cnt :
  Z.of_nat (laps cnt) - 1
  = match countValue cnt with
    | Some r => (if r <=? 0 then 1 else r) - 1
    | None => 0
    end.
Proof.
  unfold laps. destruct (countValue cnt) as [r|]; [|reflexivity].
  destruct (Z.leb_spec r 0); lia.
Qed.

Lemma laps_pos cnt : (1 <= laps cnt)%nat.
Proof.
  unfold laps. destruct (countValue cnt) as [r|]; [|lia].
  destruct (Z.leb_spec r 0); lia.
Qed.

(** The left parenthesis of a group pushes its frame. *)
Lemma dispatch_open stop chk cnt f (c : C) :
  stack_ f <> [] ->
  height_ f < maxHeight_ f ->
  dispatch stop chk (countValue cnt) false ch_lparen (f, c)
  = Ok (Continue chk,
        (set_stack (mkIteration (offset_ f - 1) (Z.of_nat (laps cnt) - 1)
                      :: stack_ f) f, c)).
Proof.
  intros Hne Hh. unfold dispatch. rewrite bind_getControl. cbn [fst snd].
  change (ch_lparen =? ch_lparen) with true. cbv iota. unfold openParen.
  destruct (Z.geb_spec (height_ f) (maxHeight_ f)); [lia|].
  assert (Hh0 : (height_ f =? 0) = false).
  { apply Z.eqb_neq. unfold height_. destruct (stack_ f); [congruence|cbn; lia]. }
  rewrite Hh0. cbn [orb]. rewrite laps_value.
  destruct (countValue cnt); reflexivity.
Qed.

(** The right parenthesis of the whole FORMAT: the implied slash, and the
    scan returns to the first item. *)
Lemma dispatch_close_outer chk cnt flag f (c : C) :
  stack_ f = [mkIteration 0 unlimited] ->
  chk <> 1 ->
  dispatch false chk cnt flag ch_rparen (f, c)
  = match HandleSlash 1 c with
    | Ok c' => Ok (Continue chk, (set_offset 1 f, c'))
    | Crash msg => Crash msg
    | OutOfFuel => OutOfFuel
    end.
Proof.
  intros Hst Hchk. unfold dispatch. rewrite bind_getControl. cbn [fst snd].
  change (ch_rparen =? ch_lparen) with false. cbv iota.
  assert (Hh : height_ f = 1) by (unfold height_; now rewrite Hst).
  rewrite Hst.
  change (ch_rparen =? ch_rparen) with true. cbv iota.
  unfold closeParen. rewrite Hh. cbn [remaining start].
  change (1 =? 1) with true. cbn [andb]. cbv iota.
  unfold bind at 1, onContext at 1. cbn [fst snd].
  destruct (HandleSlash 1 c) as [c'| |]; try reflexivity.
  change (unlimited =? unlimited) with true. cbv iota.
  unfold bind, setOffset, onControl. cbn [fst snd].
  destruct (Z.eqb_spec (0 + 1) chk); [lia|]. reflexivity.
Qed.

(** The right parenthesis of a group with passes left: back to its
    first item. *)
Lemma dispatch_close_again stop chk cnt flag f s r K (c : C) :
  stack_ f = mkIteration s (Z.of_nat (S r)) :: K -> K <> [] ->
  dispatch stop chk cnt flag ch_rparen (f, c)
  = Ok (Continue chk,
        (set_offset (s + 1) (set_stack (mkIteration s (Z.of_nat r) :: K) f), c)).
Proof.
  intros Hst HK. unfold dispatch. rewrite bind_getControl. cbn [fst snd].
  change (ch_rparen =? ch_lparen) with false. cbv iota. rewrite Hst.
  change (ch_rparen =? ch_rparen) with true. cbv iota.
  unfold closeParen, height_. rewrite Hst. cbn [length remaining start].
  assert (Hh : (Z.of_nat (S (length K)) =? 1) = false).
  { apply Z.eqb_neq. destruct K; [congruence|cbn [length]; lia]. }
  rewrite Hh. cbn [andb]. rewrite bind_ret.
  unfold unlimited. destruct (Z.eqb_spec (Z.of_nat (S r)) (-1)); [lia|].
  destruct (Z.gtb_spec (Z.of_nat (S r)) 0); [|lia].
  unfold bind, onControl, ret. cbn [fst snd].
  replace (Z.of_nat (S r) - 1) with (Z.of_nat r) by lia. reflexivity.
Qed.

(** The right parenthesis of a group on its last pass: the frame is
    popped. *)
Lemma dispatch_close_last stop chk cnt flag f s K (c : C) :
  stack_ f = mkIteration s 0 :: K -> K <> [] ->
  dispatch stop chk cnt flag ch_rparen (f, c)
  = Ok (Continue chk, (set_stack K f, c)).
Proof.
  intros Hst HK. unfold dispatch. rewrite bind_getControl. cbn [fst snd].
  change (ch_rparen =? ch_lparen) with false. cbv iota. rewrite Hst.
  change (ch_rparen =? ch_rparen) with true. cbv iota.
  unfold closeParen, height_. rewrite Hst. cbn [length remaining start].
  assert (Hh : (Z.of_nat (S (length K)) =? 1) = false).
  { apply Z.eqb_neq. destruct K; [congruence|cbn [length]; lia]. }
  rewrite Hh. cbn [andb]. rewrite bind_ret.
  reflexivity.
Qed.

(** The closing quote of a literal whose body holds no quote. *)
Lemma scanQuote_body q body :
  forall f pre rest,
    At f pre (body ++ q :: rest) ->
    forallb (fun b => negb (b =? q)) body = true ->
    scanQuote (remainingChars f) q f (offset_ f)
    = offset_ f + Z.of_nat (length body).
Proof.
  induction body as [|b body IH]; intros f pre rest HAt Hq.
  - rewrite (At_remaining _ _ _ HAt). cbn [app length scanQuote].
    pose proof (At_charAt f pre _ 0 HAt) as Hc. rewrite Z.add_0_r in Hc.
    rewrite Hc. change (nth 0 (q :: rest) ch_nul) with q.
    rewrite Z.eqb_refl. cbn [length Z.of_nat]. lia.
  - cbn [forallb] in Hq. apply andb_true_iff in Hq as [Hb Hq].
    apply negb_true_iff in Hb.
    rewrite (At_remaining _ _ _ HAt).
    change (length ((b :: body) ++ q :: rest))
      with (S (length (body ++ q :: rest))).
    cbn [scanQuote].
    pose proof (At_charAt f pre _ 0 HAt) as Hc. rewrite Z.add_0_r in Hc.
    rewrite Hc. change (nth 0 ((b :: body) ++ q :: rest) ch_nul) with b.
    rewrite Hb.
    pose proof (At_advance f pre [b] (body ++ q :: rest) HAt) as HAt1.
    change (length [b]) with 1%nat in HAt1.
    specialize (IH _ _ _ HAt1 Hq).
    rewrite (At_remaining _ _ _ HAt1) in IH.
    assert (Hsame : forall fuel o,
               scanQuote fuel q (advance 1 f) o = scanQuote fuel q f o).
    { induction fuel as [|fuel IHf]; intros o; [reflexivity|].
      cbn [scanQuote]. change (charAt (advance 1 f) o) with (charAt f o).
      now rewrite IHf. }
    rewrite Hsame in IH. change (offset_ (advance 1 f)) with (offset_ f + 1) in IH.
    rewrite IH. cbn [length]. lia.
Qed.

Lemma set_offset_advance f k :
  set_offset (offset_ f + Z.of_nat k) f = advance k f.
Proof. reflexivity. Qed.

(** A character literal is emitted without its quotes. *)
Lemma dispatch_literal stop chk cnt flag q body f pre rest (c : C) :
  At f pre (body ++ q :: rest) ->
  (q =? ch_squote) || (q =? ch_dquote) = true ->
  forallb (fun b => negb (b =? q)) body = true ->
  hd ch_nul rest <> q ->
  stack_ f <> [] ->
  dispatch stop chk cnt flag q (f, c)
  = match Emit body c with
    | Ok c' => Ok (Continue chk, (advance (length body + 1) f, c'))
    | Crash msg => Crash msg
    | OutOfFuel => OutOfFuel
    end.
Proof.
  intros HAt Hq Hbody Hnext Hst. unfold dispatch.
  rewrite bind_getControl. cbn [fst snd].
  assert (Hq40 : (q =? ch_lparen) = false).
  { apply orb_true_iff in Hq as [Hq|Hq]; apply Z.eqb_eq in Hq; subst; reflexivity. }
  assert (Hq41 : (q =? ch_rparen) = false).
  { apply orb_true_iff in Hq as [Hq|Hq]; apply Z.eqb_eq in Hq; subst; reflexivity. }
  rewrite Hq40. destruct (stack_ f) as [|top below]; [congruence|].
  rewrite Hq41, Hq. unfold characterLiteral.
  rewrite (scanQuote_body q body f pre rest HAt Hbody).
  pose proof HAt as (Hf & Ho & Hl).
  destruct (Z.geb_spec (offset_ f + Z.of_nat (length body)) (formatLength_ f)).
  { rewrite Hl, Ho, !length_app in *. cbn [length] in *. lia. }
  pose proof (At_advance f pre (body ++ [q]) rest) as HAt1.
  rewrite <- app_assoc in HAt1. specialize (HAt1 HAt).
  rewrite length_app in HAt1. cbn [length] in HAt1.
  replace (offset_ f + Z.of_nat (length body) + 1)
    with (offset_ f + Z.of_nat (length body + 1)) by lia.
  rewrite set_offset_advance, (At_PeekNext _ _ _ HAt1).
  destruct (Z.eqb_spec (hd ch_nul rest) q); [congruence|].
  replace (offset_ f + Z.of_nat (length body + 1) - offset_ f - 1)
    with (Z.of_nat (length body)) by lia.
  rewrite (At_slice f pre body (q :: rest) HAt).
  unfold bind, setOffset, onControl, onContext. cbn [fst snd].
  destruct (Emit body c); reflexivity.
Qed.

(** A Hollerith field is emitted whole. *)
Lemma dispatch_hollerith stop chk cnt flag payload f pre rest (c : C) :
  At f pre (payload ++ rest) ->
  countValue cnt = Some (Z.of_nat (length payload)) ->
  payload <> [] ->
  stack_ f <> [] ->
  dispatch stop chk (countValue cnt) flag ch_H (f, c)
  = match Emit payload c with
    | Ok c' => Ok (Continue chk, (advance (length payload) f, c'))
    | Crash msg => Crash msg
    | OutOfFuel => OutOfFuel
    end.
Proof.
  intros HAt Hcnt Hne Hst. unfold dispatch.
  rewrite bind_getControl. cbn [fst snd].
  change (ch_H =? ch_lparen) with false. cbv iota.
  destruct (stack_ f) as [|top below]; [congruence|].
  change (ch_H =? ch_rparen) with false.
  change ((ch_H =? ch_squote) || (ch_H =? ch_dquote)) with false.
  change (ch_H =? ch_H) with true. cbv iota.
  unfold hollerith. rewrite Hcnt.
  pose proof HAt as (Hf & Ho & Hl).
  destruct (Z.ltb_spec (Z.of_nat (length payload)) 1).
  { destruct payload; [congruence|cbn [length] in *; lia]. }
  destruct (Z.gtb_spec (offset_ f + Z.of_nat (length payload)) (formatLength_ f)).
  { rewrite Hl, Ho, !length_app in *. lia. }
  cbn [orb]. rewrite (At_slice f pre payload rest HAt).
  unfold bind, setOffset, onControl, onContext. cbn [fst snd].
  destruct (Emit payload c); reflexivity.
Qed.

(** A slash. *)
Lemma dispatch_slash stop chk cnt flag f (c : C) :
  stack_ f <> [] ->
  dispatch stop chk cnt flag ch_slash (f, c)
  = match HandleSlash (countOf cnt) c with
    | Ok c' => Ok (Continue chk, (f, c'))
    | Crash msg => Crash msg
    | OutOfFuel => OutOfFuel
    end.
Proof.
  intros Hst. unfold dispatch. rewrite bind_getControl. cbn [fst snd].
  change (ch_slash =? ch_lparen) with false. cbv iota.
  destruct (stack_ f) as [|top below]; [congruence|].
  change (ch_slash =? ch_rparen) with false.
  change ((ch_slash =? ch_squote) || (ch_slash =? ch_dquote)) with false.
  change (ch_slash =? ch_H) with false.
  change (isUpper ch_slash) with false.
  change (ch_slash =? ch_slash) with true. cbv iota.
  unfold bind, onContext. cbn [fst snd].
  destruct (HandleSlash (countOf cnt) c); reflexivity.
Qed.

End Dispatch.

Section Letters.
Context {C : Type} {ctx : FormatContext C}.

Lemma set_scale_same f : set_scale (scale_ f) f = f.
Proof. destruct f; reflexivity. Qed.

(** [HandleControl] reads and writes the scale factor and the context
    only. *)
Lemma HandleControl_frame a b n f (c : C) :
  HandleControl a b n (f, c)
  = match HandleControl a b n (mkControl (scale_ f) 0 [] [] 0 0, c) with
    | Ok (_, (f0, c')) => Ok (tt, (set_scale (scale_ f0) f, c'))
    | Crash msg => Crash msg
    | OutOfFuel => OutOfFuel
    end.
Proof.
  unfold HandleControl.
  repeat match goal with
         | |- context [Z.eqb ?x ?y] => destruct (Z.eqb x y)
         end;
    cbn [negb orb];
    unfold setFlag, clearFlag, setRounding, modifyModes, onControl, onContext,
      crash; cbn [fst snd scale_ set_scale];
    rewrite ?set_scale_same;
    try reflexivity;
    match goal with
    | |- context [match ?g with _ => _ end] =>
        destruct g; cbn [scale_]; rewrite ?set_scale_same; reflexivity
    end.
Qed.

Lemma dataLetter_cases a :
  (a =? ch_E) || isDataLetter a = true ->
  a = 69 \/ a = 65 \/ a = 73 \/ a = 66 \/ a = 79 \/ a = 90 \/ a = 70 \/
  a = 68 \/ a = 71.
Proof.
  unfold isDataLetter. intros H.
  repeat (apply orb_true_iff in H as [H|H]); apply Z.eqb_eq in H; lia.
Qed.

(** A data edit descriptor ends the scan, the cursor back on its letter. *)
Lemma dispatch_data stop chk cnt flag a f pre rest (c : C) :
  At f pre rest ->
  stack_ f <> [] ->
  (a =? ch_E) || isDataLetter a = true ->
  (a <> ch_E -> isUpper (Capitalize (hd ch_nul rest)) = false) ->
  dispatch stop chk cnt flag a (f, c)
  = Ok (Return (countOf cnt), (set_offset (offset_ f - 1) f, c)).
Proof.
  intros HAt Hst Ha Hnext. unfold dispatch.
  rewrite bind_getControl. cbn [fst snd].
  destruct (stack_ f) as [|top below]; [congruence|].
  unfold editDescriptor. rewrite (At_PeekNext _ _ _ HAt).
  destruct (dataLetter_cases a Ha) as [E|E];
    [subst a; reflexivity|].
  rewrite Hnext by (repeat destruct E as [E|E]; lia).
  repeat destruct E as [E|E]; subst a; reflexivity.
Qed.

(** A one-letter control edit descriptor is handled. *)
Lemma dispatch_control stop chk cnt flag a f pre rest (c : C) :
  At f pre rest ->
  stack_ f <> [] ->
  isUpper a = true -> a <> ch_H -> a <> ch_E -> a <> ch_T ->
  isDataLetter a = false ->
  isUpper (Capitalize (hd ch_nul rest)) = false ->
  dispatch stop chk cnt flag a (f, c)
  = match controlEffect a (countOf cnt) (scale_ f) c with
    | Ok (scale', c') => Ok (Continue chk, (set_scale scale' f, c'))
    | Crash msg => Crash msg
    | OutOfFuel => OutOfFuel
    end.
Proof.
  intros HAt Hst Hup HH HE HT Hdata Hnext. unfold dispatch.
  rewrite bind_getControl. cbn [fst snd].
  unfold isUpper in Hup. apply andb_true_iff in Hup as [Hlo Hhi].
  apply Z.leb_le in Hlo, Hhi.
  destruct (Z.eqb_spec a ch_lparen); [lia|].
  destruct (stack_ f) as [|top below]; [congruence|].
  destruct (Z.eqb_spec a ch_rparen); [lia|].
  destruct (Z.eqb_spec a ch_squote); [lia|].
  destruct (Z.eqb_spec a ch_dquote); [lia|].
  destruct (Z.eqb_spec a ch_H); [lia|]. cbn [orb].
  unfold isUpper at 1.
  destruct (Z.leb_spec 65 a); [|lia]. destruct (Z.leb_spec a 90); [|lia].
  cbn [andb]. unfold editDescriptor. rewrite (At_PeekNext _ _ _ HAt), Hnext.
  destruct (Z.eqb_spec a ch_E); [lia|]. rewrite Hdata.
  destruct (Z.eqb_spec a ch_T); [lia|].
  change (ch_nul =? ch_nul) with true. cbn [andb orb].
  rewrite bind_ret. unfold bind at 1. rewrite HandleControl_frame.
  unfold controlEffect.
  destruct (HandleControl a 0 (countOf cnt) _) as [[[] [f0 c']]| |]; reflexivity.
Qed.

End Letters.

Section DataEdit.
Context {C : Type} {ctx : FormatContext C}.

Ltac adv :=
  rewrite ?advance_advance; cbn [length];
  match goal with
  | |- Ok (?v, (advance ?a ?f, ?c)) = Ok (?v', (advance ?b ?f, ?c)) =>
      replace a with b by lia; reflexivity
  end.

Lemma delim_facts rest :
  isDelim rest ->
  isDigit (hd ch_nul rest) = false /\
  isUpper (Capitalize (hd ch_nul rest)) = false /\
  isExpoLetter (hd ch_nul rest) = false /\
  (hd ch_nul rest =? ch_dot) = false /\
  endsNumber rest = true.
Proof.
  unfold isDelim, endsNumber. intros [H|H]; rewrite H; repeat split.
Qed.

Lemma isUpper_Capitalize v : isUpper v = true -> Capitalize v = v.
Proof.
  unfold isUpper, Capitalize. intros H. apply andb_true_iff in H as [H1 H2].
  apply Z.leb_le in H1, H2. destruct (Z.leb_spec 97 v); [lia|reflexivity].
Qed.

Lemma endsNumber_nondigit x rest : isDigit x = false -> endsNumber (x :: rest) = true.
Proof. unfold endsNumber. cbn [hd]. now intros ->. Qed.

Lemma readVariation_ok a v f pre rest (c : C) :
  At f pre (varText v ++ rest) ->
  match v with Some v => (a =? ch_E) && isUpper v | None => true end = true ->
  (v = None -> isUpper (Capitalize (hd ch_nul rest)) = false) ->
  readVariation a (f, c)
  = Ok (match v with Some v => v | None => ch_nul end,
        (advance (length (varText v)) f, c)).
Proof.
  intros HAt Hv Hnext. unfold readVariation. destruct v as [v|].
  - apply andb_true_iff in Hv as [Ha Hup]. rewrite Ha.
    rewrite bind_getControl. cbn [fst snd].
    rewrite (At_PeekNext _ _ _ HAt). cbn [varText app hd].
    rewrite (isUpper_Capitalize _ Hup), Hup. reflexivity.
  - cbn [varText app length] in *. rewrite advance_0.
    destruct (a =? ch_E); [|reflexivity].
    rewrite bind_getControl. cbn [fst snd].
    rewrite (At_PeekNext _ _ _ HAt), (Hnext eq_refl). reflexivity.
Qed.

Lemma readFraction_ok d e f pre rest (c : C) :
  At f pre (dotText d ++ expoText e ++ rest) ->
  match d with Some d => isNumber d | None => true end = true ->
  match e with
  | Some (l, e) =>
      isExpoLetter l && isNumber e
      && match d with Some _ => true | None => false end
  | None => true
  end = true ->
  isDelim rest ->
  readFraction (f, c)
  = Ok ((option_map digitsValue d,
         option_map (fun le => digitsValue (snd le)) e),
        (advance (length (dotText d) + length (expoText e)) f, c)).
Proof.
  intros HAt Hd He Hdelim.
  destruct (delim_facts rest Hdelim) as (Hnd & Hnu & Hne & Hndot & Hend).
  unfold readFraction. rewrite bind_getControl. cbn [fst snd].
  rewrite (At_PeekNext _ _ _ HAt).
  destruct d as [d|].
  - cbn [dotText] in *. change (hd ch_nul ((ch_dot :: d) ++ expoText e ++ rest)) with ch_dot.
    change (ch_dot =? ch_dot) with true. cbv iota.
    pose proof (At_advance f pre [ch_dot] (d ++ expoText e ++ rest) HAt) as HAt1.
    change (length [ch_dot]) with 1%nat in HAt1.
    unfold bind at 1, setOffset at 1, onControl at 1. cbn [fst snd].
    rewrite advance_1.
    destruct e as [[l e]|].
    + apply andb_true_iff in He as [He _]. apply andb_true_iff in He as [Hl He].
      cbn [expoText] in *.
      assert (Hld : isDigit l = false).
      { unfold isExpoLetter in Hl. unfold isDigit.
        repeat (apply orb_true_iff in Hl as [Hl|Hl]); apply Z.eqb_eq in Hl;
          subst; reflexivity. }
      rewrite (bind_Ok _ _ _ _ _
                 (GetIntField_number _ _ d _ c HAt1 Hd
                    (endsNumber_nondigit l _ Hld))).
      rewrite bind_getControl. cbn [fst snd].
      pose proof (At_advance _ _ d _ HAt1) as HAt2.
      rewrite (At_PeekNext _ _ _ HAt2).
      change (hd ch_nul ((l :: e) ++ rest)) with l. rewrite Hl.
      pose proof (At_advance _ _ [l] (e ++ rest) HAt2) as HAt3.
      change (length [l]) with 1%nat in HAt3.
      unfold bind at 1, setOffset at 1, onControl at 1. cbn [fst snd].
      rewrite advance_1.
      rewrite (bind_Ok _ _ _ _ _ (GetIntField_number _ _ e _ c HAt3 He Hend)).
      unfold ret. cbn [option_map snd]. adv.
    + cbn [expoText app] in *.
      rewrite (bind_Ok _ _ _ _ _ (GetIntField_number _ _ d _ c HAt1 Hd Hend)).
      rewrite bind_getControl. cbn [fst snd].
      pose proof (At_advance _ _ d _ HAt1) as HAt2.
      rewrite (At_PeekNext _ _ _ HAt2), Hne.
      cbn [option_map]. unfold ret. adv.
  - destruct e as [[l e]|].
    + apply andb_true_iff in He as [_ He]. discriminate.
    + cbn [dotText expoText app length option_map] in *.
      rewrite Hndot. unfold ret. now rewrite advance_0.
Qed.

Lemma print_uncounted a v w d e :
  print (IData [] a v w d e)
  = a :: varText v ++ w ++ dotText d ++ expoText e.
Proof. reflexivity. Qed.

(** [readDataEdit] over the text of a data edit descriptor. *)
Lemma readDataEdit_ok mh h cnt a v w d e f pre rest (c : C) :
  At f pre (print (IData [] a v w d e) ++ rest) ->
  okItem mh h (IData cnt a v w d e) = true ->
  isDelim rest ->
  readDataEdit (f, c)
  = Ok (mkEdit a (match v with Some v => v | None => ch_nul end)
          (digitsValue w) (option_map digitsValue d)
          (option_map (fun le => digitsValue (snd le)) e) (mutableModes c),
        (advance (length (print (IData [] a v w d e))) f, c)).
Proof.
  intros HAt Hok Hdelim. cbn [okItem] in Hok.
  apply andb_true_iff in Hok as [Hok He]. apply andb_true_iff in Hok as [Hok Hd].
  apply andb_true_iff in Hok as [Hok Hw]. apply andb_true_iff in Hok as [Hok Hv].
  apply andb_true_iff in Hok as [Hcnt Ha].
  rewrite print_uncounted in HAt.
  change ((a :: varText v ++ w ++ dotText d ++ expoText e) ++ rest)
    with (a :: (varText v ++ w ++ dotText d ++ expoText e) ++ rest) in HAt.
  rewrite <- !app_assoc in HAt.
  unfold readDataEdit.
  rewrite (bind_Ok _ _ _ _ _ (At_GetNextChar _ _ _ _ c HAt)).
  assert (Hup : isUpper a = true).
  { destruct (dataLetter_cases a Ha) as [E|E];
      repeat destruct E as [E|E]; subst a; reflexivity. }
  rewrite (isUpper_Capitalize _ Hup).
  pose proof (At_advance f pre [a] _ HAt) as HAt1.
  change (length [a]) with 1%nat in HAt1.
  assert (Hwd : exists x w', w = x :: w' /\ isDigit x = true).
  { destruct w as [|x w']; [discriminate|]. exists x, w'. split; [reflexivity|].
    cbn [isNumber digitsFitFrom] in Hw.
    apply andb_true_iff in Hw as [Hw _]. now apply andb_true_iff in Hw as [Hw _]. }
  destruct Hwd as (x & w' & Ew & Hx).
  assert (Hxup : isUpper (Capitalize x) = false).
  { pose proof (isDigit_range _ Hx). destruct (digit_facts x Hx) as (_ & _ & _ & _ & _ & Hc).
    rewrite Hc. unfold isUpper. destruct (Z.leb_spec 65 x); [lia|reflexivity]. }
  rewrite (bind_Ok _ _ _ _ _
             (readVariation_ok a v _ _ _ c HAt1 Hv
                ltac:(intros _; subst w; exact Hxup))).
  pose proof (At_advance _ _ (varText v) _ HAt1) as HAt2.
  assert (Hendw : endsNumber (dotText d ++ expoText e ++ rest) = true).
  { destruct (delim_facts rest Hdelim) as (Hnd & _).
    destruct d as [d|]; [reflexivity|].
    destruct e as [[l e]|]; [|cbn [dotText expoText app]; unfold endsNumber; now rewrite Hnd].
    apply andb_true_iff in He as [_ He]. discriminate. }
  rewrite (bind_Ok _ _ _ _ _ (GetIntField_number _ _ w _ c HAt2 Hw Hendw)).
  unfold bind at 1, getContext at 1. cbn [fst snd].
  pose proof (At_advance _ _ w _ HAt2) as HAt3.
  rewrite (bind_Ok _ _ _ _ _
             (readFraction_ok d e _ _ rest c HAt3 Hd He Hdelim)).
  unfold ret. cbn [fst snd].
  rewrite !advance_advance.
  match goal with
  | |- Ok (?v, (advance ?a ?f, ?c)) = Ok (?v', (advance ?b ?f, ?c)) =>
      replace a with b; [reflexivity|]
  end.
  rewrite print_uncounted. cbn [length]. rewrite !length_app. lia.
Qed.

End DataEdit.

Section Charge.
Context {C : Type} {ctx : FormatContext C}.

(** A descriptor without a repeat count under a group frame, or under
    the frame of the FORMAT alone: one application, nothing changes. *)
Lemma chargeRepeat_plain rep from (edit : Z -> DataEdit) f (c : C) :
  rep <= 1 ->
  (height_ f <= 1 \/
   exists top below, stack_ f = top :: below /\ charAt f (start top) = ch_lparen) ->
  chargeRepeat rep from 1 edit (f, c) = Ok (edit 1, (f, c)).
Proof.
  intros Hrep Htop. unfold chargeRepeat.
  destruct (Z.gtb_spec rep 1); [lia|]. rewrite bind_ret.
  rewrite bind_getControl. cbn [fst snd].
  destruct (Z.gtb_spec (height_ f) 1) as [Hh|Hh]; [|reflexivity].
  destruct Htop as [Hle|(top & below & Hst & Hch)]; [lia|].
  rewrite Hst, Hch. reflexivity.
Qed.

(** A descriptor with a repeat count above one: its frame is pushed
    and charged with one application, the cursor back on the letter. *)
Lemma chargeRepeat_first rep from (edit : Z -> DataEdit) f (c : C) :
  1 < rep ->
  stack_ f <> [] ->
  charAt f from <> ch_lparen ->
  chargeRepeat rep from 1 edit (f, c)
  = Ok (edit 1,
        (set_offset from
           (set_stack (mkIteration from (rep - 1) :: stack_ f) f), c)).
Proof.
  intros Hrep Hst Hch. unfold chargeRepeat.
  destruct (Z.gtb_spec rep 1); [|lia].
  unfold bind at 1, pushFrame at 1, onControl at 1. cbn [fst snd].
  rewrite bind_getControl. cbn [fst snd].
  unfold height_ at 1. cbn [stack_ set_stack length].
  destruct (Z.gtb_spec (Z.of_nat (S (length (stack_ f)))) 1) as [_|Hh].
  2:{ destruct (stack_ f); [congruence|cbn [length] in Hh; lia]. }
  cbn [start remaining].
  change (charAt (set_stack _ f) from) with (charAt f from).
  destruct (Z.eqb_spec (charAt f from) ch_lparen); [congruence|]. cbn [negb].
  destruct (Z.gtb_spec rep 1); [|lia].
  reflexivity.
Qed.

(** A further application of a repeated descriptor with more to come. *)
Lemma chargeRepeat_more from0 from m (edit : Z -> DataEdit) f K (c : C) :
  stack_ f = mkIteration from m :: K ->
  K <> [] ->
  1 < m ->
  charAt f from <> ch_lparen ->
  chargeRepeat 1 from0 1 edit (f, c)
  = Ok (edit 1,
        (set_offset from (set_stack (mkIteration from (m - 1) :: K) f), c)).
Proof.
  intros Hst HK Hm Hch. unfold chargeRepeat.
  change (1 >? 1) with false. cbv iota. rewrite bind_ret.
  rewrite bind_getControl. cbn [fst snd].
  unfold height_. rewrite Hst. cbn [length].
  destruct (Z.gtb_spec (Z.of_nat (S (length K))) 1) as [_|Hh].
  2:{ destruct K; [congruence|cbn [length] in Hh; lia]. }
  cbn [start remaining].
  destruct (Z.eqb_spec (charAt f from) ch_lparen); [congruence|]. cbn [negb].
  destruct (Z.gtb_spec m 1); [|lia].
  reflexivity.
Qed.

(** The last application of a repeated descriptor: its frame is popped. *)
Lemma chargeRepeat_last from0 from (edit : Z -> DataEdit) f K (c : C) :
  stack_ f = mkIteration from 1 :: K ->
  K <> [] ->
  charAt f from <> ch_lparen ->
  chargeRepeat 1 from0 1 edit (f, c)
  = Ok (edit 1, (set_stack K f, c)).
Proof.
  intros Hst HK Hch. unfold chargeRepeat.
  change (1 >? 1) with false. cbv iota. rewrite bind_ret.
  rewrite bind_getControl. cbn [fst snd].
  unfold height_. rewrite Hst. cbn [length].
  destruct (Z.gtb_spec (Z.of_nat (S (length K))) 1) as [_|Hh].
  2:{ destruct K; [congruence|cbn [length] in Hh; lia]. }
  cbn [start remaining].
  destruct (Z.eqb_spec (charAt f from) ch_lparen); [congruence|]. cbn [negb].
  reflexivity.
Qed.

End Charge.

(** ** Texts of format lists *)

Lemma printItems_cons x now : printItems (x :: now) = print x ++ sepText now.
Proof.
  unfold printItems. cbn [map joinComma]. destruct now as [|y now].
  - cbn [map sepText]. now rewrite app_nil_r.
  - reflexivity.
Qed.

Lemma tailText_cons z zs :
  tailText (z :: zs) = ch_rparen :: sepText (zafter z) ++ tailText zs.
Proof. reflexivity. Qed.

Lemma tailText_head zs : exists t, tailText zs = ch_rparen :: t.
Proof. destruct zs; eexists; reflexivity. Qed.

Lemma delim_after now zs : isDelim (sepText now ++ tailText zs).
Proof.
  unfold isDelim. destruct now as [|y now].
  - right. destruct zs; reflexivity.
  - left. reflexivity.
Qed.

Lemma repeatList_S {A} n (l : list A) : repeatList (S n) l = l ++ repeatList n l.
Proof. reflexivity. Qed.

Lemma flatItems_cons x now : flatItems (x :: now) = flat x ++ flatItems now.
Proof. reflexivity. Qed.

Lemma upper_mainChar a : isUpper a = true -> mainChar a = true.
Proof.
  unfold isUpper, mainChar, isDigit. intros H.
  apply andb_true_iff in H as [H1 H2]. apply Z.leb_le in H1, H2.
  destruct (Z.leb_spec 48 a); destruct (Z.leb_spec a 57); try lia;
    destruct (Z.eqb_spec a 44); try lia; destruct (Z.eqb_spec a 58); try lia;
    destruct (Z.eqb_spec a 45); try lia; destruct (Z.eqb_spec a 43); try lia;
    destruct (Z.eqb_spec a 42); try lia;
    destruct (Z.leb_spec 97 a); try lia; reflexivity.
Qed.

(** ** Frames *)

Lemma Frames_length mh F zs K : Frames mh F zs K -> length K = S (length zs).
Proof. induction 1; cbn [length]; congruence. Qed.

Lemma Frames_nonempty mh F zs K : Frames mh F zs K -> K <> [].
Proof. destruct 1; discriminate. Qed.

Lemma At_set_stack f K pre rest : At f pre rest -> At (set_stack K f) pre rest.
Proof. intros H; exact H. Qed.

Lemma At_set_scale f n pre rest : At f pre rest -> At (set_scale n f) pre rest.
Proof. intros H; exact H. Qed.

(** The cursor set on a position of the FORMAT. *)
Lemma At_set_offset f pre0 rest0 pre rest :
  At f pre0 rest0 ->
  format_ f = pre ++ rest ->
  At (set_offset (Z.of_nat (length pre)) f) pre rest.
Proof.
  intros (Hf & Ho & Hl) Hf'. unfold At. cbn. rewrite Hl, <- Hf, Hf'. auto.
Qed.

Lemma At_format f pre rest : At f pre rest -> format_ f = pre ++ rest.
Proof. now intros (H & _). Qed.

Lemma At_offset f pre rest : At f pre rest -> offset_ f = Z.of_nat (length pre).
Proof. now intros (_ & H & _). Qed.

Lemma charAt_at f pre x rest :
  format_ f = pre ++ x :: rest -> charAt f (Z.of_nat (length pre)) = x.
Proof.
  intros Hf. unfold charAt. rewrite Hf, Nat2Z.id.
  now rewrite nth_middle.
Qed.

Section Sim.
Context {C : Type} {ctx : FormatContext C}.

Lemma Base_moved (mh : nat) (all : list item) f zs K f' :
  Base mh all f zs K ->
  format_ f' = format_ f -> maxHeight_ f' = maxHeight_ f ->
  Base mh all f' zs K.
Proof.
  intros (Hf & Hm & Hok & HF) Ef Em. unfold Base. rewrite Ef, Em. auto.
Qed.

Lemma Rep_items (mh : nat) (all : list item) f (sep : bool) now zs pre :
  Base mh all f zs (stack_ f) ->
  At f pre ((if sep then sepText now else printItems now) ++ tailText zs) ->
  okItems mh (S (length zs)) now = true ->
  Rep mh all f (CItems sep now) zs.
Proof.
  intros (Hf & Hm & Hok & HF) HAt Hnow. unfold Rep.
  split; [assumption|split; [assumption|split; [assumption|]]].
  exists pre, (stack_ f). cbn [cursorText]. auto.
Qed.

Lemma Rep_items_inv (mh : nat) (all : list item) f (sep : bool) now zs :
  Rep mh all f (CItems sep now) zs ->
  Base mh all f zs (stack_ f) /\
  (exists pre,
     At f pre ((if sep then sepText now else printItems now) ++ tailText zs)) /\
  okItems mh (S (length zs)) now = true.
Proof.
  intros (Hf & Hm & Hok & pre & K & HAt & HF & Hst & Hnow). subst K.
  split; [unfold Base; auto|]. split; [now exists pre|assumption].
Qed.

(** The left parenthesis of the whole FORMAT. *)
Lemma dispatch_open_first stop chk cnt flag f (c : C) :
  stack_ f = [] ->
  0 < maxHeight_ f ->
  dispatch stop chk cnt flag ch_lparen (f, c)
  = Ok (Continue (offset_ f - 1),
        (set_stack [mkIteration (offset_ f - 1) unlimited] f, c)).
Proof.
  intros Hst Hmh. unfold dispatch. rewrite bind_getControl. cbn [fst snd].
  change (ch_lparen =? ch_lparen) with true. cbv iota. unfold openParen.
  unfold height_. rewrite Hst. cbn [length Z.of_nat].
  destruct (Z.geb_spec 0 (maxHeight_ f)); [lia|].
  change (0 =? 0) with true. rewrite orb_true_r.
  unfold bind, pushFrame, onControl, ret. cbn [fst snd]. now rewrite Hst.
Qed.

Lemma sim_init (mh : nat) (all : list item) chk f (c : C) :
  Rep mh all f CInit [] ->
  TripSim mh all chk f c
    (absStep (flatItems all) (acts all CInit [], scale_ f, c)).
Proof.
  intros (Hf & Hm & Hok & pre & K & HAt & Hpre & _ & Hst & Hmh). subst pre.
  cbn [acts absStep TripSim cursorText] in *.
  unfold printFormat in HAt.
  pose proof (trip_count false chk f [] [] ch_lparen (printItems all ++ [ch_rparen]) c
                HAt eq_refl eq_refl) as Htrip.
  cbn [length Nat.add countValue] in Htrip.
  rewrite dispatch_open_first in Htrip by (cbn; try assumption; rewrite ?Hm; lia).
  pose proof (At_advance f [] [ch_lparen] _ HAt) as HAt1.
  change (length [ch_lparen]) with 1%nat in HAt1.
  rewrite (At_offset _ _ _ HAt1) in Htrip. cbn [app length Z.of_nat] in Htrip.
  change (Z.pos 1 - 1) with 0 in Htrip.
  eexists _, (CItems false all), [], 0. split; [exact Htrip|].
  split; [|split; [|split; [reflexivity|right; reflexivity]]].
  - apply (Rep_items _ _ _ false all [] ([] ++ [ch_lparen])).
    + unfold Base. cbn. repeat split; try assumption. constructor.
    + exact HAt1.
    + exact Hok.
  - cbn [acts actsUp]. now rewrite app_nil_r.
Qed.


Lemma trip_close chk f pre t (c : C) :
  At f pre (ch_rparen :: t) ->
  CueUpTrip false chk (f, c)
  = dispatch false chk None false ch_rparen (advance 1 f, c).
Proof.
  intros HAt.
  exact (trip_count false chk f pre [] ch_rparen t c HAt eq_refl eq_refl).
Qed.

Lemma sim_close (mh : nat) (all : list item) chk f (c : C) (sep : bool) zs :
  Rep mh all f (CItems sep []) zs ->
  okCheck chk ->
  TripSim mh all chk f c
    (absStep (flatItems all) (acts all (CItems sep []) zs, scale_ f, c)).
Proof.
  intros HRep Hchk.
  destruct (Rep_items_inv _ _ _ _ _ _ HRep) as (HB & (pre & HAt) & _).
  assert (HAt' : At f pre (tailText zs)) by (destruct sep; exact HAt).
  clear HAt. pose proof HB as (Hf & Hm & Hok & HF).
  cbn [acts flatItems map concat app].
  destruct zs as [|z zs].
  - (* the right parenthesis of the FORMAT *)
    cbn [actsUp absStep tailText] in *.
    inversion HF as [HK|]; subst.
    pose proof (trip_close chk f pre [] c HAt') as Htrip.
    assert (Hst : stack_ (advance 1 f) = [mkIteration 0 unlimited])
      by (cbn [advance set_offset stack_]; now symmetry).
    assert (Hne : chk <> 1) by (destruct Hchk; lia).
    rewrite (dispatch_close_outer chk None false (advance 1 f) c Hst Hne)
      in Htrip.
    unfold liftContext. destruct (HandleSlash 1 c) as [c'| |];
      cbn [TripSim]; try exact Htrip.
    eexists _, (CItems false all), [], chk. split; [exact Htrip|].
    split; [|split; [|split; [reflexivity|exact Hchk]]].
    + apply (Rep_items _ _ _ false all [] [ch_lparen]).
      * apply (Base_moved _ _ f); [|reflexivity|reflexivity].
        exact HB.
      * apply (At_set_offset (advance 1 f) _ _ [ch_lparen]
                 (printItems all ++ tailText [])
                 (At_advance f pre [ch_rparen] [] HAt')).
        exact Hf.
      * exact Hok.
    + cbn [acts actsUp]. now rewrite app_nil_r.
  - (* the right parenthesis of a group *)
    cbn [actsUp absStep TripSim].
    rewrite tailText_cons in HAt'.
    pose proof (trip_close chk f pre _ c HAt') as Htrip.
    inversion HF as [|z' zs' K pre' HF' HFeq Hbody Hafter Ez EK]; subst z' zs'.
    pose proof (Frames_nonempty _ _ _ _ HF') as HKne.
    destruct (zleft z) as [|r] eqn:Hleft.
    + (* last pass *)
      assert (Hst : stack_ (advance 1 f)
                    = mkIteration (Z.of_nat (length pre')) 0 :: K)
        by (cbn [advance set_offset stack_]; now symmetry).
      rewrite (dispatch_close_last false chk None false (advance 1 f)
                 (Z.of_nat (length pre')) K c Hst HKne) in Htrip.
      eexists _, (CItems true (zafter z)), zs, chk. split; [exact Htrip|].
      split; [|split; [|split; [reflexivity|exact Hchk]]].
      * apply (Rep_items _ _ _ true (zafter z) zs (pre ++ [ch_rparen])).
        -- unfold Base. cbn [format_ maxHeight_ stack_ set_stack set_offset advance].
           auto.
        -- apply At_set_stack.
           exact (At_advance f pre [ch_rparen] _ HAt').
        -- exact Hafter.
      * cbn [acts repeatList List.repeat concat app]. reflexivity.
    + (* passes left *)
      assert (Hst : stack_ (advance 1 f)
                    = mkIteration (Z.of_nat (length pre')) (Z.of_nat (S r)) :: K)
        by (cbn [advance set_offset stack_]; now symmetry).
      rewrite (dispatch_close_again false chk None false (advance 1 f)
                 (Z.of_nat (length pre')) r K c Hst HKne) in Htrip.
      set (z' := mkZ (zbody z) r (zafter z)).
      eexists _, (CItems false (zbody z)), (z' :: zs), chk.
      split; [exact Htrip|].
      split; [|split; [|split; [reflexivity|exact Hchk]]].
      * replace (Z.of_nat (length pre') + 1)
          with (Z.of_nat (length (pre' ++ [ch_lparen])))
          by (rewrite length_app; cbn [length]; lia).
        apply (Rep_items _ _ _ false (zbody z) (z' :: zs) (pre' ++ [ch_lparen])).
        -- unfold Base.
           cbn [format_ maxHeight_ stack_ set_stack set_offset advance].
           repeat split; try assumption.
           change (Z.of_nat r) with (Z.of_nat (zleft z')).
           apply Frames_cons; try assumption.
        -- apply (At_set_offset _ _ _ (pre' ++ [ch_lparen])
                    (printItems (zbody z) ++ tailText (z' :: zs))
                    (At_set_stack _ _ _ _ (At_advance f pre [ch_rparen] _ HAt'))).
           cbn [format_ set_stack advance set_offset].
           rewrite <- app_assoc. exact HFeq.
        -- exact Hbody.
      * cbn [acts actsUp]. subst z'. cbn [zbody zleft zafter].
        rewrite repeatList_S, <- !app_assoc. reflexivity.
Qed.

End Sim.

Ltac lists :=
  repeat (rewrite <- app_assoc || rewrite <- app_comm_cons || rewrite app_nil_l);
  try reflexivity.

Section SimItems.
Context {C : Type} {ctx : FormatContext C}.

Lemma TripSim_eq (mh : nat) (all : list item) chk f f0 (c : C) r :
  CueUpTrip false chk (f, c) = CueUpTrip false chk (f0, c) ->
  TripSim mh all chk f0 c r -> TripSim mh all chk f c r.
Proof.
  intros E. unfold TripSim. rewrite E. exact (fun H => H).
Qed.

Lemma text_nonempty now zs :
  exists y r, printItems now ++ tailText zs = y :: r.
Proof.
  destruct (tailText_head zs) as (t & Ht).
  destruct (printItems now) as [|y r]; cbn [app]; rewrite ?Ht; eauto.
Qed.

(** The scan of a list of items starts at its first item, past the comma
    before it if there is one. *)
Lemma Rep_head (mh : nat) (all : list item) chk f (c : C) sep x now zs :
  Rep mh all f (CItems sep (x :: now)) zs ->
  exists f0 pre,
    CueUpTrip false chk (f, c) = CueUpTrip false chk (f0, c) /\
    Base mh all f0 zs (stack_ f0) /\
    At f0 pre (print x ++ sepText now ++ tailText zs) /\
    scale_ f0 = scale_ f /\
    okItem mh (S (length zs)) x = true /\
    okItems mh (S (length zs)) now = true.
Proof.
  intros HRep.
  destruct (Rep_items_inv _ _ _ _ _ _ HRep) as (HB & (pre & HAt) & Hok).
  cbn [okItems forallb] in Hok. apply andb_true_iff in Hok as (Hx & Hnow).
  destruct sep.
  - cbn [sepText] in HAt.
    destruct (text_nonempty (x :: now) zs) as (y & r & Hyr).
    change ((ch_comma :: printItems (x :: now)) ++ tailText zs)
      with (ch_comma :: (printItems (x :: now) ++ tailText zs)) in HAt.
    pose proof HAt as HAt0. rewrite Hyr in HAt0.
    exists (advance 1 f), (pre ++ [ch_comma]).
    split; [exact (trip_skip_comma false chk f pre y r c HAt0)|].
    split; [exact HB|]. split; [|auto].
    pose proof (At_advance f pre [ch_comma] _ HAt) as HAt1.
    rewrite printItems_cons, <- app_assoc in HAt1. exact HAt1.
  - exists f, pre. split; [reflexivity|]. split; [exact HB|].
    split; [|auto]. rewrite printItems_cons, <- app_assoc in HAt. exact HAt.
Qed.

Lemma Base_stack (mh : nat) (all : list item) f zs :
  Base mh all f zs (stack_ f) ->
  stack_ f <> [] /\ height_ f = Z.of_nat (S (length zs)).
Proof.
  intros (_ & _ & _ & HF). split; [exact (Frames_nonempty _ _ _ _ HF)|].
  unfold height_. now rewrite (Frames_length _ _ _ _ HF).
Qed.

(** A left parenthesis opens a group. *)
Lemma sim_group (mh : nat) (all : list item) chk f (c : C) pre cnt body now zs :
  Base mh all f zs (stack_ f) ->
  At f pre (print (IGroup cnt body) ++ sepText now ++ tailText zs) ->
  okItem mh (S (length zs)) (IGroup cnt body) = true ->
  okItems mh (S (length zs)) now = true ->
  okCheck chk ->
  TripSim mh all chk f c
    (absStep (flatItems all)
       (flat (IGroup cnt body) ++ flatItems now ++ actsUp zs, scale_ f, c)).
Proof.
  intros HB HAt Hx Hnow Hchk.
  cbn [okItem] in Hx.
  apply andb_true_iff in Hx as (Hx & Hbody).
  apply andb_true_iff in Hx as (Hcnt & Hh). apply Nat.ltb_lt in Hh.
  destruct (Base_stack _ _ _ _ HB) as (Hst & Hheight).
  pose proof HB as (Hf & Hm & Hok & HF).
  set (z := mkZ body (laps cnt - 1) now).
  assert (HAt0 : At f pre (cnt ++ ch_lparen :: printItems body ++ tailText (z :: zs))).
  { rewrite tailText_cons. subst z. cbn [zafter].
    cbn [print] in HAt. fold (printItems body) in HAt.
    rewrite <- !app_assoc in HAt. cbn [app] in HAt |- *.
    rewrite <- !app_assoc in HAt. exact HAt. }
  pose proof (trip_count false chk f pre cnt ch_lparen _ c HAt0 Hcnt eq_refl)
    as Htrip.
  pose proof (At_advance f pre (cnt ++ [ch_lparen])
                (printItems body ++ tailText (z :: zs))) as HAt1.
  rewrite <- app_assoc in HAt1. specialize (HAt1 HAt0).
  rewrite length_app in HAt1. cbn [length] in HAt1.
  rewrite (dispatch_open false chk cnt (advance (length cnt + 1) f) c) in Htrip;
    [|exact Hst|change (height_ f < maxHeight_ f); rewrite Hheight, Hm; lia].
  cbn [flat app absStep TripSim].
  eexists _, (CItems false body), (z :: zs), chk.
  split; [exact Htrip|].
  split; [|split; [|split; [reflexivity|exact Hchk]]].
  - apply (Rep_items _ _ _ false body (z :: zs) (pre ++ cnt ++ [ch_lparen])).
    + unfold Base.
      cbn [format_ maxHeight_ stack_ offset_ set_stack set_offset advance].
      repeat split; try assumption.
      replace (offset_ f + Z.of_nat (length cnt + 1) - 1)
        with (Z.of_nat (length (pre ++ cnt)))
        by (rewrite (At_offset _ _ _ HAt0), length_app; lia).
      replace (Z.of_nat (laps cnt) - 1) with (Z.of_nat (zleft z))
        by (subst z; cbn [zleft]; pose proof (laps_pos cnt); lia).
      apply Frames_cons; try assumption.
      rewrite (At_format _ _ _ HAt0), <- app_assoc. reflexivity.
    + apply At_set_stack. exact HAt1.
    + exact Hbody.
  - cbn [acts actsUp]. subst z. cbn [zbody zleft zafter].
    pose proof (laps_pos cnt) as Hl.
    destruct (laps cnt) as [|n]; [lia|].
    replace (S n - 1)%nat with n by lia.
    rewrite repeatList_S. unfold flatItems. lists.
Qed.


Lemma Rep_next (mh : nat) (all : list item) f f' pre' now zs :
  Base mh all f zs (stack_ f) ->
  At f' pre' (sepText now ++ tailText zs) ->
  format_ f' = format_ f -> maxHeight_ f' = maxHeight_ f ->
  stack_ f' = stack_ f ->
  okItems mh (S (length zs)) now = true ->
  Rep mh all f' (CItems true now) zs.
Proof.
  intros HB HAt Ef Em Es Hnow.
  apply (Rep_items _ _ _ true now zs pre'); [|exact HAt|exact Hnow].
  rewrite Es. exact (Base_moved _ _ _ _ _ _ HB Ef Em).
Qed.

(** A control edit descriptor of one letter acts on the modes. *)
Lemma sim_control (mh : nat) (all : list item) chk f (c : C) pre cnt a now zs :
  Base mh all f zs (stack_ f) ->
  At f pre (print (ICtl cnt a) ++ sepText now ++ tailText zs) ->
  okItem mh (S (length zs)) (ICtl cnt a) = true ->
  okItems mh (S (length zs)) now = true ->
  okCheck chk ->
  TripSim mh all chk f c
    (absStep (flatItems all)
       (flat (ICtl cnt a) ++ flatItems now ++ actsUp zs, scale_ f, c)).
Proof.
  intros HB HAt Hx Hnow Hchk.
  cbn [okItem] in Hx.
  repeat (apply andb_true_iff in Hx as (Hx & ?)).
  repeat match goal with
         | H : negb _ = true |- _ => apply negb_true_iff in H
         end.
  destruct (Base_stack _ _ _ _ HB) as (Hst & _).
  cbn [print] in HAt. rewrite <- app_assoc in HAt.
  change ([a] ++ sepText now ++ tailText zs)
    with (a :: sepText now ++ tailText zs) in HAt.
  pose proof (trip_count false chk f pre cnt a _ c HAt Hx
                (upper_mainChar a ltac:(assumption))) as Htrip.
  pose proof (At_advance f pre (cnt ++ [a]) (sepText now ++ tailText zs)) as HAt1.
  rewrite <- app_assoc in HAt1. specialize (HAt1 HAt).
  rewrite length_app in HAt1. cbn [length] in HAt1.
  destruct (delim_facts _ (delim_after now zs)) as (_ & Hup & _).
  rewrite (dispatch_control false chk (countValue cnt) false a
             (advance (length cnt + 1) f) _ _ c HAt1 Hst) in Htrip;
    try assumption; try (apply Z.eqb_neq; assumption).
  cbn [flat app absStep].
  change (scale_ (advance (length cnt + 1) f)) with (scale_ f) in Htrip.
  destruct (controlEffect a (countOf (countValue cnt)) (scale_ f) c)
    as [[scale' c']| |]; cbn [TripSim]; try exact Htrip.
  eexists _, (CItems true now), zs, chk. split; [exact Htrip|].
  split; [|split; [reflexivity|split; [reflexivity|exact Hchk]]].
  apply (Rep_next _ _ f _ (pre ++ cnt ++ [a])); try assumption; try reflexivity.
Qed.

(** A slash ends the record. *)
Lemma sim_slash (mh : nat) (all : list item) chk f (c : C) pre cnt now zs :
  Base mh all f zs (stack_ f) ->
  At f pre (print (ISlash cnt) ++ sepText now ++ tailText zs) ->
  okItem mh (S (length zs)) (ISlash cnt) = true ->
  okItems mh (S (length zs)) now = true ->
  okCheck chk ->
  TripSim mh all chk f c
    (absStep (flatItems all)
       (flat (ISlash cnt) ++ flatItems now ++ actsUp zs, scale_ f, c)).
Proof.
  intros HB HAt Hx Hnow Hchk.
  cbn [okItem] in Hx.
  destruct (Base_stack _ _ _ _ HB) as (Hst & _).
  cbn [print] in HAt. rewrite <- app_assoc in HAt.
  change ([ch_slash] ++ sepText now ++ tailText zs)
    with (ch_slash :: sepText now ++ tailText zs) in HAt.
  pose proof (trip_count false chk f pre cnt ch_slash _ c HAt Hx eq_refl)
    as Htrip.
  pose proof (At_advance f pre (cnt ++ [ch_slash])
                (sepText now ++ tailText zs)) as HAt1.
  rewrite <- app_assoc in HAt1. specialize (HAt1 HAt).
  rewrite length_app in HAt1. cbn [length] in HAt1.
  rewrite (dispatch_slash false chk (countValue cnt) false
             (advance (length cnt + 1) f) c Hst) in Htrip.
  cbn [flat app absStep]. unfold liftContext.
  destruct (HandleSlash (countOf (countValue cnt)) c) as [c'| |];
    cbn [TripSim]; try exact Htrip.
  eexists _, (CItems true now), zs, chk. split; [exact Htrip|].
  split; [|split; [reflexivity|split; [reflexivity|exact Hchk]]].
  apply (Rep_next _ _ f _ (pre ++ cnt ++ [ch_slash]));
    try assumption; reflexivity.
Qed.

(** A character literal is emitted. *)
Lemma sim_literal (mh : nat) (all : list item) chk f (c : C) pre q body now zs :
  Base mh all f zs (stack_ f) ->
  At f pre (print (ILit q body) ++ sepText now ++ tailText zs) ->
  okItem mh (S (length zs)) (ILit q body) = true ->
  okItems mh (S (length zs)) now = true ->
  okCheck chk ->
  TripSim mh all chk f c
    (absStep (flatItems all)
       (flat (ILit q body) ++ flatItems now ++ actsUp zs, scale_ f, c)).
Proof.
  intros HB HAt Hx Hnow Hchk.
  cbn [okItem] in Hx. apply andb_true_iff in Hx as (Hq & Hbody).
  destruct (Base_stack _ _ _ _ HB) as (Hst & _).
  set (rest := sepText now ++ tailText zs) in *.
  assert (HAt0 : At f pre ([] ++ q :: body ++ q :: rest)).
  { cbn [print] in HAt. cbn [app] in HAt |- *.
    rewrite <- app_assoc in HAt. exact HAt. }
  assert (Hmain : mainChar q = true).
  { apply orb_true_iff in Hq as [Hq|Hq]; apply Z.eqb_eq in Hq; subst q;
      reflexivity. }
  pose proof (trip_count false chk f pre [] q _ c HAt0 eq_refl Hmain) as Htrip.
  pose proof (At_advance f pre [q] (body ++ q :: rest) HAt0) as HAt1.
  assert (Hnext : hd ch_nul rest <> q).
  { destruct (delim_after now zs) as [E|E]; fold rest in E; rewrite E;
      apply orb_true_iff in Hq as [Hq|Hq]; apply Z.eqb_eq in Hq; subst q;
      discriminate. }
  cbn [length Nat.add countValue] in Htrip, HAt1.
  rewrite (dispatch_literal false chk None false q body (advance 1 f)
             (pre ++ [q]) rest c HAt1 Hq Hbody Hnext Hst) in Htrip.
  cbn [flat app absStep]. unfold liftContext.
  destruct (Emit body c) as [c'| |]; cbn [TripSim]; try exact Htrip.
  eexists _, (CItems true now), zs, chk. split; [exact Htrip|].
  split; [|split; [reflexivity|split; [reflexivity|exact Hchk]]].
  pose proof (At_advance (advance 1 f) (pre ++ [q]) (body ++ [q]) rest) as HAt2.
  rewrite <- app_assoc in HAt2. specialize (HAt2 HAt1).
  rewrite length_app in HAt2. cbn [length] in HAt2.
  apply (Rep_next _ _ f _ _ now zs HB HAt2); try assumption; reflexivity.
Qed.

(** A Hollerith field is emitted. *)
Lemma sim_hollerith (mh : nat) (all : list item) chk f (c : C) pre cnt payload
    now zs :
  Base mh all f zs (stack_ f) ->
  At f pre (print (IHol cnt payload) ++ sepText now ++ tailText zs) ->
  okItem mh (S (length zs)) (IHol cnt payload) = true ->
  okItems mh (S (length zs)) now = true ->
  okCheck chk ->
  TripSim mh all chk f c
    (absStep (flatItems all)
       (flat (IHol cnt payload) ++ flatItems now ++ actsUp zs, scale_ f, c)).
Proof.
  intros HB HAt Hx Hnow Hchk.
  cbn [okItem] in Hx. apply andb_true_iff in Hx as (Hx & Hlen).
  apply andb_true_iff in Hx as (Hnum & Hval).
  apply Z.eqb_eq in Hval. apply negb_true_iff, Nat.eqb_neq in Hlen.
  destruct (Base_stack _ _ _ _ HB) as (Hst & _).
  set (rest := sepText now ++ tailText zs) in *.
  assert (HAt0 : At f pre (cnt ++ ch_H :: payload ++ rest)).
  { cbn [print] in HAt. rewrite <- app_assoc in HAt. exact HAt. }
  assert (Hcnt : okCount cnt = true).
  { destruct cnt; [discriminate|exact Hnum]. }
  assert (Hcv : countValue cnt = Some (Z.of_nat (length payload))).
  { destruct cnt; [discriminate|]. cbn [countValue]. now rewrite Hval. }
  pose proof (trip_count false chk f pre cnt ch_H _ c HAt0 Hcnt eq_refl)
    as Htrip.
  pose proof (At_advance f pre (cnt ++ [ch_H]) (payload ++ rest)) as HAt1.
  rewrite <- app_assoc in HAt1. specialize (HAt1 HAt0).
  rewrite length_app in HAt1. cbn [length] in HAt1.
  assert (Hne : payload <> []) by (destruct payload; [contradiction|discriminate]).
  rewrite (dispatch_hollerith false chk cnt false payload
             (advance (length cnt + 1) f) _ rest c HAt1 Hcv Hne Hst) in Htrip.
  cbn [flat app absStep]. unfold liftContext.
  destruct (Emit payload c) as [c'| |]; cbn [TripSim]; try exact Htrip.
  eexists _, (CItems true now), zs, chk. split; [exact Htrip|].
  split; [|split; [reflexivity|split; [reflexivity|exact Hchk]]].
  pose proof (At_advance (advance (length cnt + 1) f) _ payload rest HAt1)
    as HAt2.
  apply (Rep_next _ _ f _ _ now zs HB HAt2); try assumption; reflexivity.
Qed.

End SimItems.

Lemma set_offset_eq a b f : a = b -> set_offset a f = set_offset b f.
Proof. now intros ->. Qed.

Lemma isNumber_head w :
  isNumber w = true -> exists d0 w', w = d0 :: w' /\ isDigit d0 = true.
Proof.
  destruct w as [|d0 w']; [discriminate|]. cbn [isNumber digitsFitFrom].
  intros H. apply andb_true_iff in H as (H & _).
  apply andb_true_iff in H as (H & _). eauto.
Qed.

Lemma digit_not_upper d : isDigit d = true -> isUpper (Capitalize d) = false.
Proof.
  intros H. destruct (digit_facts d H) as (_ & _ & _ & _ & _ & ->).
  apply isDigit_range in H. unfold isUpper.
  destruct (Z.leb_spec 65 d); [lia|reflexivity].
Qed.

Lemma data_mainChar a : (a =? ch_E) || isDataLetter a = true -> mainChar a = true.
Proof.
  intros H. apply dataLetter_cases in H.
  repeat (destruct H as [H|H]; [subst a; reflexivity|]). subst a; reflexivity.
Qed.

Lemma data_not_lparen a : (a =? ch_E) || isDataLetter a = true -> a <> ch_lparen.
Proof.
  intros H. apply dataLetter_cases in H. lia.
Qed.

Lemma repeatList_single {A} (y : A) n : repeatList n [y] = List.repeat y n.
Proof.
  induction n as [|n IH]; [reflexivity|].
  rewrite repeatList_S, IH. reflexivity.
Qed.

Section SimData.
Context {C : Type} {ctx : FormatContext C}.

(** The scan stops at a data edit descriptor, which [GetNext] then reads
    to its end. *)
Lemma data_trip (mh h : nat) chk f (c : C) pre cnt a v w d e rest :
  At f pre (cnt ++ print (IData [] a v w d e) ++ rest) ->
  okItem mh h (IData cnt a v w d e) = true ->
  isDelim rest ->
  stack_ f <> [] ->
  CueUpTrip false chk (f, c)
  = Ok (Return (countOf (countValue cnt)),
        (set_offset (Z.of_nat (length (pre ++ cnt))) f, c)) /\
  readDataEdit (set_offset (Z.of_nat (length (pre ++ cnt))) f, c)
  = Ok (mkEdit a (match v with Some v => v | None => ch_nul end)
          (digitsValue w) (option_map digitsValue d)
          (option_map (fun le => digitsValue (snd le)) e) (mutableModes c),
        (set_offset
           (Z.of_nat (length (pre ++ cnt))
            + Z.of_nat (length (print (IData [] a v w d e)))) f, c)) /\
  At (set_offset
        (Z.of_nat (length (pre ++ cnt))
         + Z.of_nat (length (print (IData [] a v w d e)))) f)
     (pre ++ cnt ++ print (IData [] a v w d e)) rest.
Proof.
  intros HAt Hx Hrest Hst.
  pose proof Hx as Hx0. cbn [okItem] in Hx0.
  apply andb_true_iff in Hx0 as (Hx0 & He).
  apply andb_true_iff in Hx0 as (Hx0 & Hd).
  apply andb_true_iff in Hx0 as (Hx0 & Hw).
  apply andb_true_iff in Hx0 as (Hx0 & Hv).
  apply andb_true_iff in Hx0 as (Hcnt & Ha).
  set (tl := varText v ++ w ++ dotText d ++ expoText e ++ rest).
  assert (HAt0 : At f pre (cnt ++ a :: tl)).
  { rewrite print_uncounted in HAt. subst tl.
    rewrite <- !app_comm_cons, <- !app_assoc in HAt. exact HAt. }
  pose proof (trip_count false chk f pre cnt a tl c HAt0 Hcnt (data_mainChar a Ha))
    as Htrip.
  pose proof (At_advance f pre (cnt ++ [a]) tl) as HAt1.
  rewrite <- app_assoc in HAt1. specialize (HAt1 HAt0).
  rewrite length_app in HAt1. cbn [length] in HAt1.
  assert (Hnext : a <> ch_E -> isUpper (Capitalize (hd ch_nul tl)) = false).
  { intros HaE. subst tl. destruct v as [v|].
    - apply andb_true_iff in Hv as (Hv & _). apply Z.eqb_eq in Hv. contradiction.
    - destruct (isNumber_head w Hw) as (d0 & w' & -> & Hd0).
      cbn [varText app hd]. exact (digit_not_upper d0 Hd0). }
  rewrite (dispatch_data false chk (countValue cnt) false a
             (advance (length cnt + 1) f) _ tl c HAt1 Hst Ha Hnext) in Htrip.
  cbn [advance offset_ set_offset scale_ maxHeight_ stack_ format_ formatLength_]
    in Htrip.
  assert (Hfrom : offset_ f + Z.of_nat (length cnt + 1) - 1
                  = Z.of_nat (length (pre ++ cnt))).
  { rewrite (At_offset _ _ _ HAt0), length_app. lia. }
  rewrite Hfrom in Htrip. fold (set_offset (Z.of_nat (length (pre ++ cnt))) f) in Htrip.
  split; [exact Htrip|].
  assert (HAt2 : At (set_offset (Z.of_nat (length (pre ++ cnt))) f) (pre ++ cnt)
                   (print (IData [] a v w d e) ++ rest)).
  { apply (At_set_offset f _ _ (pre ++ cnt) _ HAt).
    rewrite (At_format _ _ _ HAt), <- app_assoc. reflexivity. }
  split.
  - exact (readDataEdit_ok mh h cnt a v w d e _ _ rest c HAt2 Hx Hrest).
  - pose proof (At_advance _ _ _ _ HAt2) as HAt3.
    rewrite <- app_assoc in HAt3. exact HAt3.
Qed.

End SimData.

Lemma countOf_pos r : 1 <= countOf r.
Proof.
  unfold countOf. destruct r as [n|]; [|lia]. destruct (Z.gtb_spec n 0); lia.
Qed.

Lemma okItem_uncounted mh h cnt a v w d e :
  okItem mh h (IData cnt a v w d e) = true ->
  okItem mh h (IData [] a v w d e) = true.
Proof.
  cbn [okItem okCount]. intros H.
  destruct (okCount cnt); [exact H|discriminate].
Qed.

(** The frame on top of the stack of a scan inside groups starts at a
    left parenthesis. *)
Lemma Frames_top mh F zs K t :
  Frames mh F zs K -> F = ch_lparen :: t ->
  exists top below pre t',
    K = top :: below /\ F = pre ++ ch_lparen :: t' /\
    start top = Z.of_nat (length pre).
Proof.
  intros HF HFt. destruct HF as [|z zs K pre HF HFeq Hb Ha].
  - exists (mkIteration 0 unlimited), [], [], t. auto.
  - eexists _, K, pre, _. split; [reflexivity|]. split; [exact HFeq|reflexivity].
Qed.

Section SimRepeat.
Context {C : Type} {ctx : FormatContext C}.

Lemma Base_top (mh : nat) (all : list item) f zs :
  Base mh all f zs (stack_ f) ->
  exists top below,
    stack_ f = top :: below /\ charAt f (start top) = ch_lparen.
Proof.
  intros (Hf & _ & _ & HF).
  destruct (Frames_top _ _ _ _ (printItems all ++ [ch_rparen]) HF Hf)
    as (top & below & pre & t' & HK & HFeq & Hstart).
  exists top, below. split; [exact HK|].
  rewrite Hstart. exact (charAt_at f pre ch_lparen t' HFeq).
Qed.

(** A data edit descriptor is handed out, and a repeat count above one
    is kept in a frame of its own. *)
Lemma sim_data (mh : nat) (all : list item) chk f (c : C) pre cnt a v w d e
    now zs :
  Base mh all f zs (stack_ f) ->
  At f pre (print (IData cnt a v w d e) ++ sepText now ++ tailText zs) ->
  okItem mh (S (length zs)) (IData cnt a v w d e) = true ->
  okItems mh (S (length zs)) now = true ->
  TripSim mh all chk f c
    (absStep (flatItems all)
       (flat (IData cnt a v w d e) ++ flatItems now ++ actsUp zs, scale_ f, c)).
Proof.
  intros HB HAt Hx Hnow.
  destruct (Base_stack _ _ _ _ HB) as (Hst & _).
  set (rest := sepText now ++ tailText zs) in *.
  assert (HAt0 : At f pre (cnt ++ print (IData [] a v w d e) ++ rest)).
  { change (print (IData cnt a v w d e))
      with (cnt ++ print (IData [] a v w d e)) in HAt.
    rewrite <- app_assoc in HAt. exact HAt. }
  destruct (data_trip mh _ chk f c pre cnt a v w d e rest HAt0 Hx
              (delim_after now zs) Hst) as (Htrip & Hread & HAt3).
  set (from := Z.of_nat (length (pre ++ cnt))) in *.
  set (P := print (IData [] a v w d e)) in *.
  set (rep := countOf (countValue cnt)) in *.
  pose proof (countOf_pos (countValue cnt)) as Hrep. fold rep in Hrep.
  assert (Ha : (a =? ch_E) || isDataLetter a = true).
  { cbn [okItem] in Hx. repeat (apply andb_true_iff in Hx as (Hx & ?)).
    assumption. }
  cbn [flat]. fold rep.
  destruct (Z.to_nat rep) as [|n] eqn:Hn; [lia|].
  cbn [List.repeat app absStep TripSim].
  destruct (Z.leb_spec rep 1) as [Hle|Hgt].
  - (* applied once *)
    assert (n = 0%nat) by lia. subst n.
    eexists rep, _, _, (CItems true now), zs.
    split; [exact Htrip|]. split.
    + rewrite (bind_Ok _ _ _ _ _ Hread).
      apply chargeRepeat_plain; [exact Hle|]. right.
      destruct (Base_top _ _ _ _ HB) as (top & below & Hs & Hc).
      exists top, below. split; assumption.
    + split; [|split; reflexivity].
      apply (Rep_next _ _ f _ _ now zs HB HAt3); try assumption; reflexivity.
  - (* applied several times *)
    eexists rep, _, _, (CRepeat (IData cnt a v w d e) n now), zs.
    split; [exact Htrip|]. split.
    + rewrite (bind_Ok _ _ _ _ _ Hread).
      apply chargeRepeat_first; [exact Hgt|exact Hst|].
      change (charAt f from <> ch_lparen). unfold from.
      rewrite (charAt_at f (pre ++ cnt) a
                 (varText v ++ w ++ dotText d ++ expoText e ++ rest)).
      * exact (data_not_lparen a Ha).
      * rewrite (At_format _ _ _ HAt0). unfold P. rewrite print_uncounted.
        rewrite <- !app_comm_cons, <- !app_assoc. reflexivity.
    + split; [|split; [|reflexivity]].
      * pose proof HB as (Hf & Hm & Hok & HF).
        unfold Rep. split; [exact Hf|]. split; [exact Hm|]. split; [exact Hok|].
        exists (pre ++ cnt), (stack_ f). split.
        -- cbn [cursorText uncounted]. fold P. fold rest.
           apply (At_set_offset f _ _ (pre ++ cnt) (P ++ rest) HAt0).
           rewrite (At_format _ _ _ HAt0), <- app_assoc. reflexivity.
        -- split; [exact HF|]. split.
           ++ cbn [stack_ offset_ set_offset set_stack]. fold from.
              replace (rep - 1) with (Z.of_nat n) by lia. reflexivity.
           ++ split; [reflexivity|]. split; [exact Hx|]. split; [lia|exact Hnow].
      * cbn [acts]. change (yieldOf (IData cnt a v w d e))
          with [AYield a (match v with Some v => v | None => ch_nul end)
                  (digitsValue w) (option_map digitsValue d)
                  (option_map (fun le => digitsValue (snd le)) e)].
        now rewrite repeatList_single.
Qed.


(** A data edit descriptor under a repeat count is handed out again
    until the count is used up. *)
Lemma sim_repeat (mh : nat) (all : list item) chk f (c : C) x m now zs :
  Rep mh all f (CRepeat x m now) zs ->
  TripSim mh all chk f c
    (absStep (flatItems all) (acts all (CRepeat x m now) zs, scale_ f, c)).
Proof.
  intros (Hf & Hm & Hok & pre & K & HAt & HF & Hst & Hdata & Hx & Hm1 & Hnow).
  destruct x as [cnt a v w d e| | | | |]; try discriminate. clear Hdata.
  cbn [cursorText uncounted] in HAt.
  set (rest := sepText now ++ tailText zs) in *.
  set (P := print (IData [] a v w d e)) in *.
  assert (Hne : stack_ f <> []) by (rewrite Hst; discriminate).
  destruct (data_trip mh _ chk f c pre [] a v w d e rest HAt
              (okItem_uncounted _ _ _ _ _ _ _ _ Hx)
              (delim_after now zs) Hne) as (Htrip & Hread & HAt3).
  rewrite app_nil_r in Htrip, Hread, HAt3. cbn [app] in HAt3. fold P in Hread, HAt3.
  assert (Ha : (a =? ch_E) || isDataLetter a = true).
  { cbn [okItem] in Hx. repeat (apply andb_true_iff in Hx as (Hx & ?)).
    assumption. }
  assert (Hchar : charAt f (offset_ f) <> ch_lparen).
  { rewrite (At_offset _ _ _ HAt).
    rewrite (charAt_at f pre a
               (varText v ++ w ++ dotText d ++ expoText e ++ rest)).
    - exact (data_not_lparen a Ha).
    - rewrite (At_format _ _ _ HAt). unfold P. rewrite print_uncounted.
      rewrite <- !app_comm_cons, <- !app_assoc. reflexivity. }
  pose proof (Frames_nonempty _ _ _ _ HF) as HK.
  cbn [acts]. change (yieldOf (IData cnt a v w d e))
    with [AYield a (match v with Some v => v | None => ch_nul end)
            (digitsValue w) (option_map digitsValue d)
            (option_map (fun le => digitsValue (snd le)) e)].
  rewrite repeatList_single.
  destruct m as [|n]; [lia|]. cbn [List.repeat app absStep TripSim].
  destruct n as [|n].
  - (* the last application *)
    eexists 1, _, _, (CItems true now), zs.
    split; [exact Htrip|]. split.
    + rewrite (bind_Ok _ _ _ _ _ Hread).
      apply (chargeRepeat_last _ (offset_ f)); [exact Hst|exact HK|exact Hchar].
    + split; [|split; reflexivity].
      apply (Rep_items _ _ _ true now zs (pre ++ P)).
      * unfold Base. cbn [format_ maxHeight_ stack_ set_stack set_offset]. auto.
      * apply At_set_stack. exact HAt3.
      * exact Hnow.
  - (* applications left *)
    eexists 1, _, _, (CRepeat (IData cnt a v w d e) (S n) now), zs.
    split; [exact Htrip|]. split.
    + rewrite (bind_Ok _ _ _ _ _ Hread).
      apply (chargeRepeat_more _ (offset_ f) (Z.of_nat (S (S n))));
        [exact Hst|exact HK|lia|exact Hchar].
    + split; [|split; [|reflexivity]].
      * unfold Rep. split; [exact Hf|]. split; [exact Hm|]. split; [exact Hok|].
        exists pre, K. split.
        -- cbn [cursorText uncounted]. fold P. fold rest.
           rewrite (At_offset _ _ _ HAt).
           apply (At_set_offset _ _ _ pre (P ++ rest) (At_set_stack _ _ _ _ HAt3)).
           exact (At_format _ _ _ HAt).
        -- split; [exact HF|]. split.
           ++ cbn [stack_ offset_ set_offset set_stack].
              replace (Z.of_nat (S (S n)) - 1) with (Z.of_nat (S n)) by lia.
              reflexivity.
           ++ split; [reflexivity|]. split; [exact Hx|]. split; [lia|exact Hnow].
      * cbn [acts]. change (yieldOf (IData cnt a v w d e))
          with [AYield a (match v with Some v => v | None => ch_nul end)
                  (digitsValue w) (option_map digitsValue d)
                  (option_map (fun le => digitsValue (snd le)) e)].
        now rewrite repeatList_single.
Qed.

(** Every trip of the scan takes one step of the format list. *)
Theorem trip_sim (mh : nat) (all : list item) chk f (c : C) cur zs :
  Rep mh all f cur zs ->
  okCheck chk ->
  TripSim mh all chk f c
    (absStep (flatItems all) (acts all cur zs, scale_ f, c)).
Proof.
  intros HRep Hchk. destruct cur as [|sep now|x m now].
  - assert (zs = []) as ->.
    { destruct HRep as (_ & _ & _ & pre & K & _ & _ & Hz & _). exact Hz. }
    exact (sim_init mh all chk f c HRep).
  - destruct now as [|x now]; [exact (sim_close mh all chk f c sep zs HRep Hchk)|].
    destruct (Rep_head mh all chk f c sep x now zs HRep)
      as (f0 & pre & Etrip & HB & HAt & Hscale & Hx & Hnow).
    apply (TripSim_eq mh all chk f f0 c _ Etrip).
    cbn [acts]. rewrite flatItems_cons, <- app_assoc, <- Hscale.
    destruct x as [cnt a v w d e|cnt a|cnt|q body|cnt payload|cnt body].
    + exact (sim_data mh all chk f0 c pre cnt a v w d e now zs HB HAt Hx Hnow).
    + exact (sim_control mh all chk f0 c pre cnt a now zs HB HAt Hx Hnow Hchk).
    + exact (sim_slash mh all chk f0 c pre cnt now zs HB HAt Hx Hnow Hchk).
    + exact (sim_literal mh all chk f0 c pre q body now zs HB HAt Hx Hnow Hchk).
    + exact (sim_hollerith mh all chk f0 c pre cnt payload now zs HB HAt Hx Hnow Hchk).
    + exact (sim_group mh all chk f0 c pre cnt body now zs HB HAt Hx Hnow Hchk).
  - exact (sim_repeat mh all chk f c x m now zs HRep).
Qed.

End SimRepeat.

Section SimNext.
Context {C : Type} {ctx : FormatContext C}.

Lemma GetNextFrom_continue fuel chk chk' f (c : C) f' c' :
  CueUpTrip false chk (f, c) = Ok (Continue chk', (f', c')) ->
  GetNextFrom (S fuel) chk (f, c) = GetNextFrom fuel chk' (f', c').
Proof.
  intros H. unfold GetNextFrom. cbn [CueUpLoop].
  unfold bind at 1 2. rewrite H. reflexivity.
Qed.

Lemma GetNextFrom_return fuel chk rep f (c : C) f1 c1 :
  CueUpTrip false chk (f, c) = Ok (Return rep, (f1, c1)) ->
  GetNextFrom (S fuel) chk (f, c)
  = (e <- readDataEdit ;; chargeRepeat rep (offset_ f1) 1 e) (f1, c1).
Proof.
  intros H. unfold GetNextFrom. cbn [CueUpLoop].
  unfold bind at 1 2. rewrite H. reflexivity.
Qed.

Lemma GetNextFrom_stuck fuel chk f (c : C) :
  (forall msg, CueUpTrip false chk (f, c) = Crash msg ->
               GetNextFrom (S fuel) chk (f, c) = Crash msg) /\
  (CueUpTrip false chk (f, c) = OutOfFuel ->
   GetNextFrom (S fuel) chk (f, c) = OutOfFuel).
Proof.
  split; [intros msg H|intros H]; unfold GetNextFrom; cbn [CueUpLoop];
    unfold bind at 1 2; rewrite H; reflexivity.
Qed.

Theorem GetNextFrom_sim (mh : nat) (all : list item) fuel :
  forall chk f (c : C) cur zs,
    Rep mh all f cur zs -> okCheck chk ->
    NextSim mh all
      (absNext (flatItems all) fuel (acts all cur zs, scale_ f, c))
      (GetNextFrom fuel chk (f, c)).
Proof.
  induction fuel as [|fuel IH]; intros chk f c cur zs HRep Hchk.
  - reflexivity.
  - pose proof (trip_sim mh all chk f c cur zs HRep Hchk) as Hsim.
    cbn [absNext].
    destruct (absStep (flatItems all) (acts all cur zs, scale_ f, c))
      as [[[edit|] [[a' scale'] c']]|msg|]; cbn [TripSim] in Hsim.
    + destruct Hsim as (rep & f1 & f' & cur' & zs' & Htrip & Hread & HRep' & Ha & Hs).
      cbn [NextSim]. exists f', cur', zs'.
      rewrite (GetNextFrom_return fuel chk rep f c f1 c Htrip). auto.
    + destruct Hsim as (f' & cur' & zs' & chk' & Htrip & HRep' & Ha & Hs & Hchk').
      rewrite (GetNextFrom_continue fuel chk chk' f c f' c' Htrip).
      subst a' scale'. exact (IH chk' f' c' cur' zs' HRep' Hchk').
    + cbn [NextSim]. exact (proj1 (GetNextFrom_stuck fuel chk f c) msg Hsim).
    + cbn [NextSim]. exact (proj2 (GetNextFrom_stuck fuel chk f c) Hsim).
Qed.

Lemma GetNext_GetNextFrom fuel : GetNext fuel 1 = GetNextFrom fuel (-1).
Proof. reflexivity. Qed.

Theorem walk_sim (mh : nat) (all : list item) fuel k :
  forall f (c : C) cur zs,
    Rep mh all f cur zs ->
    WalkSim mh all
      (absWalk (flatItems all) fuel k (acts all cur zs, scale_ f, c))
      (walk fuel k (f, c)).
Proof.
  induction k as [|k IH]; intros f c cur zs HRep.
  - cbn [absWalk walk WalkSim]. exists f, cur, zs. auto.
  - cbn [absWalk walk]. rewrite GetNext_GetNextFrom.
    pose proof (GetNextFrom_sim mh all fuel (-1) f c cur zs HRep
                  (or_introl eq_refl)) as Hnext.
    destruct (absNext (flatItems all) fuel (acts all cur zs, scale_ f, c))
      as [[e [[a1 scale1] c1]]|msg|]; cbn [NextSim] in Hnext.
    + destruct Hnext as (f1 & cur1 & zs1 & Hm & HRep1 & Ha & Hs).
      unfold bind at 1. rewrite Hm. subst a1 scale1.
      specialize (IH f1 c1 cur1 zs1 HRep1).
      destruct (absWalk (flatItems all) fuel k (acts all cur1 zs1, scale_ f1, c1))
        as [[es [[a2 scale2] c2]]|msg|]; cbn [WalkSim] in IH |- *.
      * destruct IH as (f2 & cur2 & zs2 & Hw & HRep2 & Ha2 & Hs2).
        exists f2, cur2, zs2. unfold bind. rewrite Hw. auto.
      * unfold bind. now rewrite IH.
      * unfold bind. now rewrite IH.
    + cbn [WalkSim]. unfold bind at 1. now rewrite Hnext.
    + cbn [WalkSim]. unfold bind at 1. now rewrite Hnext.
Qed.

End SimNext.

Section Erasure.
Context {C : Type} {ctx : FormatContext C}.

Lemma eraseOutcome_fuel {A} (r : outcome (A * @absState C)) :
  r <> OutOfFuel -> eraseOutcome r <> OutOfFuel.
Proof. destruct r as [[x [[cur scale] c]]| |]; cbn; congruence. Qed.

Lemma absNext_more all fuel :
  forall s, absNext all fuel s <> OutOfFuel ->
            absNext all (S fuel) s = absNext all fuel s.
Proof.
  induction fuel as [|fuel IH]; intros s H; [now contradiction H|].
  cbn [absNext] in H |- *.
  destruct (absStep all s) as [[[edit|] s']|msg|]; try reflexivity.
  exact (IH s' H).
Qed.

Lemma absNext_mono all fuel n s :
  absNext all fuel s <> OutOfFuel ->
  absNext all (fuel + n) s = absNext all fuel s.
Proof.
  intros H. induction n as [|n IH]; [now rewrite Nat.add_0_r|].
  rewrite Nat.add_succ_r, absNext_more; [exact IH|]. now rewrite IH.
Qed.

Lemma absWalk_mono all fuel n k :
  forall s, absWalk all fuel k s <> OutOfFuel ->
            absWalk all (fuel + n) k s = absWalk all fuel k s.
Proof.
  induction k as [|k IH]; intros s H; [reflexivity|].
  cbn [absWalk] in H |- *.
  destruct (absNext all fuel s) as [[e s']|msg|] eqn:E; try congruence.
  - rewrite absNext_mono, E by (rewrite E; discriminate).
    rewrite IH; [reflexivity|].
    destruct (absWalk all fuel k s') as [[es s'']|msg|]; congruence.
  - rewrite absNext_mono, E by (rewrite E; discriminate). reflexivity.
Qed.

(** Removing the pauses from a format list does not change what it
    hands out. *)
Lemma absNext_erase all fuel :
  forall cur scale (c : C),
    absNext all fuel (cur, scale, c) <> OutOfFuel ->
    absNext (erase all) fuel (erase cur, scale, c)
    = eraseOutcome (absNext all fuel (cur, scale, c)).
Proof.
  induction fuel as [|fuel IH]; intros cur scale c H; [now contradiction H|].
  destruct cur as [|a cur'].
  - cbn [absNext absStep erase filter] in H |- *. unfold liftContext in *.
    destruct (HandleSlash 1 c) as [c'| |]; try reflexivity.
    exact (IH all scale c' H).
  - destruct a as [|data|n|letter n|descr var w d e].
    + change (erase (ATau :: cur')) with (erase cur').
      change (absNext all (S fuel) (ATau :: cur', scale, c))
        with (absNext all fuel (cur', scale, c)) in H |- *.
      rewrite absNext_more; [exact (IH cur' scale c H)|].
      rewrite (IH cur' scale c H). exact (eraseOutcome_fuel _ H).
    + change (erase (AEmit data :: cur')) with (AEmit data :: erase cur').
      cbn [absNext absStep] in H |- *. unfold liftContext in *.
      destruct (Emit data c) as [c'| |]; try reflexivity.
      exact (IH cur' scale c' H).
    + change (erase (ASlash n :: cur')) with (ASlash n :: erase cur').
      cbn [absNext absStep] in H |- *. unfold liftContext in *.
      destruct (HandleSlash n c) as [c'| |]; try reflexivity.
      exact (IH cur' scale c' H).
    + change (erase (ACtl letter n :: cur')) with (ACtl letter n :: erase cur').
      cbn [absNext absStep] in H |- *.
      destruct (controlEffect letter n scale c) as [[scale' c']| |];
        try reflexivity.
      exact (IH cur' scale' c' H).
    + reflexivity.
Qed.

(** A format list hands out a data edit descriptor whenever the list
    without its pauses does. *)
Lemma absNext_unerase all fuel :
  forall cur scale (c : C),
    absNext (erase all) fuel (erase cur, scale, c) <> OutOfFuel ->
    exists fuel', absNext all fuel' (cur, scale, c) <> OutOfFuel.
Proof.
  induction fuel as [|fuel IH]; intros cur scale c H; [now contradiction H|].
  induction cur as [|a cur' IHcur].
  - cbn [absNext absStep erase filter] in H. unfold liftContext in H.
    destruct (HandleSlash 1 c) as [c'| |] eqn:E.
    + destruct (IH all scale c' H) as (fuel' & H').
      exists (S fuel'). cbn [absNext absStep]. unfold liftContext.
      now rewrite E.
    + exists 1%nat. cbn [absNext absStep]. unfold liftContext.
      rewrite E. discriminate.
    + contradiction.
  - destruct a as [|data|n|letter n|descr var w d e].
    + destruct (IHcur H) as (fuel' & H'). exists (S fuel'). exact H'.
    + change (erase (AEmit data :: cur')) with (AEmit data :: erase cur') in H.
      cbn [absNext absStep] in H. unfold liftContext in H.
      destruct (Emit data c) as [c'| |] eqn:E.
      * destruct (IH cur' scale c' H) as (fuel' & H').
        exists (S fuel'). cbn [absNext absStep]. unfold liftContext.
        now rewrite E.
      * exists 1%nat. cbn [absNext absStep]. unfold liftContext.
        rewrite E. discriminate.
      * contradiction.
    + change (erase (ASlash n :: cur')) with (ASlash n :: erase cur') in H.
      cbn [absNext absStep] in H. unfold liftContext in H.
      destruct (HandleSlash n c) as [c'| |] eqn:E.
      * destruct (IH cur' scale c' H) as (fuel' & H').
        exists (S fuel'). cbn [absNext absStep]. unfold liftContext.
        now rewrite E.
      * exists 1%nat. cbn [absNext absStep]. unfold liftContext.
        rewrite E. discriminate.
      * contradiction.
    + change (erase (ACtl letter n :: cur')) with (ACtl letter n :: erase cur')
        in H.
      cbn [absNext absStep] in H.
      destruct (controlEffect letter n scale c) as [[scale' c']| |] eqn:E.
      * destruct (IH cur' scale' c' H) as (fuel' & H').
        exists (S fuel'). cbn [absNext absStep]. now rewrite E.
      * exists 1%nat. cbn [absNext absStep]. rewrite E. discriminate.
      * contradiction.
    + exists 1%nat. cbn [absNext absStep]. discriminate.
Qed.

Lemma absWalk_erase all fuel k :
  forall cur scale (c : C),
    absWalk all fuel k (cur, scale, c) <> OutOfFuel ->
    absWalk (erase all) fuel k (erase cur, scale, c)
    = eraseOutcome (absWalk all fuel k (cur, scale, c)).
Proof.
  induction k as [|k IH]; intros cur scale c H; [reflexivity|].
  cbn [absWalk] in H |- *.
  destruct (absNext all fuel (cur, scale, c)) as [[e [[cur1 scale1] c1]]|msg|]
    eqn:E; try congruence.
  - rewrite absNext_erase, E by (rewrite E; discriminate). cbn [eraseOutcome].
    assert (H1 : absWalk all fuel k (cur1, scale1, c1) <> OutOfFuel).
    { destruct (absWalk all fuel k (cur1, scale1, c1)) as [[es s'']|msg|];
        congruence. }
    rewrite (IH cur1 scale1 c1 H1).
    destruct (absWalk all fuel k (cur1, scale1, c1))
      as [[es [[cur2 scale2] c2]]|msg|]; reflexivity.
  - rewrite absNext_erase, E by (rewrite E; discriminate). reflexivity.
Qed.

Lemma absWalk_unerase all k :
  forall fuel cur scale (c : C),
    absWalk (erase all) fuel k (erase cur, scale, c) <> OutOfFuel ->
    exists fuel', absWalk all fuel' k (cur, scale, c) <> OutOfFuel.
Proof.
  induction k as [|k IH]; intros fuel cur scale c H.
  - exists 0%nat. discriminate.
  - cbn [absWalk] in H.
    assert (H0 : absNext (erase all) fuel (erase cur, scale, c) <> OutOfFuel).
    { intros E. now rewrite E in H. }
    destruct (absNext_unerase all fuel cur scale c H0) as (fuel1 & H1).
    pose proof (absNext_erase all fuel1 cur scale c H1) as E1.
    pose proof (absNext_mono (erase all) fuel fuel1 _ H0) as M0.
    pose proof (absNext_mono (erase all) fuel1 fuel (erase cur, scale, c)) as M1.
    rewrite E1 in M1. specialize (M1 (eraseOutcome_fuel _ H1)).
    rewrite (Nat.add_comm fuel1 fuel), M0 in M1.
    destruct (absNext all fuel1 (cur, scale, c)) as [[e [[cur1 scale1] c1]]|msg|]
      eqn:E; try congruence.
    + cbn [eraseOutcome] in M1. rewrite M1 in H.
      assert (H2 : absWalk (erase all) fuel k (erase cur1, scale1, c1)
                   <> OutOfFuel).
      { destruct (absWalk (erase all) fuel k (erase cur1, scale1, c1))
          as [[es s'']|msg|]; congruence. }
      destruct (IH fuel cur1 scale1 c1 H2) as (fuel2 & H3).
      exists (fuel1 + fuel2)%nat. cbn [absWalk].
      rewrite absNext_mono, E by (rewrite E; discriminate).
      rewrite (Nat.add_comm fuel1 fuel2), absWalk_mono by exact H3.
      destruct (absWalk all fuel2 k (cur1, scale1, c1)) as [[es s'']|msg|];
        congruence.
    + exists fuel1. cbn [absWalk]. rewrite E. discriminate.
Qed.

(** Two format lists that differ in their pauses only hand out the same
    data edit descriptors. *)
Theorem absWalk_pauses allA allB k fuel curA curB scale (c : C) :
  erase allA = erase allB -> erase curA = erase curB ->
  absWalk allA fuel k (curA, scale, c) <> OutOfFuel ->
  exists fuel',
    absWalk allB fuel' k (curB, scale, c) <> OutOfFuel /\
    eraseOutcome (absWalk allB fuel' k (curB, scale, c))
    = eraseOutcome (absWalk allA fuel k (curA, scale, c)).
Proof.
  intros Eall Ecur HA.
  pose proof (absWalk_erase allA fuel k curA scale c HA) as EA.
  assert (HE : absWalk (erase allB) fuel k (erase curB, scale, c) <> OutOfFuel).
  { rewrite <- Eall, <- Ecur, EA. exact (eraseOutcome_fuel _ HA). }
  destruct (absWalk_unerase allB k fuel curB scale c HE) as (fuel' & HB).
  exists fuel'. split; [exact HB|].
  rewrite <- (absWalk_erase allB fuel' k curB scale c HB), <- EA.
  rewrite <- Eall, <- Ecur.
  assert (HE' : absWalk (erase allA) fuel' k (erase curA, scale, c) <> OutOfFuel).
  { rewrite Eall, Ecur, (absWalk_erase allB fuel' k curB scale c HB).
    exact (eraseOutcome_fuel _ HB). }
  rewrite Eall, Ecur in HE'.
  rewrite Eall, Ecur.
  rewrite <- (absWalk_mono (erase allB) fuel' fuel k _ HE').
  rewrite <- (absWalk_mono (erase allB) fuel fuel' k _ HE).
  now rewrite Nat.add_comm.
Qed.

End Erasure.

Lemma okItem_shallower mh x :
  forall h, okItem mh (S h) x = true -> okItem mh h x = true.
Proof.
  induction x as [c a v w d e|c a|c|q body|c payload|c body IH]
    using item_nested_ind; intros h H; try exact H.
  cbn [okItem] in H |- *.
  apply andb_true_iff in H as (H & Hbody).
  apply andb_true_iff in H as (Hc & Hh). apply Nat.ltb_lt in Hh.
  rewrite Hc. replace (Nat.ltb h mh) with true by (symmetry; apply Nat.ltb_lt; lia).
  cbn [andb]. rewrite forallb_forall in Hbody |- *.
  rewrite Forall_forall in IH. intros y Hy. exact (IH y Hy (S h) (Hbody y Hy)).
Qed.

Lemma okItems_app mh h l1 l2 :
  okItems mh h (l1 ++ l2) = okItems mh h l1 && okItems mh h l2.
Proof. unfold okItems. apply forallb_app. Qed.

Lemma okItems_repeatList mh h n l :
  okItems mh h l = true -> okItems mh h (repeatList n l) = true.
Proof.
  intros H. induction n as [|n IH]; [reflexivity|].
  rewrite repeatList_S, okItems_app, H, IH. reflexivity.
Qed.

Lemma okItems_shallower mh h l :
  okItems mh (S h) l = true -> okItems mh h l = true.
Proof.
  unfold okItems. rewrite !forallb_forall. intros H y Hy.
  exact (okItem_shallower mh y h (H y Hy)).
Qed.

(** A format list with one group unrolled fits the stack the list
    fits. *)
Lemma okItems_unroll mh A B :
  unroll A B -> forall h, okItems mh h A = true -> okItems mh h B = true.
Proof.
  induction 1 as [pre c body post|pre c body body' post Hu IH]; intros h H;
    rewrite okItems_app in H; apply andb_true_iff in H as (Hpre & H);
    change (okItems mh h (IGroup c body :: post))
      with (okItem mh h (IGroup c body) && okItems mh h post) in H;
    apply andb_true_iff in H as (Hg & Hpost);
    cbn [okItem] in Hg; apply andb_true_iff in Hg as (Hg & Hbody).
  - rewrite !okItems_app, Hpre, Hpost.
    rewrite (okItems_repeatList mh h (laps c) body (okItems_shallower _ _ _ Hbody)).
    reflexivity.
  - rewrite okItems_app, Hpre.
    change (okItems mh h (IGroup c body' :: post))
      with (okItem mh h (IGroup c body') && okItems mh h post).
    rewrite Hpost. cbn [okItem]. rewrite Hg.
    change (forallb (okItem mh (S h)) body') with (okItems mh (S h) body').
    rewrite (IH (S h) Hbody). reflexivity.
Qed.

Lemma flatItems_app l1 l2 : flatItems (l1 ++ l2) = flatItems l1 ++ flatItems l2.
Proof. unfold flatItems. now rewrite map_app, concat_app. Qed.

Lemma erase_app l1 l2 : erase (l1 ++ l2) = erase l1 ++ erase l2.
Proof. unfold erase. apply filter_app. Qed.

Lemma flatItems_repeatList n l :
  flatItems (repeatList n l) = repeatList n (flatItems l).
Proof.
  induction n as [|n IH]; [reflexivity|].
  rewrite !repeatList_S, flatItems_app, IH. reflexivity.
Qed.

Lemma erase_repeatList n l : erase (repeatList n l) = repeatList n (erase l).
Proof.
  induction n as [|n IH]; [reflexivity|].
  rewrite !repeatList_S, erase_app, IH. reflexivity.
Qed.

Lemma erase_group c body :
  erase (flat (IGroup c body)) = repeatList (laps c) (erase (flatItems body)).
Proof.
  cbn [flat]. change (concat (map flat body)) with (flatItems body).
  change (erase (ATau :: repeatList (laps c) (flatItems body ++ [ATau])))
    with (erase (repeatList (laps c) (flatItems body ++ [ATau]))).
  rewrite erase_repeatList, erase_app. cbn [erase filter isTau negb].
  now rewrite app_nil_r.
Qed.

(** Unrolling a group changes the pauses of a format list only. *)
Lemma erase_unroll A B :
  unroll A B -> erase (flatItems A) = erase (flatItems B).
Proof.
  induction 1 as [pre c body post|pre c body body' post Hu IH];
    rewrite !flatItems_app, !erase_app, !flatItems_cons, !erase_app,
      !erase_group.
  - now rewrite flatItems_repeatList, erase_repeatList.
  - now rewrite IH.
Qed.

Section Groups.
Context {C : Type} {ctx : FormatContext C}.

Lemma Rep_start (mh : nat) (all : list item) f :
  newFormatControl (printFormat all) (Z.of_nat (length (printFormat all)))
    (Z.of_nat mh) = Ok f ->
  okItems mh 1 all = true -> (1 <= mh)%nat ->
  Rep mh all f CInit [] /\ scale_ f = 0.
Proof.
  unfold newFormatControl. intros Hf Hok Hmh.
  destruct (Z.of_nat mh >? 127); [discriminate|].
  injection Hf as <-. split; [|reflexivity].
  unfold Rep. cbn [format_ maxHeight_]. repeat (split; [solve [auto]|]).
  exists [], []. split.
  - unfold At. cbn [format_ offset_ formatLength_ app length cursorText]. auto.
  - auto.
Qed.

(** What one format list hands out, a list with the same actions between
    its pauses hands out too. *)
Lemma walk_transfer (mh : nat) (A B : list item) k (c : C) fA fB :
  Rep mh A fA CInit [] -> Rep mh B fB CInit [] ->
  scale_ fA = scale_ fB ->
  erase (flatItems A) = erase (flatItems B) ->
  (forall fuel es f' c',
     walk fuel k (fA, c) = Ok (es, (f', c')) ->
     exists fuel' f'', walk fuel' k (fB, c) = Ok (es, (f'', c'))) /\
  (forall fuel msg,
     walk fuel k (fA, c) = Crash msg ->
     exists fuel', walk fuel' k (fB, c) = Crash msg).
Proof.
  intros HA HB Hscale Herase.
  assert (Hcur : erase (acts A CInit []) = erase (acts B CInit [])) by exact Herase.
  assert (Hmain : forall fuel,
            absWalk (flatItems A) fuel k (acts A CInit [], scale_ fA, c)
            <> OutOfFuel ->
            exists fuel',
              absWalk (flatItems B) fuel' k (acts B CInit [], scale_ fB, c)
              <> OutOfFuel /\
              eraseOutcome
                (absWalk (flatItems B) fuel' k (acts B CInit [], scale_ fB, c))
              = eraseOutcome
                  (absWalk (flatItems A) fuel k (acts A CInit [], scale_ fA, c))).
  { intros fuel H. rewrite <- Hscale.
    exact (absWalk_pauses _ _ k fuel _ _ (scale_ fA) c Herase Hcur H). }
  split.
  - intros fuel es f' c' Hw.
    pose proof (walk_sim mh A fuel k fA c CInit [] HA) as SA.
    destruct (Hmain fuel) as (fuel' & HnB & HeB).
    { intros E. rewrite E in SA. cbn [WalkSim] in SA. congruence. }
    pose proof (walk_sim mh B fuel' k fB c CInit [] HB) as SB.
    destruct (absWalk (flatItems A) fuel k (acts A CInit [], scale_ fA, c))
      as [[esA [[aA scA] cA]]|msg|]; cbn [WalkSim] in SA; try congruence.
    destruct SA as (f1 & _ & _ & SA & _). rewrite Hw in SA.
    injection SA as -> _ ->.
    destruct (absWalk (flatItems B) fuel' k (acts B CInit [], scale_ fB, c))
      as [[esB [[aB scB] cB]]|msg|]; cbn [eraseOutcome] in HeB; try discriminate.
    injection HeB as -> _ _ ->.
    cbn [WalkSim] in SB. destruct SB as (f2 & _ & _ & SB & _).
    exists fuel', f2. exact SB.
  - intros fuel msg Hw.
    pose proof (walk_sim mh A fuel k fA c CInit [] HA) as SA.
    destruct (Hmain fuel) as (fuel' & HnB & HeB).
    { intros E. rewrite E in SA. cbn [WalkSim] in SA. congruence. }
    pose proof (walk_sim mh B fuel' k fB c CInit [] HB) as SB.
    destruct (absWalk (flatItems A) fuel k (acts A CInit [], scale_ fA, c))
      as [[esA [[aA scA] cA]]|msgA|]; cbn [WalkSim] in SA; try congruence.
    { destruct SA as (f1 & _ & _ & SA & _). congruence. }
    rewrite Hw in SA. injection SA as <-.
    destruct (absWalk (flatItems B) fuel' k (acts B CInit [], scale_ fB, c))
      as [[esB [[aB scB] cB]]|msgB|]; cbn [eraseOutcome] in HeB; try discriminate.
    injection HeB as ->. cbn [WalkSim] in SB. exists fuel'. exact SB.
Qed.


End Groups.

Section Nesting.
Context {C : Type} {ctx : FormatContext C}.

Lemma CueUpLoop_continue fuel stop chk chk' (s s' : @St C) :
  CueUpTrip stop chk s = Ok (Continue chk', s') ->
  CueUpLoop (S fuel) stop chk s = CueUpLoop fuel stop chk' s'.
Proof. intros H. cbn [CueUpLoop]. unfold bind. now rewrite H. Qed.

Lemma CueUpLoop_return fuel stop chk r (s s' : @St C) :
  CueUpTrip stop chk s = Ok (Return r, s') ->
  CueUpLoop (S fuel) stop chk s = Ok (r, s').
Proof. intros H. cbn [CueUpLoop]. unfold bind. now rewrite H. Qed.

Lemma CueUpLoop_crash fuel stop chk msg (s : @St C) :
  CueUpTrip stop chk s = Crash msg ->
  CueUpLoop (S fuel) stop chk s = Crash msg.
Proof. intros H. cbn [CueUpLoop]. unfold bind. now rewrite H. Qed.

(** Left parentheses in a row push one frame each while the stack has
    room. *)
Lemma open_parens j :
  forall fuel chk f (c : C) pre rest,
    At f pre (List.repeat ch_lparen j ++ rest) ->
    stack_ f <> [] ->
    height_ f + Z.of_nat j <= maxHeight_ f ->
    exists K',
      length K' = j /\
      (j <> 0%nat ->
       exists below,
         K' = mkIteration (offset_ f + Z.of_nat j - 1) 0 :: below) /\
      CueUpLoop (j + fuel) false chk (f, c)
      = CueUpLoop fuel false chk
          (set_stack (K' ++ stack_ f) (advance j f), c).
Proof.
  induction j as [|j IH]; intros fuel chk f c pre rest HAt Hst Hh.
  - exists []. split; [reflexivity|]. split; [congruence|].
    destruct f as [sc mx st fm off len]. unfold advance, set_stack, set_offset.
    cbn [app Nat.add scale_ maxHeight_ stack_ format_ offset_ formatLength_
         Z.of_nat].
    now rewrite Z.add_0_r.
  - cbn [List.repeat app] in HAt.
    pose proof (trip_count false chk f pre [] ch_lparen _ c HAt eq_refl eq_refl)
      as Htrip.
    cbn [length Nat.add countValue] in Htrip.
    change None with (countValue []) in Htrip.
    rewrite (dispatch_open false chk [] (advance 1 f) c Hst) in Htrip
      by (change (height_ f < maxHeight_ f); lia).
    set (fr := mkIteration (offset_ (advance 1 f) - 1) (Z.of_nat (laps []) - 1))
      in Htrip.
    set (f1 := set_stack (fr :: stack_ (advance 1 f)) (advance 1 f)) in Htrip.
    pose proof (At_advance f pre [ch_lparen] _ HAt) as HAt1.
    assert (Hst1 : stack_ f1 <> []) by discriminate.
    assert (Hh1 : height_ f1 + Z.of_nat j <= maxHeight_ f1).
    { change (maxHeight_ f1) with (maxHeight_ f). unfold height_ in *.
      change (stack_ f1) with (fr :: stack_ f). cbn [length]. lia. }
    destruct (IH fuel chk f1 c (pre ++ [ch_lparen]) rest
                (At_set_stack _ _ _ _ HAt1) Hst1 Hh1)
      as (K1 & Hlen & Htop & Hloop).
    exists (K1 ++ [fr]). split; [rewrite length_app; cbn [length]; lia|]. split.
    + intros _. destruct j as [|j].
      * destruct K1; [|discriminate]. exists []. cbn [app]. subst fr.
        cbn [advance offset_ set_offset]. change (Z.of_nat (laps []) - 1) with 0.
        reflexivity.
      * destruct (Htop ltac:(discriminate)) as (below & ->).
        exists (below ++ [fr]). cbn [app]. f_equal.
        change (offset_ f1) with (offset_ f + Z.of_nat 1). f_equal. lia.
    + change (S j + fuel)%nat with (S (j + fuel)).
      rewrite (CueUpLoop_continue _ _ _ _ _ _ Htrip), Hloop.
      f_equal. f_equal. unfold advance, set_stack, set_offset.
      cbn [scale_ maxHeight_ stack_ format_ offset_ formatLength_].
      change (stack_ f1) with (fr :: stack_ f).
      rewrite <- app_assoc. cbn [app].
      f_equal. unfold f1. cbn [advance set_stack set_offset offset_]. lia.
Qed.

End Nesting.

Section Capacity.
Context {C : Type} {ctx : FormatContext C}.

Lemma dispatch_open_full stop chk cnt flag f (c : C) :
  maxHeight_ f <= height_ f ->
  dispatch stop chk cnt flag ch_lparen (f, c)
  = Crash "FORMAT stack overflow: too many nested parentheses".
Proof.
  intros H. unfold dispatch. rewrite bind_getControl. cbn [fst snd].
  change (ch_lparen =? ch_lparen) with true. cbv iota. unfold openParen.
  destruct (Z.geb_spec (height_ f) (maxHeight_ f)); [reflexivity|lia].
Qed.

(** The scan of [m + 1] left parentheses at the start of a FORMAT whose
    stack holds as many frames. *)
Lemma reach_inner (m : nat) (inner : list Z) (mh : Z) fuel chk f (c : C) :
  newFormatControl (nested (S m) inner)
    (Z.of_nat (length (nested (S m) inner))) mh = Ok f ->
  Z.of_nat (S m) <= mh ->
  exists f',
    CueUpLoop (S m + fuel) false chk (f, c) = CueUpLoop fuel false 0 (f', c) /\
    At f' (List.repeat ch_lparen (S m)) (inner ++ List.repeat ch_rparen (S m)) /\
    length (stack_ f') = S m /\
    maxHeight_ f' = mh /\
    (exists top below,
       stack_ f' = top :: below /\ charAt f' (start top) = ch_lparen).
Proof.
  unfold newFormatControl. intros Hf Hmh.
  destruct (mh >? 127); [discriminate|]. injection Hf as <-.
  set (F := nested (S m) inner).
  set (f := mkControl 0 mh [] F 0 (Z.of_nat (length F))).
  assert (HAt : At f [] (ch_lparen :: List.repeat ch_lparen m
                           ++ inner ++ List.repeat ch_rparen (S m))).
  { unfold At. cbn [format_ offset_ formatLength_ app length]. auto. }
  pose proof (trip_count false chk f [] [] ch_lparen _ c HAt eq_refl eq_refl)
    as Htrip.
  cbn [length Nat.add countValue] in Htrip.
  rewrite (dispatch_open_first false chk None false (advance 1 f) c eq_refl)
    in Htrip by (cbn [advance set_offset maxHeight_ f]; lia).
  set (f1 := set_stack [mkIteration (offset_ (advance 1 f) - 1) unlimited]
               (advance 1 f)) in Htrip.
  pose proof (At_advance f [] [ch_lparen] _ HAt) as HAt1.
  cbn [app] in HAt1.
  destruct (open_parens m fuel 0 f1 c [ch_lparen]
              (inner ++ List.repeat ch_rparen (S m))
              (At_set_stack _ _ _ _ HAt1) ltac:(discriminate))
    as (K' & Hlen & Htop & Hloop).
  { unfold height_. cbn [f1 f stack_ set_stack maxHeight_ advance set_offset
                           length]. lia. }
  eexists. split.
  - change (S m + fuel)%nat with (S (m + fuel)).
    rewrite (CueUpLoop_continue _ _ _ _ _ _ Htrip). exact Hloop.
  - assert (HF : F = List.repeat ch_lparen m
                     ++ ch_lparen :: inner ++ List.repeat ch_rparen (S m)).
    { unfold F, nested. cbn [List.repeat]. rewrite repeat_cons, <- app_assoc.
      reflexivity. }
    split.
    + pose proof (At_advance f1 [ch_lparen] (List.repeat ch_lparen m) _
                    (At_set_stack _ _ _ _ HAt1)) as HAt2.
      rewrite repeat_length in HAt2. exact HAt2.
    + cbn [stack_ set_stack]. rewrite length_app, Hlen. cbn [f1 stack_ set_stack length].
      split; [lia|]. split; [reflexivity|].
      destruct m as [|m].
      * destruct K'; [|discriminate]. cbn [app f1 stack_ set_stack].
        eexists _, []. split; [reflexivity|].
        apply (charAt_at _ [] ch_lparen (inner ++ List.repeat ch_rparen 1)).
        exact HF.
      * destruct (Htop ltac:(discriminate)) as (below & ->).
        eexists _, _. split; [reflexivity|]. cbn [start].
        replace (offset_ f1 + Z.of_nat (S m) - 1)
          with (Z.of_nat (length (List.repeat ch_lparen (S m))))
          by (rewrite repeat_length; cbn [f1 f offset_ set_stack advance set_offset]; lia).
        apply (charAt_at _ (List.repeat ch_lparen (S m)) ch_lparen
                 (inner ++ List.repeat ch_rparen (S (S m)))).
        exact HF.
Qed.


Lemma GetNext_found fuel n rep f f1 f3 (c : C) (edit : Z -> DataEdit) :
  CueUpLoop (n + 1) false (-1) (f, c) = CueUpLoop 1 false 0 (f1, c) ->
  CueUpTrip false 0 (f1, c)
  = Ok (Return rep, (set_offset fuel f1, c)) ->
  readDataEdit (set_offset fuel f1, c) = Ok (edit, (f3, c)) ->
  GetNext (n + 1) 1 (f, c) = chargeRepeat rep fuel 1 edit (f3, c).
Proof.
  intros Hloop Htrip Hread.
  change (GetNext (n + 1) 1) with (GetNextFrom (C := C) (n + 1) (-1)).
  unfold GetNextFrom.
  rewrite (CueUpLoop_return 0 _ _ _ _ _ Htrip) in Hloop.
  rewrite (bind_Ok _ _ _ _ _ Hloop), bind_getControl.
  rewrite (bind_Ok _ _ _ _ _ Hread). reflexivity.
Qed.

(** C6 (the code at the failing inputs): in a FORMAT of as many nested
    parentheses as the stack holds frames, a data edit descriptor with a
    repeat count makes [GetNext] push one frame more: the height is
    [maxHeight + 1] and nothing is diagnosed. *)
Theorem GetNext_pushes_beyond_maxHeight (m : nat) (c : C) (f : FormatControl) :
  newFormatControl (nested (S m) (chars "2I1"))
    (Z.of_nat (length (nested (S m) (chars "2I1")))) (Z.of_nat (S m)) = Ok f ->
  exists e f',
    GetNext (S m + 1) 1 (f, c) = Ok (e, (f', c)) /\
    descriptor e = ch_I /\ width e = 1 /\
    maxHeight_ f' = Z.of_nat (S m) /\
    height_ f' = maxHeight_ f' + 1.
Proof.
  intros Hf.
  destruct (reach_inner m (chars "2I1") (Z.of_nat (S m)) 1 (-1) f c Hf
              ltac:(lia))
    as (f1 & Hloop & HAt & Hlen & Hmax & _).
  assert (Hst : stack_ f1 <> []) by (destruct (stack_ f1); discriminate).
  set (rest := List.repeat ch_rparen (S m)) in *.
  destruct (data_trip 0 0 0 f1 c _ [50] ch_I None [49] None None rest HAt
              eq_refl (or_intror eq_refl) Hst)
    as (Htrip & Hread & HAt3).
  rewrite (GetNext_found _ _ _ _ _ _ _ _ Hloop Htrip Hread).
  rewrite chargeRepeat_first; [| |exact Hst|]; [|reflexivity|].
  - eexists _, _. split; [reflexivity|].
    split; [reflexivity|]. split; [reflexivity|].
    split; [exact Hmax|].
    unfold height_. cbn [stack_ set_stack set_offset maxHeight_ length].
    rewrite Hlen, Hmax. lia.
  - change (charAt f1 (Z.of_nat (length (List.repeat ch_lparen (S m) ++ [50])))
            <> ch_lparen).
    rewrite (charAt_at f1 _ ch_I ([49] ++ rest)); [discriminate|].
    rewrite (At_format _ _ _ HAt), <- app_assoc. reflexivity.
Qed.

(** In a FORMAT of as many nested parentheses as the stack holds frames
    a group is one frame too many, and its contents are not. *)
Lemma group_at_capacity (m : nat) (c : C) (fA fB : FormatControl) :
  newFormatControl (nested (S m) (chars "1(I1)"))
    (Z.of_nat (length (nested (S m) (chars "1(I1)")))) (Z.of_nat (S m))
  = Ok fA ->
  newFormatControl (nested (S m) (chars "I1"))
    (Z.of_nat (length (nested (S m) (chars "I1")))) (Z.of_nat (S m))
  = Ok fB ->
  GetNext (S m + 1) 1 (fA, c)
  = Crash "FORMAT stack overflow: too many nested parentheses" /\
  exists e f', GetNext (S m + 1) 1 (fB, c) = Ok (e, (f', c)) /\
               descriptor e = ch_I /\ width e = 1.
Proof.
  intros HA HB. split.
  - destruct (reach_inner m (chars "1(I1)") (Z.of_nat (S m)) 1 (-1) fA c HA
                ltac:(lia))
      as (f1 & Hloop & HAt & Hlen & Hmax & _).
    pose proof (trip_count false 0 f1 _ [49] ch_lparen _ c HAt eq_refl eq_refl)
      as Htrip.
    rewrite dispatch_open_full in Htrip
      by (unfold height_; cbn [advance set_offset stack_ maxHeight_];
          rewrite Hlen, Hmax; lia).
    change (GetNext (S m + 1) 1) with (GetNextFrom (C := C) (S m + 1) (-1)).
    unfold GetNextFrom. apply bind_Crash.
    rewrite Hloop. exact (CueUpLoop_crash 0 _ _ _ _ Htrip).
  - destruct (reach_inner m (chars "I1") (Z.of_nat (S m)) 1 (-1) fB c HB
                ltac:(lia))
      as (f1 & Hloop & HAt & Hlen & Hmax & Htop).
    assert (Hst : stack_ f1 <> []) by (destruct (stack_ f1); discriminate).
    set (rest := List.repeat ch_rparen (S m)) in *.
    destruct (data_trip 0 0 0 f1 c _ [] ch_I None [49] None None rest HAt
                eq_refl (or_intror eq_refl) Hst)
      as (Htrip & Hread & HAt3).
    rewrite (GetNext_found _ _ _ _ _ _ _ _ Hloop Htrip Hread).
    rewrite chargeRepeat_plain; [|reflexivity|right; exact Htop].
    eexists _, _. split; [reflexivity|]. split; reflexivity.
Qed.

End Capacity.


(** The group [2(I1,1X)] and its contents written twice hand out the
    same two data edit descriptors; for a third data item the FORMAT is
    taken up again, which this sink refuses in both. *)
Example group_and_repetition_walks :
  let c := mkStatement (chars "        ") 8 0 defaultModes false in
  let e := mkEdit ch_I ch_nul 1 None None defaultModes 1 in
  walkFormat 2 8 2 (chars "(2(I1,1X))") c = Ok [e; e] /\
  walkFormat 2 8 2 (chars "(I1,1X,I1,1X)") c = Ok [e; e] /\
  walkFormat 2 8 3 (chars "(2(I1,1X))") c
  = Crash "A / control edit descriptor may not appear in this FORMAT string" /\
  walkFormat 2 8 3 (chars "(I1,1X,I1,1X)") c
  = Crash "A / control edit descriptor may not appear in this FORMAT string".
Proof. repeat split; vm_compute; reflexivity. Qed.


Lemma GetNext_pushes_beyond_maxHeight_witness :
  let c := mkStatement (chars "        ") 8 0 defaultModes false in
  let f := mkControl 0 2 [] (chars "((2I1))") 0 7 in
  newFormatControl (nested 2 (chars "2I1"))
    (Z.of_nat (length (nested 2 (chars "2I1")))) (Z.of_nat 2) = Ok f /\
  exists e f',
    GetNext (2 + 1) 1 (f, c) = Ok (e, (f', c)) /\
    descriptor e = ch_I /\ width e = 1 /\
    maxHeight_ f' = Z.of_nat 2 /\
    height_ f' = maxHeight_ f' + 1.
Proof.
  intros c f. split; [reflexivity|].
  exact (GetNext_pushes_beyond_maxHeight 1 c f eq_refl).
Defined.

(** The frames after the first [GetNext] on [((2I1))] with room for two:
    the FORMAT, the group and the repeated descriptor. *)
Example repeated_descriptor_third_frame :
  let c := mkStatement (chars "        ") 8 0 defaultModes false in
  match GetNext 3 1 (mkControl 0 2 [] (chars "((2I1))") 0 7, c) with
  | Ok (e, (f', _)) => Some (stack_ f', maxHeight_ f', repeat e)
  | _ => None
  end
  = Some ([mkIteration 3 1; mkIteration 1 0; mkIteration 0 unlimited], 2, 1).
Proof. vm_compute. reflexivity. Qed.

(** * The sink of the internal statement *)

Lemma wrap_u64_negated n : - 2 ^ 63 <= n < 0 -> wrap_u64 (- wrap_u64 n) = - n.
Proof.
  intros H. unfold wrap_u64.
  replace (n mod 2 ^ 64) with (n + 2 ^ 64)
    by (apply Z.mod_unique with (q := -1); lia).
  symmetry. apply Z.mod_unique with (q := -1); lia.
Qed.

Lemma Emit_wf (data : list Z) (s : Statement) :
  wfStatement s ->
  Z.of_nat (length data) < 2 ^ 63 ->
  wfStatement (snd (Internal.Emit data s)).
Proof.
  intros (Hlen & Hat & Hsz) Hdata.
  unfold Internal.Emit. rewrite wrap_u64_small by lia.
  destruct (Z.gtb_spec (at_ s + Z.of_nat (length data)) (internalLength_ s)).
  - cbn [snd SignalEor at_ internalLength_ internal_].
    destruct (Z.ltb_spec (at_ s) (internalLength_ s)).
    + unfold wfStatement; cbn. rewrite memcpy_length by lia. lia.
    + unfold wfStatement; cbn. lia.
  - unfold wfStatement; cbn. rewrite memcpy_length by lia. lia.
Qed.

(** X1: the three operations of the sink leave the statement well formed:
    the buffer keeps its length and the cursor stays inside it. *)
Theorem sink_keeps_statement_well_formed (data : list Z) (n : Z) (s : Statement) :
  wfStatement s ->
  Z.of_nat (length data) < 2 ^ 63 ->
  - 2 ^ 31 <= n < 2 ^ 31 ->
  wfStatement (snd (Internal.Emit data s)) /\
  wfStatement (snd (Internal.HandleAbsolutePosition n s)) /\
  wfStatement (snd (Internal.HandleRelativePosition n s)).
Proof.
  intros Hwf Hdata Hn. split; [exact (Emit_wf data s Hwf Hdata)|].
  destruct Hwf as (Hlen & Hat & Hsz). split.
  - unfold Internal.HandleAbsolutePosition.
    destruct (Z.ltb_spec n 0);
      match goal with |- context [?a >=? ?b] => destruct (Z.geb_spec a b) end;
      unfold wfStatement; cbn; lia.
  - unfold Internal.HandleRelativePosition.
    destruct (Z.ltb_spec n 0).
    + rewrite wrap_u64_negated by lia. unfold wfStatement; cbn. lia.
    + rewrite wrap_u64_small by lia.
      destruct (Z.gtb_spec (at_ s + n) (internalLength_ s));
        unfold wfStatement; cbn; lia.
Qed.

Lemma sink_keeps_statement_well_formed_witness :
  let s := mkStatement (chars "abcd") 4 3 defaultModes false in
  wfStatement s /\ Z.of_nat (length (chars "xyz")) < 2 ^ 63 /\
  - 2 ^ 31 <= -7 < 2 ^ 31 /\
  wfStatement (snd (Internal.Emit (chars "xyz") s)) /\
  wfStatement (snd (Internal.HandleAbsolutePosition (-7) s)) /\
  wfStatement (snd (Internal.HandleRelativePosition (-7) s)).
Proof.
  intros s.
  assert (Hwf : wfStatement s) by (unfold wfStatement; cbn; lia).
  assert (Hd : Z.of_nat (length (chars "xyz")) < 2 ^ 63) by (cbn; lia).
  assert (Hn : - 2 ^ 31 <= -7 < 2 ^ 31) by lia.
  split; [exact Hwf|]. split; [exact Hd|]. split; [exact Hn|].
  exact (sink_keeps_statement_well_formed (chars "xyz") (-7) s Hwf Hd Hn).
Defined.

(** X2: [nX], [TLn] and [TRn] on the internal unit: the cursor moves by [n]
    and stops at the two ends of the buffer; only stopping at the right
    end is an end of record, and the buffer is never written. *)
Theorem relative_position_is_clamped (n : Z) (s : Statement) :
  wfStatement s ->
  - 2 ^ 31 <= n < 2 ^ 31 ->
  let r := Internal.HandleRelativePosition n s in
  at_ (snd r) = Z.max 0 (Z.min (internalLength_ s) (at_ s + n)) /\
  fst r = (at_ s + n <=? internalLength_ s) /\
  eor_ (snd r) = eor_ s || negb (at_ s + n <=? internalLength_ s) /\
  internal_ (snd r) = internal_ s /\
  internalLength_ (snd r) = internalLength_ s /\
  modes_ (snd r) = modes_ s.
Proof.
  intros (Hlen & Hat & Hsz) Hn r. subst r.
  unfold Internal.HandleRelativePosition.
  destruct (Z.ltb_spec n 0).
  - rewrite wrap_u64_negated by lia. cbn.
    destruct (Z.leb_spec (at_ s + n) (internalLength_ s)); [|lia].
    rewrite orb_false_r. repeat split; lia.
  - rewrite wrap_u64_small by lia.
    destruct (Z.gtb_spec (at_ s + n) (internalLength_ s));
      destruct (Z.leb_spec (at_ s + n) (internalLength_ s)); try lia; cbn.
    + rewrite orb_true_r. repeat split; lia.
    + rewrite orb_false_r. repeat split; lia.
Qed.

Lemma relative_position_is_clamped_witness :
  let s := mkStatement (chars "abcd") 4 3 defaultModes false in
  wfStatement s /\ - 2 ^ 31 <= 5 < 2 ^ 31 /\
  let r := Internal.HandleRelativePosition 5 s in
  at_ (snd r) = Z.max 0 (Z.min (internalLength_ s) (at_ s + 5)) /\
  fst r = (at_ s + 5 <=? internalLength_ s) /\
  eor_ (snd r) = eor_ s || negb (at_ s + 5 <=? internalLength_ s) /\
  internal_ (snd r) = internal_ s /\
  internalLength_ (snd r) = internalLength_ s /\
  modes_ (snd r) = modes_ s.
Proof.
  intros s.
  assert (Hwf : wfStatement s) by (unfold wfStatement; cbn; lia).
  assert (Hn : - 2 ^ 31 <= 5 < 2 ^ 31) by lia.
  split; [exact Hwf|]. split; [exact Hn|].
  exact (relative_position_is_clamped 5 s Hwf Hn).
Defined.

(** X3: [TLn] followed by [TRn] comes back to the column it left when there
    are [n] columns to the left of it. *)
Theorem left_then_right_comes_back (n : Z) (s : Statement) :
  wfStatement s ->
  0 <= n <= at_ s -> n < 2 ^ 31 ->
  Internal.HandleRelativePosition n
    (snd (Internal.HandleRelativePosition (- n) s))
  = (true, s).
Proof.
  intros (Hlen & Hat & Hsz) Hn Hint.
  destruct s as [buf len pos modes eor]. cbn [at_ internalLength_ internal_] in *.
  unfold Internal.HandleRelativePosition at 2. cbn [at_ internalLength_].
  destruct (Z.ltb_spec (- n) 0).
  - rewrite wrap_u64_negated by lia. cbn [snd].
    unfold Internal.HandleRelativePosition, set_at. cbn [at_ internalLength_ internal_ modes_ eor_].
    destruct (Z.ltb_spec n 0); [lia|].
    rewrite wrap_u64_small by lia.
    destruct (Z.gtb_spec (pos - Z.min pos (- - n) + n) len); [lia|].
    f_equal. f_equal. lia.
  - assert (n = 0) by lia. subst n. cbn [Z.opp].
    rewrite wrap_u64_small by lia.
    destruct (Z.gtb_spec (pos + 0) len); [lia|]. cbn [snd].
    unfold Internal.HandleRelativePosition, set_at. cbn [at_ internalLength_ internal_ modes_ eor_].
    cbn [Z.ltb Z.compare]. rewrite !wrap_u64_small by lia.
    destruct (Z.gtb_spec (pos + 0 + 0) len); [lia|].
    f_equal. f_equal. lia.
Qed.

Lemma left_then_right_comes_back_witness :
  let s := mkStatement (chars "abcd") 4 3 defaultModes false in
  wfStatement s /\ 0 <= 2 <= at_ s /\ 2 < 2 ^ 31 /\
  Internal.HandleRelativePosition 2
    (snd (Internal.HandleRelativePosition (- 2) s))
  = (true, s).
Proof.
  intros s.
  assert (Hwf : wfStatement s) by (unfold wfStatement; cbn; lia).
  assert (Hn : 0 <= 2 <= at_ s) by (cbn; lia).
  assert (Hi : 2 < 2 ^ 31) by lia.
  split; [exact Hwf|]. split; [exact Hn|]. split; [exact Hi|].
  exact (left_then_right_comes_back 2 s Hwf Hn Hi).
Defined.

Lemma overlay_length buf p d :
  (p <= length buf)%nat -> length (overlay buf p d) = length buf.
Proof.
  intros H. unfold overlay.
  rewrite !length_app, !length_firstn, length_skipn. lia.
Qed.

Lemma overlay_app buf p a b :
  (p <= length buf)%nat ->
  overlay (overlay buf p a) (Nat.min (length buf) (p + length a)) b
  = overlay buf p (a ++ b).
Proof.
  intros Hp. set (L := length buf).
  destruct (Nat.le_gt_cases (p + length a) L) as [Hfit|Hover].
  - (* [a] fits *)
    rewrite Nat.min_r by lia. unfold overlay at 1.
    rewrite (overlay_length buf p a Hp). fold L.
    unfold overlay at 1 2. fold L.
    rewrite (firstn_all2 (n := (L - p)%nat) a) by lia.
    set (P := firstn p buf).
    assert (HP : length P = p) by (unfold P; rewrite length_firstn; lia).
    assert (E1 : firstn (p + length a) (P ++ a ++ skipn (p + length a) buf)
                 = P ++ a).
    { rewrite app_assoc.
      replace (p + length a)%nat with (length (P ++ a)) at 1
        by (rewrite length_app; lia).
      apply firstn_app_exact. }
    assert (E2 : skipn (p + length a + length b)
                   (P ++ a ++ skipn (p + length a) buf)
                 = skipn (p + length (a ++ b)) buf).
    { rewrite (app_assoc P a).
      replace (p + length a + length b)%nat
        with (length (P ++ a) + length b)%nat by (rewrite length_app; lia).
      rewrite skipn_app_exact, skipn_skipn, length_app. f_equal. lia. }
    rewrite E1, E2. unfold overlay. fold L. fold P.
    rewrite firstn_app.
    rewrite (firstn_all2 (n := (L - p)%nat) a) by lia.
    rewrite <- !app_assoc.
    replace (L - p - length a)%nat with (L - (p + length a))%nat by lia.
    reflexivity.
  - (* [a] runs over the end *)
    rewrite Nat.min_l by lia. unfold overlay at 1.
    rewrite (overlay_length buf p a Hp). fold L.
    rewrite Nat.sub_diag. cbn [firstn app].
    rewrite firstn_all2 by (rewrite overlay_length; fold L; lia).
    rewrite skipn_all2 by (rewrite overlay_length; fold L; lia).
    rewrite app_nil_r. unfold overlay. fold L.
    rewrite firstn_app.
    replace (L - p - length a)%nat with 0%nat by lia. cbn [firstn].
    rewrite app_nil_r.
    rewrite (skipn_all2 (n := (p + length a)%nat) buf) by (fold L; lia).
    rewrite (skipn_all2 (n := (p + length (a ++ b))%nat) buf)
      by (rewrite length_app; fold L; lia).
    reflexivity.
Qed.

(** The statement [Emit] leaves, in both of its branches. *)
Lemma Emit_state data s :
  wfStatement s ->
  Z.of_nat (length data) < 2 ^ 63 ->
  snd (Internal.Emit data s)
  = mkStatement (overlay (internal_ s) (Z.to_nat (at_ s)) data)
      (internalLength_ s)
      (Z.min (internalLength_ s) (at_ s + Z.of_nat (length data)))
      (modes_ s)
      (eor_ s || (at_ s + Z.of_nat (length data) >? internalLength_ s)).
Proof.
  intros (Hlen & Hat & Hsz) Hdata. unfold Internal.Emit.
  rewrite wrap_u64_small by lia.
  destruct (Z.gtb_spec (at_ s + Z.of_nat (length data)) (internalLength_ s))
    as [Hover|Hfit].
  - rewrite orb_true_r, Z.min_l by lia.
    cbn [snd SignalEor at_ internalLength_ internal_].
    destruct (Z.ltb_spec (at_ s) (internalLength_ s)) as [Hlt|Hge].
    + unfold set_buffer, memcpy, overlay.
      cbn [internal_ internalLength_ modes_ eor_].
      f_equal. f_equal. f_equal; [f_equal; lia|].
      rewrite !skipn_all2 by lia. reflexivity.
    + unfold SignalEor, overlay.
      replace (at_ s) with (internalLength_ s) at 1 by lia.
      f_equal.
      replace (length (internal_ s) - Z.to_nat (at_ s))%nat with 0%nat by lia.
      cbn [firstn app]. rewrite skipn_all2 by lia.
      rewrite app_nil_r, firstn_all2 by lia. reflexivity.
  - rewrite orb_false_r, Z.min_r by lia.
    cbn [snd]. unfold set_buffer, memcpy, overlay. f_equal.
    f_equal. f_equal.
    + rewrite Nat2Z.id, firstn_all. symmetry. apply firstn_all2. lia.
    + f_equal. lia.
Qed.

(** X4: emitting a text in two pieces leaves the statement that emitting it
    at once leaves: the same characters in the buffer, the same cursor
    and the same end-of-record condition. *)
Theorem Emit_in_pieces (a b : list Z) (s : Statement) :
  wfStatement s ->
  Z.of_nat (length a) + Z.of_nat (length b) < 2 ^ 63 ->
  snd (Internal.Emit b (snd (Internal.Emit a s)))
  = snd (Internal.Emit (a ++ b) s).
Proof.
  intros Hwf Hsize. pose proof Hwf as (Hlen & Hat & Hsz).
  assert (Hwf1 : wfStatement (snd (Internal.Emit a s))).
  { apply (Emit_wf a s Hwf); lia. }
  rewrite (Emit_state b _ Hwf1) by lia.
  rewrite (Emit_state (a ++ b) s Hwf) by (rewrite length_app; lia).
  rewrite (Emit_state a s Hwf) by lia.
  cbn [internal_ internalLength_ at_ modes_ eor_].
  rewrite length_app, Nat2Z.inj_add.
  f_equal.
  - replace (Z.to_nat (Z.min (internalLength_ s) (at_ s + Z.of_nat (length a))))
      with (Nat.min (length (internal_ s)) (Z.to_nat (at_ s) + length a)) by lia.
    apply overlay_app. lia.
  - lia.
  - destruct (eor_ s); cbn [orb]; [reflexivity|].
    destruct (Z.gtb_spec (at_ s + Z.of_nat (length a)) (internalLength_ s));
      destruct (Z.gtb_spec
                  (Z.min (internalLength_ s) (at_ s + Z.of_nat (length a))
                   + Z.of_nat (length b)) (internalLength_ s));
      destruct (Z.gtb_spec
                  (at_ s + (Z.of_nat (length a) + Z.of_nat (length b)))
                  (internalLength_ s)); cbn [orb]; try reflexivity; lia.
Qed.

Lemma Emit_in_pieces_witness :
  let s := mkStatement (chars "abcdef") 6 2 defaultModes false in
  wfStatement s /\
  Z.of_nat (length (chars "xy")) + Z.of_nat (length (chars "zzzz")) < 2 ^ 63 /\
  snd (Internal.Emit (chars "zzzz") (snd (Internal.Emit (chars "xy") s)))
  = snd (Internal.Emit (chars "xy" ++ chars "zzzz") s).
Proof.
  intros s.
  assert (Hwf : wfStatement s) by (unfold wfStatement; cbn; lia).
  assert (Hd : Z.of_nat (length (chars "xy")) + Z.of_nat (length (chars "zzzz"))
               < 2 ^ 63) by (cbn; lia).
  split; [exact Hwf|]. split; [exact Hd|].
  exact (Emit_in_pieces (chars "xy") (chars "zzzz") s Hwf Hd).
Defined.

(** * Integer fields of a FORMAT *)

Lemma short_digits_fit ds :
  forall (k : nat) r,
    0 <= r < 10 ^ Z.of_nat k ->
    (k + length ds <= 9)%nat ->
    forallb isDigit ds = true ->
    digitsFitFrom r ds = true.
Proof.
  induction ds as [|d ds IH]; intros k r Hr Hk Hds; [reflexivity|].
  cbn [forallb] in Hds. apply andb_true_iff in Hds as (Hd & Hds).
  cbn [length] in Hk. cbn [digitsFitFrom]. rewrite Hd. cbn [andb].
  pose proof (isDigit_range d Hd) as Hrange.
  assert (Hpow : 10 ^ Z.of_nat k <= 10 ^ 8)
    by (apply Z.pow_le_mono_r; lia).
  assert (Hmax : INT_MAX / 10 = 214748364) by reflexivity.
  destruct (Z.gtb_spec r (INT_MAX / 10 - (d - 48))) as [Hgt|_];
    [rewrite Hmax in Hgt; lia|].
  cbn [negb andb]. apply (IH (S k)); [|lia|exact Hds].
  rewrite Nat2Z.inj_succ, Z.pow_succ_r by lia. lia.
Qed.

Lemma short_number ds :
  ds <> [] -> (length ds <= 9)%nat -> forallb isDigit ds = true ->
  isNumber ds = true.
Proof.
  intros Hne Hlen Hds. destruct ds as [|d ds]; [congruence|].
  unfold isNumber.
  apply (short_digits_fit (d :: ds) 0 0); [cbn; lia|exact Hlen|exact Hds].
Qed.

Section IntField.
Context {C : Type} {ctx : FormatContext C}.

(** X5: a number of one to nine digits at the cursor, with no digit after
    it, is read as its decimal value and the cursor is left behind its
    last digit; nothing else changes. *)
Theorem GetIntField_reads_short_numbers f pre ds rest (c : C) :
  At f pre (ds ++ rest) ->
  ds <> [] -> (length ds <= 9)%nat -> forallb isDigit ds = true ->
  isDigit (hd ch_nul rest) = false ->
  GetIntField ch_nul (f, c)
  = Ok (digitsValue ds, (set_offset (offset_ f + Z.of_nat (length ds)) f, c)).
Proof.
  intros HAt Hne Hlen Hds Hrest.
  apply (GetIntField_number f pre ds rest c HAt (short_number ds Hne Hlen Hds)).
  unfold endsNumber. now rewrite Hrest.
Qed.

Lemma GetIntField_loop_range fuel :
  forall r f r' f',
    0 <= r <= INT_MAX ->
    GetIntField_loop fuel r f = Ok (r', f') ->
    0 <= r' <= INT_MAX /\
    offset_ f <= offset_ f' <= offset_ f + Z.of_nat fuel /\
    f' = set_offset (offset_ f') f.
Proof.
  induction fuel as [|fuel IH]; intros r f r' f' Hr H.
  - cbn [GetIntField_loop] in H. injection H as <- <-.
    split; [exact Hr|]. split; [lia|]. now destruct f.
  - cbn [GetIntField_loop] in H.
    destruct (isDigit (PeekNext f)) eqn:Hd.
    + pose proof (isDigit_range _ Hd) as Hrange.
      assert (Hmax : INT_MAX / 10 = 214748364) by reflexivity.
      destruct (Z.gtb_spec r (INT_MAX / 10 - (PeekNext f - 48))) as [|Hle];
        [discriminate|].
      rewrite Hmax in Hle.
      apply IH in H; [|unfold INT_MAX in *; lia].
      destruct H as (H1 & H2 & H3). cbn [offset_ set_offset] in H2.
      split; [exact H1|]. split; [lia|].
      rewrite H3. now destruct f.
    + injection H as <- <-. split; [exact Hr|]. split; [lia|]. now destruct f.
Qed.

Lemma GetIntField_range (firstCh : Z) f (c : C) n s' :
  GetIntField firstCh (f, c) = Ok (n, s') ->
  - INT_MAX <= n <= INT_MAX /\
  snd s' = c /\
  fst s' = set_offset (offset_ (fst s')) f /\
  offset_ f <= offset_ (fst s') <= Z.max (offset_ f) (formatLength_ f).
Proof.
  unfold GetIntField. cbn [fst snd].
  set (ch0 := if firstCh =? ch_nul then PeekNext f else firstCh).
  destruct (negb (ch0 =? ch_minus) && negb (ch0 =? ch_plus) && negb (isDigit ch0));
    [discriminate|].
  set (negate := ch0 =? ch_minus).
  set (first' := if negate then ch_nul else firstCh).
  set (ch1 := if negate then PeekNext f else ch0).
  assert (Hloop : forall r scanned,
            0 <= r <= INT_MAX ->
            GetIntField_loop (remainingChars f) r f = scanned ->
            match scanned with
            | Ok (result, f') =>
                let result := if negate then result * -1 else result in
                if negate && (result >? 0)
                then Crash "FORMAT integer field out of range"
                else Ok (result, (f', c))
            | Crash msg => Crash msg
            | OutOfFuel => OutOfFuel
            end = Ok (n, s') ->
            - INT_MAX <= n <= INT_MAX /\ snd s' = c /\
            fst s' = set_offset (offset_ (fst s')) f /\
            offset_ f <= offset_ (fst s') <= Z.max (offset_ f) (formatLength_ f)).
  { intros r scanned Hr Hs H. destruct scanned as [[result f']|msg|];
      try discriminate.
    destruct (GetIntField_loop_range _ _ _ _ _ Hr Hs) as (H1 & H2 & H3).
    cbv zeta in H.
    destruct (negate && ((if negate then result * -1 else result) >? 0));
      [discriminate|].
    injection H as <- <-. cbn [fst snd].
    split; [destruct negate; lia|]. split; [reflexivity|].
    split; [exact H3|]. unfold remainingChars in H2. lia. }
  destruct (first' =? ch_nul).
  - intros H. exact (Hloop 0 _ ltac:(unfold INT_MAX; lia) eq_refl H).
  - destruct (isDigit ch1) eqn:Hd.
    + pose proof (isDigit_range _ Hd) as Hrange.
      destruct (0 >? INT_MAX / 10 - (ch1 - ch_0)); [discriminate|].
      intros H.
      exact (Hloop (10 * 0 + ch1 - ch_0) _ ltac:(unfold INT_MAX; lia) eq_refl H).
    + cbv zeta.
      destruct (negate && ((if negate then 0 * -1 else 0) >? 0));
        [discriminate|].
      intros H. injection H as <- <-. cbn [fst snd].
      split; [destruct negate; unfold INT_MAX; lia|]. split; [reflexivity|].
      split; [now destruct f|lia].
Qed.

(** X6: whatever the FORMAT holds, an integer field that is read is within
    the range of [int], and reading it only moves the cursor, forward and
    not beyond the end of the FORMAT. *)
Theorem GetIntField_result_in_range (firstCh : Z) f (c : C) n s' :
  GetIntField firstCh (f, c) = Ok (n, s') ->
  - INT_MAX <= n <= INT_MAX /\
  snd s' = c /\
  fst s' = set_offset (offset_ (fst s')) f /\
  offset_ f <= offset_ (fst s') <= Z.max (offset_ f) (formatLength_ f).
Proof. exact (GetIntField_range firstCh f c n s'). Qed.

End IntField.

(** * Control edit descriptors and refused characters *)

Section Edges.
Context {C : Type} {ctx : FormatContext C}.

Lemma trip_dispatch stop chk f pre cnt m rest (c : C) :
  At f pre (cnt ++ m :: rest) ->
  okCount cnt = true ->
  mainChar m = true ->
  CueUpTrip stop chk (f, c)
  = dispatch stop chk (countValue cnt) false m (advance (length cnt + 1) f, c) /\
  At (advance (length cnt + 1) f) (pre ++ cnt ++ [m]) rest.
Proof.
  intros HAt Hcnt Hm. split; [exact (trip_count stop chk f pre cnt m rest c HAt Hcnt Hm)|].
  pose proof (At_advance f pre (cnt ++ [m]) rest) as HAt1.
  rewrite <- app_assoc in HAt1. specialize (HAt1 HAt).
  rewrite length_app in HAt1. exact HAt1.
Qed.


(** X8: a letter standing alone that is not an edit descriptor is refused. *)
Theorem unknown_letter_is_refused stop chk f pre cnt a rest (c : C) :
  At f pre (cnt ++ a :: rest) ->
  okCount cnt = true ->
  isUpper a = true ->
  existsb (Z.eqb a) (chars "ABDEFGHIOPSTXZ") = false ->
  isDelim rest ->
  stack_ f <> [] ->
  CueUpTrip stop chk (f, c) = Crash "Unknown '%c' edit descriptor in FORMAT".
Proof.
  intros HAt Hcnt Hup Hnot Hrest Hst.
  cbn [chars map list_ascii_of_string existsb] in Hnot.
  repeat (apply orb_false_iff in Hnot as (? & Hnot)).
  repeat match goal with
         | H : (a =? code _) = false |- _ => vm_compute code in H
         end.
  destruct (trip_dispatch stop chk f pre cnt a rest c HAt Hcnt
              (upper_mainChar a Hup)) as (Htrip & HAt1).
  destruct (delim_facts _ Hrest) as (_ & Hnext & _).
  assert (Hdata : isDataLetter a = false).
  { unfold isDataLetter.
    repeat match goal with
           | H : (a =? _) = false |- _ => rewrite H; clear H
           end. reflexivity. }
  rewrite (dispatch_control stop chk (countValue cnt) false a _ _ rest c HAt1)
    in Htrip; try assumption;
    try (apply Z.eqb_neq; assumption).
  rewrite Htrip. unfold controlEffect, HandleControl.
  repeat match goal with
         | H : (a =? _) = false |- _ => rewrite H; clear H
         end.
  change (ch_nul =? ch_nul) with true.
  destruct (a =? ch_R); reflexivity.
Qed.

(** X9: the first thing in a FORMAT has to be a left parenthesis. *)
Theorem format_must_begin_with_parenthesis stop chk f pre cnt m rest (c : C) :
  stack_ f = [] ->
  At f pre (cnt ++ m :: rest) ->
  okCount cnt = true ->
  mainChar m = true ->
  m <> ch_lparen ->
  CueUpTrip stop chk (f, c) = Crash "FORMAT lacks initial '('".
Proof.
  intros Hst HAt Hcnt Hm Hparen.
  destruct (trip_dispatch stop chk f pre cnt m rest c HAt Hcnt Hm) as (Htrip & _).
  rewrite Htrip. unfold dispatch. rewrite bind_getControl. cbn [fst snd].
  destruct (Z.eqb_spec m ch_lparen); [contradiction|].
  change (stack_ (advance (length cnt + 1) f)) with (stack_ f).
  rewrite Hst. reflexivity.
Qed.

(** X10: a character that starts nothing a FORMAT can hold is refused. *)
Theorem invalid_character_is_refused stop chk f pre cnt m rest (c : C) :
  stack_ f <> [] ->
  At f pre (cnt ++ m :: rest) ->
  okCount cnt = true ->
  mainChar m = true ->
  32 < m ->
  isUpper m = false ->
  existsb (Z.eqb m) [ch_lparen; ch_rparen; ch_squote; ch_dquote; ch_slash]
  = false ->
  CueUpTrip stop chk (f, c) = Crash "Invalid character '%c' in FORMAT".
Proof.
  intros Hst HAt Hcnt Hm Hprint Hup Hnot.
  cbn [existsb] in Hnot.
  repeat (apply orb_false_iff in Hnot as (? & Hnot)).
  destruct (trip_dispatch stop chk f pre cnt m rest c HAt Hcnt Hm) as (Htrip & _).
  rewrite Htrip. unfold dispatch. rewrite bind_getControl. cbn [fst snd].
  change (stack_ (advance (length cnt + 1) f)) with (stack_ f).
  destruct (stack_ f) as [|top below]; [congruence|].
  repeat match goal with
         | H : (m =? _) = false |- _ => rewrite H; clear H
         end.
  cbn [orb]. rewrite Hup.
  destruct (Z.eqb_spec m ch_H) as [->|_]; [discriminate|]. reflexivity.
Qed.

End Edges.

(** * Character literals, colons and the end of the FORMAT *)

Section Literals.
Context {C : Type} {ctx : FormatContext C}.

Lemma scanQuote_same fuel q k f o :
  scanQuote fuel q (advance k f) o = scanQuote fuel q f o.
Proof.
  revert o. induction fuel as [|fuel IH]; intros o; [reflexivity|].
  cbn [scanQuote]. change (charAt (advance k f) o) with (charAt f o).
  now rewrite IH.
Qed.

Lemma scanQuote_none q body :
  forall f pre,
    At f pre body ->
    forallb (fun b => negb (b =? q)) body = true ->
    scanQuote (remainingChars f) q f (offset_ f) = formatLength_ f.
Proof.
  induction body as [|b body IH]; intros f pre HAt Hq.
  - rewrite (At_remaining _ _ _ HAt). cbn [length scanQuote].
    destruct HAt as (_ & Ho & Hl). rewrite Ho, Hl, app_nil_r. reflexivity.
  - cbn [forallb] in Hq. apply andb_true_iff in Hq as [Hb Hq].
    apply negb_true_iff in Hb.
    rewrite (At_remaining _ _ _ HAt). cbn [length scanQuote].
    pose proof (At_charAt f pre _ 0 HAt) as Hc. rewrite Z.add_0_r in Hc.
    rewrite Hc. cbn [nth]. rewrite Hb.
    pose proof (At_advance f pre [b] body HAt) as HAt1.
    change (length [b]) with 1%nat in HAt1.
    specialize (IH _ _ HAt1 Hq).
    rewrite (At_remaining _ _ _ HAt1), scanQuote_same in IH.
    exact IH.
Qed.

Lemma quote_facts q :
  (q =? ch_squote) || (q =? ch_dquote) = true ->
  mainChar q = true /\ (q =? ch_lparen) = false /\ (q =? ch_rparen) = false.
Proof.
  intros Hq. apply orb_true_iff in Hq as [Hq|Hq]; apply Z.eqb_eq in Hq;
    subst q; repeat split.
Qed.

(** X11: a character literal whose closing quote is missing is refused. *)
Theorem unterminated_literal_is_refused stop chk f pre q body (c : C) :
  At f pre (q :: body) ->
  (q =? ch_squote) || (q =? ch_dquote) = true ->
  forallb (fun b => negb (b =? q)) body = true ->
  stack_ f <> [] ->
  CueUpTrip stop chk (f, c)
  = Crash "FORMAT missing closing quote on character literal".
Proof.
  intros HAt Hq Hbody Hst.
  destruct (quote_facts q Hq) as (Hmain & H40 & H41).
  destruct (trip_dispatch stop chk f pre [] q body c HAt eq_refl Hmain)
    as (Htrip & HAt1).
  rewrite Htrip. unfold dispatch. rewrite bind_getControl. cbn [fst snd].
  rewrite H40.
  change (stack_ (advance (length (@nil Z) + 1) f)) with (stack_ f).
  destruct (stack_ f) as [|top below]; [congruence|].
  rewrite H41, Hq. unfold characterLiteral.
  rewrite (scanQuote_none q body _ _ HAt1 Hbody).
  rewrite Z.geb_leb, Z.leb_refl. reflexivity.
Qed.

(** X12: a quote written twice inside a character literal: the text up to
    and with the first of the two is emitted, and the second is left
    under the cursor, where it opens the rest of the literal. *)
Theorem doubled_quote_is_emitted_once stop chk f pre q body rest (c : C) :
  At f pre (q :: body ++ q :: q :: rest) ->
  (q =? ch_squote) || (q =? ch_dquote) = true ->
  forallb (fun b => negb (b =? q)) body = true ->
  stack_ f <> [] ->
  CueUpTrip stop chk (f, c)
  = match Emit (body ++ [q]) c with
    | Ok c' =>
        Ok (Continue chk,
            (set_offset (offset_ f + Z.of_nat (length body + 2)) f, c'))
    | Crash msg => Crash msg
    | OutOfFuel => OutOfFuel
    end /\
  At (set_offset (offset_ f + Z.of_nat (length body + 2)) f)
     (pre ++ q :: body ++ [q]) (q :: rest).
Proof.
  intros HAt Hq Hbody Hst.
  destruct (quote_facts q Hq) as (Hmain & H40 & H41).
  destruct (trip_dispatch stop chk f pre [] q _ c HAt eq_refl Hmain)
    as (Htrip & HAt1).
  cbn [length Nat.add app] in Htrip, HAt1.
  set (f1 := advance 1 f) in *.
  pose proof (At_advance f1 (pre ++ [q]) (body ++ [q]) (q :: rest)) as HAt2.
  rewrite <- (app_assoc body) in HAt2. specialize (HAt2 HAt1).
  rewrite length_app in HAt2. cbn [length] in HAt2.
  split.
  - rewrite Htrip. unfold dispatch. rewrite bind_getControl. cbn [fst snd].
    rewrite H40. change (stack_ f1) with (stack_ f).
    destruct (stack_ f) as [|top below]; [congruence|].
    rewrite H41, Hq. unfold characterLiteral.
    rewrite (scanQuote_body q body f1 _ _ HAt1 Hbody).
    pose proof HAt1 as (Hf & Ho & Hl).
    destruct (Z.geb_spec (offset_ f1 + Z.of_nat (length body)) (formatLength_ f1)).
    { rewrite Hl, Ho in *. repeat rewrite length_app in *.
      cbn [length] in *. lia. }
    replace (offset_ f1 + Z.of_nat (length body) + 1)
      with (offset_ f1 + Z.of_nat (length body + 1)) by lia.
    rewrite set_offset_advance, (At_PeekNext _ _ _ HAt2).
    cbn [hd]. rewrite Z.eqb_refl.
    replace (offset_ f1 + Z.of_nat (length body + 1) - offset_ f1)
      with (Z.of_nat (length (body ++ [q])))
      by (rewrite length_app; cbn [length]; lia).
    assert (HAt1' : At f1 (pre ++ [q]) ((body ++ [q]) ++ q :: rest))
      by (rewrite <- app_assoc; exact HAt1).
    rewrite (At_slice f1 _ (body ++ [q]) (q :: rest) HAt1').
    unfold bind, setOffset, onControl, onContext. cbn [fst snd].
    destruct (Emit (body ++ [q]) c); [|reflexivity|reflexivity].
    unfold ret, f1, advance, set_offset.
    cbn [scale_ maxHeight_ stack_ format_ offset_ formatLength_].
    replace (offset_ f + Z.of_nat 1 + Z.of_nat (length body + 1))
      with (offset_ f + Z.of_nat (length body + 2)) by lia.
    reflexivity.
  - replace (set_offset (offset_ f + Z.of_nat (length body + 2)) f)
      with (advance (length body + 1) f1).
    + rewrite <- app_assoc in HAt2. exact HAt2.
    + unfold f1, advance, set_offset.
      cbn [scale_ maxHeight_ stack_ format_ offset_ formatLength_].
      f_equal. lia.
Qed.


(** X14: a colon ends the work of [FinishOutput], whatever follows it, and
    is passed over when a data item is waiting. *)
Theorem colon_stops_only_the_end fuel chk f pre x rest (c : C) :
  At f pre (ch_colon :: x :: rest) ->
  FinishOutput (S fuel) (f, c)
  = Ok (tt, (set_offset (offset_ f + 1) f, c)) /\
  CueUpTrip false chk (f, c)
  = CueUpTrip false chk (set_offset (offset_ f + 1) f, c).
Proof.
  intros HAt.
  pose proof (At_advance f pre [ch_colon] (x :: rest) HAt) as HAt1.
  change (length [ch_colon]) with 1%nat in HAt1.
  pose proof (At_advance _ _ [x] rest HAt1) as HAt2.
  change (length [x]) with 1%nat in HAt2.
  split.
  - assert (Htrip : CueUpTrip true (-1) (f, c) = Ok (Return 0, (advance 1 f, c))).
    { unfold CueUpTrip.
      rewrite (bind_Ok _ _ _ _ _ (At_GetNextChar _ _ _ _ c HAt)).
      rewrite bind_getControl. cbn [fst snd].
      rewrite (At_remaining _ _ _ HAt1).
      cbn [length skipSeparators]. change (Capitalize ch_colon) with ch_colon.
      change ((ch_colon =? ch_comma) || (ch_colon =? ch_colon)) with true.
      change (true && (ch_colon =? ch_colon)) with true. cbv iota.
      reflexivity. }
    unfold FinishOutput, CueUpNextDataEdit. cbn [CueUpLoop].
    unfold bind at 1 2. rewrite Htrip. reflexivity.
  - unfold CueUpTrip.
    rewrite (bind_Ok _ _ _ _ _ (At_GetNextChar _ _ _ _ c HAt)).
    rewrite (bind_Ok _ _ _ _ _ (At_GetNextChar _ _ _ _ c HAt1)).
    rewrite !bind_getControl. cbn [fst snd].
    rewrite (At_remaining _ _ _ HAt1), (At_remaining _ _ _ HAt2).
    cbn [length skipSeparators]. change (Capitalize ch_colon) with ch_colon.
    change ((ch_colon =? ch_comma) || (ch_colon =? ch_colon)) with true.
    change (false && (ch_colon =? ch_colon)) with false. cbv iota.
    rewrite bind_assoc.
    change (set_offset (offset_ f + 1) f) with (advance 1 f).
    rewrite (bind_Ok _ _ _ _ _ (At_GetNextChar _ _ _ _ c HAt1)).
    reflexivity.
Qed.

(** X15: at the right parenthesis that ends the FORMAT, [FinishOutput]
    returns and calls nothing of the sink. *)
Theorem FinishOutput_at_the_last_parenthesis fuel f pre rest top (c : C) :
  At f pre (ch_rparen :: rest) ->
  stack_ f = [top] ->
  FinishOutput (S fuel) (f, c) = Ok (tt, (set_offset (offset_ f + 1) f, c)).
Proof.
  intros HAt Hst.
  destruct (trip_dispatch true (-1) f pre [] ch_rparen rest c HAt eq_refl eq_refl)
    as (Htrip & _).
  assert (Hd : dispatch true (-1) (countValue []) false ch_rparen
                 (advance (length (@nil Z) + 1) f, c)
               = Ok (Return 0, (advance 1 f, c))).
  { unfold dispatch. rewrite bind_getControl. cbn [fst snd].
    change (ch_rparen =? ch_lparen) with false. cbv iota.
    change (stack_ (advance (length (@nil Z) + 1) f)) with (stack_ f).
    rewrite Hst. change (ch_rparen =? ch_rparen) with true. cbv iota.
    unfold closeParen, height_.
    change (stack_ (advance (length (@nil Z) + 1) f)) with (stack_ f).
    rewrite Hst. reflexivity. }
  rewrite Hd in Htrip.
  unfold FinishOutput, CueUpNextDataEdit. cbn [CueUpLoop].
  unfold bind at 1 2. rewrite Htrip. reflexivity.
Qed.

End Literals.

(** X16: on the internal unit a slash is not available: a slash in the
    FORMAT, and the end of the FORMAT reached with a data item waiting,
    stop the statement. *)
Theorem internal_unit_has_no_slash fuel f pre cnt rest top (s : Statement) :
  stack_ f = [top] ->
  (At f pre (ch_rparen :: rest) \/
   (At f pre (cnt ++ ch_slash :: rest) /\ okCount cnt = true)) ->
  GetNext (S fuel) 1 (f, s)
  = Crash "A / control edit descriptor may not appear in this FORMAT string".
Proof.
  intros Hst [HAt|(HAt & Hcnt)].
  - destruct (trip_dispatch false (-1) f pre [] ch_rparen rest s HAt
                eq_refl eq_refl) as (Htrip & _).
    assert (Hd : dispatch false (-1) (countValue []) false ch_rparen
                   (advance (length (@nil Z) + 1) f, s)
                 = Crash "A / control edit descriptor may not appear in this FORMAT string").
    { unfold dispatch. rewrite bind_getControl. cbn [fst snd].
      change (ch_rparen =? ch_lparen) with false. cbv iota.
      change (stack_ (advance (length (@nil Z) + 1) f)) with (stack_ f).
      rewrite Hst. change (ch_rparen =? ch_rparen) with true. cbv iota.
      unfold closeParen, height_.
      change (stack_ (advance (length (@nil Z) + 1) f)) with (stack_ f).
      rewrite Hst. reflexivity. }
    rewrite Hd in Htrip.
    unfold GetNext, CueUpNextDataEdit. cbn [CueUpLoop].
    unfold bind at 1 2. rewrite Htrip. reflexivity.
  - destruct (trip_dispatch false (-1) f pre cnt ch_slash rest s HAt
                Hcnt eq_refl) as (Htrip & _).
    rewrite dispatch_slash in Htrip
      by (change (stack_ (advance (length cnt + 1) f)) with (stack_ f);
          rewrite Hst; discriminate).
    unfold GetNext, CueUpNextDataEdit. cbn [CueUpLoop].
    unfold bind at 1 2. rewrite Htrip. reflexivity.
Qed.

(** * The digits of a converted integer *)

Section DigitLoop.
Variable radix : Z.
Variables next digit : Z -> Z.
Hypothesis radix_2 : 2 <= radix <= 16.
Hypothesis next_div : forall u, 0 <= u -> next u = u / radix.
Hypothesis digit_mod :
  forall u, 0 <= u ->
    digitValue (digit u) = u mod radix /\ isHexDigit (digit u) = true.

Lemma valueFromIn_shift p :
  forall r, valueFromIn radix r p
            = r * radix ^ Z.of_nat (length p) + valueIn radix p.
Proof.
  unfold valueIn. induction p as [|d p IH]; intros r.
  - cbn. lia.
  - unfold valueFromIn in *. cbn [fold_left length].
    rewrite IH, (IH (radix * 0 + digitValue d)).
    rewrite Nat2Z.inj_succ, Z.pow_succ_r by lia. lia.
Qed.

Lemma digitLoop_value fuel :
  forall un p,
    0 <= un < 2 ^ Z.of_nat fuel ->
    valueIn radix (digitLoop next digit fuel un p)
    = un * radix ^ Z.of_nat (length p) + valueIn radix p.
Proof.
  induction fuel as [|fuel IH]; intros un p Hun.
  - change (2 ^ Z.of_nat 0) with 1 in Hun. assert (un = 0) by lia. subst un.
    cbn [digitLoop]. lia.
  - cbn [digitLoop]. destruct (Z.gtb_spec un 0) as [Hpos|]; [|lia].
    rewrite Nat2Z.inj_succ, Z.pow_succ_r in Hun by lia.
    assert (Hq : 0 <= un / radix < 2 ^ Z.of_nat fuel).
    { split; [apply Z.div_pos; lia|].
      apply Z.div_lt_upper_bound; [lia|]. nia. }
    rewrite next_div by lia. rewrite IH by exact Hq.
    unfold valueIn at 1. unfold valueFromIn. cbn [fold_left length].
    fold (valueFromIn radix (radix * 0 + digitValue (digit un)) p).
    rewrite valueFromIn_shift.
    destruct (digit_mod un ltac:(lia)) as (-> & _).
    rewrite Nat2Z.inj_succ, Z.pow_succ_r by lia.
    pose proof (Z.div_mod un radix ltac:(lia)) as Hdm.
    set (P := radix ^ Z.of_nat (length p)) in *.
    set (q := un / radix) in *. set (m := un mod radix) in *.
    rewrite Hdm. ring.
Qed.

Lemma digitLoop_digits fuel :
  forall un p,
    0 <= un ->
    Forall (fun d => isHexDigit d = true /\ 0 <= digitValue d < radix) p ->
    Forall (fun d => isHexDigit d = true /\ 0 <= digitValue d < radix)
      (digitLoop next digit fuel un p).
Proof.
  induction fuel as [|fuel IH]; intros un p Hun Hp; [exact Hp|].
  cbn [digitLoop]. destruct (Z.gtb_spec un 0) as [Hpos|]; [|exact Hp].
  apply IH.
  - rewrite next_div by lia. apply Z.div_pos; lia.
  - constructor; [|exact Hp].
    destruct (digit_mod un Hun) as (Hv & Hh). split; [exact Hh|].
    rewrite Hv. apply Z.mod_pos_bound. lia.
Qed.

Lemma digitLoop_head fuel :
  forall un p,
    0 < un < 2 ^ Z.of_nat fuel ->
    digitValue (hd ch_0 (digitLoop next digit fuel un p)) <> 0.
Proof.
  induction fuel as [|fuel IH]; intros un p Hun.
  - change (2 ^ Z.of_nat 0) with 1 in Hun. lia.
  - cbn [digitLoop]. destruct (Z.gtb_spec un 0) as [Hpos|]; [|lia].
    rewrite Nat2Z.inj_succ, Z.pow_succ_r in Hun by lia.
    rewrite next_div by lia.
    destruct (Z.eq_dec (un / radix) 0) as [Hz|Hnz].
    + rewrite Hz, digitLoop_done. cbn [hd].
      destruct (digit_mod un ltac:(lia)) as (-> & _).
      apply Z.div_small_iff in Hz; [|lia].
      rewrite Z.mod_small by lia. lia.
    + apply IH. split.
      * pose proof (Z.div_pos un radix ltac:(lia) ltac:(lia)). lia.
      * apply Z.div_lt_upper_bound; [lia|]. nia.
Qed.

End DigitLoop.

Lemma land_ones u k : 0 <= u -> 0 <= k -> Z.land u (2 ^ k - 1) = u mod 2 ^ k.
Proof.
  intros Hu Hk.
  replace (2 ^ k - 1) with (Z.ones k) by (rewrite Z.ones_equiv; lia).
  apply Z.land_ones. exact Hk.
Qed.

Lemma decimalDigit_ok u :
  0 <= u ->
  digitValue (decimalDigit u) = u mod 10 /\ isHexDigit (decimalDigit u) = true.
Proof.
  intros Hu. unfold decimalDigit, DivideUnsignedBy10.
  pose proof (Z.mod_pos_bound u 10 ltac:(lia)) as Hm.
  replace (48 + u - 10 * (u / 10)) with (48 + u mod 10)
    by (rewrite (Z.mod_eq u 10) by lia; lia).
  unfold digitValue, isHexDigit, isDigit.
  destruct (Z.leb_spec 65 (48 + u mod 10)); [lia|]. split; [lia|].
  destruct (Z.leb_spec 48 (48 + u mod 10)); [|lia].
  destruct (Z.leb_spec (48 + u mod 10) 57); [reflexivity|lia].
Qed.

Lemma smallDigit_ok k u :
  0 <= u -> 1 <= k <= 3 ->
  digitValue (ch_0 + Z.land u (2 ^ k - 1)) = u mod 2 ^ k /\
  isHexDigit (ch_0 + Z.land u (2 ^ k - 1)) = true.
Proof.
  intros Hu Hk. rewrite land_ones by lia.
  assert (Hp : 2 <= 2 ^ k <= 8).
  { assert (Hc : k = 1 \/ k = 2 \/ k = 3) by lia.
    destruct Hc as [Hc|[Hc|Hc]]; subst k; cbn; lia. }
  pose proof (Z.mod_pos_bound u (2 ^ k) ltac:(lia)) as Hm.
  unfold digitValue, isHexDigit, isDigit.
  destruct (Z.leb_spec 65 (48 + u mod 2 ^ k)); [lia|]. split; [lia|].
  destruct (Z.leb_spec 48 (48 + u mod 2 ^ k)); [|lia].
  destruct (Z.leb_spec (48 + u mod 2 ^ k) 57); [reflexivity|lia].
Qed.

Lemma hexDigit_ok u :
  0 <= u ->
  digitValue (hexDigit u) = u mod 16 /\ isHexDigit (hexDigit u) = true.
Proof.
  intros Hu. unfold hexDigit. cbv zeta.
  change 15 with (2 ^ 4 - 1). rewrite land_ones by lia.
  change (2 ^ 4) with 16.
  pose proof (Z.mod_pos_bound u 16 ltac:(lia)) as Hm.
  unfold digitValue, isHexDigit, isDigit.
  destruct (Z.geb_spec (u mod 16) 10).
  - destruct (Z.leb_spec 65 (65 + (u mod 16 - 10))); [|lia]. split; [lia|].
    destruct (Z.leb_spec (65 + (u mod 16 - 10)) 70); [|lia].
    cbn [andb]. apply orb_true_r.
  - destruct (Z.leb_spec 65 (48 + u mod 16)); [lia|]. split; [lia|].
    destruct (Z.leb_spec 48 (48 + u mod 16)); [|lia].
    destruct (Z.leb_spec (48 + u mod 16) 57); [reflexivity|lia].
Qed.

Lemma shiftr_div u k : 0 <= k -> Z.shiftr u k = u / 2 ^ k.
Proof. intros Hk. apply Z.shiftr_div_pow2. exact Hk. Qed.

Lemma Some_inj {A} (a b : A) : Some a = Some b -> a = b.
Proof. intros H. now injection H. Qed.

Lemma digitLoop_all radix next digit un p :
  2 <= radix <= 16 ->
  (forall u, 0 <= u -> next u = u / radix) ->
  (forall u, 0 <= u ->
     digitValue (digit u) = u mod radix /\ isHexDigit (digit u) = true) ->
  0 <= un < 2 ^ 64 ->
  p = digitLoop next digit 64 un [] ->
  valueIn radix p = un /\
  Forall (fun d => isHexDigit d = true /\ 0 <= digitValue d < radix) p /\
  (un = 0 -> p = []) /\
  (0 < un -> digitValue (hd ch_0 p) <> 0).
Proof.
  intros Hr Hn Hd Hun ->.
  assert (Hun' : 0 <= un < 2 ^ Z.of_nat 64) by exact Hun.
  split; [|split; [|split]].
  - rewrite (digitLoop_value radix next digit Hr Hn Hd 64 un [] Hun').
    change (Z.of_nat (length (@nil Z))) with 0.
    change (valueIn radix []) with 0. rewrite Z.pow_0_r. lia.
  - apply (digitLoop_digits radix next digit Hr Hn Hd); [lia|constructor].
  - intros ->. apply digitLoop_done.
  - intros Hpos.
    apply (digitLoop_head radix next digit Hr Hn Hd 64 un []).
    split; [exact Hpos|exact (proj2 Hun')].
Qed.

(** X17: the digits [OutputInteger64] converts a magnitude to are its digits
    in the radix of the descriptor: they denote the magnitude, they are
    digits of that radix, and the first of them is not a zero; the
    magnitude 0 has no digits.  Under [I] and [G] the quotient by 10 is
    the one the model of [DivideUnsignedBy10] gives. *)
Theorem converted_digits_denote_the_value (descr un : Z) (p : list Z) :
  0 <= un < 2 ^ 64 ->
  convertDigits descr un = Some p ->
  valueIn (radixOf descr) p = un /\
  Forall (fun d => isHexDigit d = true /\ 0 <= digitValue d < radixOf descr) p /\
  (un = 0 -> p = []) /\
  (0 < un -> digitValue (hd ch_0 p) <> 0).
Proof.
  intros Hun Hp. unfold convertDigits in Hp. unfold radixOf.
  destruct ((descr =? ch_G) || (descr =? ch_I)) eqn:Hdec.
  - assert (Hr : (descr =? ch_B) = false /\ (descr =? ch_O) = false /\
                 (descr =? ch_Z) = false).
    { apply orb_true_iff in Hdec as [H|H]; apply Z.eqb_eq in H; subst descr;
        (split; [reflexivity|split; reflexivity]). }
    destruct Hr as (-> & -> & ->). apply Some_inj in Hp. symmetry in Hp.
    exact (digitLoop_all 10 DivideUnsignedBy10 decimalDigit un p
             ltac:(lia) (fun u _ => eq_refl) decimalDigit_ok Hun Hp).
  - destruct (descr =? ch_B).
    { apply Some_inj in Hp. symmetry in Hp.
      refine (digitLoop_all 2 (fun u => Z.shiftr u 1) binaryDigit un p
                ltac:(lia) _ _ Hun Hp).
      - intros u _. now rewrite shiftr_div by lia.
      - intros u Hu. exact (smallDigit_ok 1 u Hu ltac:(lia)). }
    destruct (descr =? ch_O).
    { apply Some_inj in Hp. symmetry in Hp.
      refine (digitLoop_all 8 (fun u => Z.shiftr u 3) octalDigit un p
                ltac:(lia) _ _ Hun Hp).
      - intros u _. now rewrite shiftr_div by lia.
      - intros u Hu. exact (smallDigit_ok 3 u Hu ltac:(lia)). }
    destruct (descr =? ch_Z); [|discriminate].
    apply Some_inj in Hp. symmetry in Hp.
    refine (digitLoop_all 16 (fun u => Z.shiftr u 4) hexDigit un p
              ltac:(lia) _ hexDigit_ok Hun Hp).
    intros u _. now rewrite shiftr_div by lia.
Qed.

(** * The fields of [OutputInteger64] *)

Lemma magnitude_abs n : - 2 ^ 63 <= n < 2 ^ 63 -> magnitude n = Z.abs n.
Proof.
  intros Hn. unfold magnitude, wrap_u64, wrap_i64.
  destruct (Z.ltb_spec n 0) as [Hneg|Hpos].
  - destruct (Z.eq_dec n (- 2 ^ 63)) as [->|Hne]; [reflexivity|].
    rewrite (Z.mod_small (- n + 2 ^ 63)) by lia.
    rewrite Z.mod_small by lia. lia.
  - rewrite Z.mod_small by lia. lia.
Qed.



(** X19: a value whose digits alone are more than the width of the field
    fills the field with asterisks, and [OutputInteger64] reports
    success. *)
Theorem field_too_narrow_is_asterisks (edit : DataEdit) (n : Z) (p : list Z)
    (c : Cookie) :
  convertDigits (descriptor edit) (magnitude n) = Some p ->
  0 < width edit < Z.of_nat (length p) ->
  wfStatement (snd c) ->
  at_ (snd c) + width edit <= internalLength_ (snd c) ->
  EditInteger64 edit n c
  = Ok (true,
        (fst c,
         set_buffer
           (memcpy (internal_ (snd c)) (at_ (snd c)) (width edit)
              (List.repeat ch_star (Z.to_nat (width edit))))
           (at_ (snd c) + width edit) (snd c))).
Proof.
  intros Hp Hw Hwf Hroom. unfold EditInteger64. rewrite Hp. cbv zeta.
  set (signChars := if _ && _ then 1 else 0).
  assert (Hs : 0 <= signChars <= 1) by (unfold signChars; destruct (_ && _); lia).
  set (nd := Z.of_nat (length p)) in *.
  assert (Hblank : match digits edit with
                   | Some m => (nd <=? m) && (m =? 0) && (n =? 0)
                   | None => false
                   end = false).
  { destruct (digits edit) as [m|]; [|reflexivity].
    destruct (Z.leb_spec nd m); [|reflexivity].
    destruct (Z.eqb_spec m 0); [lia|reflexivity]. }
  rewrite Hblank.
  set (lz := match digits edit with Some m => _ | None => _ end).
  assert (Hlz : 0 <= lz).
  { unfold lz. destruct (digits edit) as [m|].
    - destruct (Z.leb_spec nd m).
      + destruct ((m =? 0) && (n =? 0)); lia.
      + destruct (n =? 0); lia.
    - destruct (n =? 0); lia. }
  destruct (Z.gtb_spec (width edit) 0); [|lia].
  destruct (Z.gtb_spec (signChars + lz + nd) (width edit)); [|lia].
  cbn [andb].
  rewrite emitRepeated_fits by (try assumption; lia).
  rewrite Z2Nat.id by lia. reflexivity.
Qed.

Lemma field_too_narrow_is_asterisks_witness :
  let edit := mkEdit ch_I ch_nul 2 None None defaultModes 1 in
  let c : Cookie :=
    (mkControl 0 100 [mkIteration 0 unlimited] (chars "(I2)") 3 4,
     mkStatement (chars "        ") 8 0 defaultModes false) in
  convertDigits (descriptor edit) (magnitude 678) = Some (chars "678") /\
  0 < width edit < Z.of_nat (length (chars "678")) /\
  wfStatement (snd c) /\
  at_ (snd c) + width edit <= internalLength_ (snd c) /\
  EditInteger64 edit 678 c
  = Ok (true,
        (fst c,
         set_buffer
           (memcpy (internal_ (snd c)) (at_ (snd c)) (width edit)
              (List.repeat ch_star (Z.to_nat (width edit))))
           (at_ (snd c) + width edit) (snd c))).
Proof.
  intros edit c.
  assert (Hp : convertDigits (descriptor edit) (magnitude 678)
               = Some (chars "678")) by reflexivity.
  assert (Hw : 0 < width edit < Z.of_nat (length (chars "678"))) by (cbn; lia).
  assert (Hwf : wfStatement (snd c)) by (unfold wfStatement; cbn; lia).
  assert (Hroom : at_ (snd c) + width edit <= internalLength_ (snd c))
    by (cbn; lia).
  split; [exact Hp|]. split; [exact Hw|]. split; [exact Hwf|].
  split; [exact Hroom|].
  exact (field_too_narrow_is_asterisks edit 678 (chars "678") c Hp Hw Hwf Hroom).
Defined.

Lemma Emit_cookie data (c : Cookie) :
  wfStatement (snd c) ->
  at_ (snd c) + Z.of_nat (length data) <= internalLength_ (snd c) ->
  io_Emit data c
  = Ok (true,
        (fst c,
         set_buffer (memcpy (internal_ (snd c)) (at_ (snd c))
                       (Z.of_nat (length data)) data)
           (at_ (snd c) + Z.of_nat (length data)) (snd c))).
Proof.
  intros Hwf Hfit. cbn [io_Emit Cookie_IoStatementState].
  rewrite (Emit_fits data (snd c) Hwf Hfit). reflexivity.
Qed.

(** X20: a field with no [.m] part whose width is 0, or just what the value
    needs, holds the sign and the digits of the value and nothing else,
    and [OutputInteger64] reports success. *)
Theorem field_as_wide_as_needed (edit : DataEdit) (n : Z) (p : list Z)
    (c : Cookie) :
  convertDigits (descriptor edit) (magnitude n) = Some p ->
  digits edit = None ->
  n <> 0 ->
  width edit <= 0 \/ width edit = Z.of_nat (length (signText edit n ++ p)) ->
  wfStatement (snd c) ->
  at_ (snd c) + Z.of_nat (length (signText edit n ++ p))
  <= internalLength_ (snd c) ->
  EditInteger64 edit n c
  = Ok (true,
        (fst c,
         set_buffer
           (memcpy (internal_ (snd c)) (at_ (snd c))
              (Z.of_nat (length (signText edit n ++ p))) (signText edit n ++ p))
           (at_ (snd c) + Z.of_nat (length (signText edit n ++ p))) (snd c))).
Proof.
  intros Hp Hm Hn Hw Hwf Hroom. unfold EditInteger64. rewrite Hp, Hm. cbv zeta.
  destruct (Z.eqb_spec n 0) as [|_]; [contradiction|].
  unfold signText in *.
  set (signed := ((descriptor edit =? ch_G) || (descriptor edit =? ch_I)) &&
                 ((n <? 0) ||
                  negb (Z.land (editingFlags (modes edit)) signPlus =? 0))) in *.
  set (nd := Z.of_nat (length p)).
  pose proof Hwf as (Hlen & Hat & Hsz).
  destruct signed.
  - cbn [length app] in Hw, Hroom |- *.
    rewrite Nat2Z.inj_succ in Hw, Hroom. fold nd in Hw, Hroom.
    change (1 + 0 + nd) with (1 + nd).
    assert (Hnd : 0 <= nd) by (unfold nd; lia).
    replace ((width edit >? 0) && (1 + nd >? width edit)) with false
      by (destruct (Z.gtb_spec (width edit) 0);
          destruct (Z.gtb_spec (1 + nd) (width edit)); cbn; lia).
    destruct (Z.ltb_spec (1 + nd) (width edit)); [lia|].
    change (1 =? 0) with false. cbv iota.
    set (sign := if n <? 0 then ch_minus else ch_plus).
    unfold bind at 1.
    rewrite (Emit_cookie [sign] c Hwf) by (cbn [length]; lia).
    cbn [negb emitRepeated Z.to_nat]. unfold bind at 1. cbn [ret negb].
    set (c1 := (fst c, set_buffer _ _ (snd c))).
    assert (Hwf1 : wfStatement (snd c1)).
    { unfold c1, wfStatement; cbn. rewrite memcpy_length by (cbn [length]; lia).
      cbn [length]. lia. }
    rewrite (Emit_cookie p c1 Hwf1) by (unfold c1; cbn; fold nd; lia).
    unfold c1. cbn [fst snd set_buffer internal_ at_ internalLength_ modes_ eor_].
    rewrite (memcpy_adjacent (internal_ (snd c)) (at_ (snd c)) [sign] p)
      by (cbn [length]; lia).
    cbn [length app]. rewrite Nat2Z.inj_succ. fold nd.
    change (Z.of_nat 1) with 1.
    replace (at_ (snd c) + 1 + nd) with (at_ (snd c) + Z.succ nd) by lia.
    reflexivity.
  - cbn [length app] in Hw, Hroom |- *. fold nd in Hw, Hroom.
    change (0 + 0 + nd) with nd.
    assert (Hnd : 0 <= nd) by (unfold nd; lia).
    replace ((width edit >? 0) && (nd >? width edit)) with false
      by (destruct (Z.gtb_spec (width edit) 0);
          destruct (Z.gtb_spec nd (width edit)); cbn; lia).
    destruct (Z.ltb_spec nd (width edit)); [lia|].
    change (0 =? 0) with true. cbv iota.
    unfold bind at 1. cbn [ret negb emitRepeated Z.to_nat].
    unfold bind at 1. cbn [ret negb].
    rewrite (Emit_cookie p c Hwf) by (fold nd; lia).
    reflexivity.
Qed.

Lemma field_as_wide_as_needed_witness :
  let edit := mkEdit ch_I ch_nul 0 None None (mkModes signPlus TiesToEven) 1 in
  let c : Cookie :=
    (mkControl 0 100 [mkIteration 0 unlimited] (chars "(SP,I0)") 6 7,
     mkStatement (chars "        ") 8 2 (mkModes signPlus TiesToEven) false) in
  convertDigits (descriptor edit) (magnitude 678) = Some (chars "678") /\
  digits edit = None /\ 678 <> 0 /\
  (width edit <= 0 \/
   width edit = Z.of_nat (length (signText edit 678 ++ chars "678"))) /\
  wfStatement (snd c) /\
  at_ (snd c) + Z.of_nat (length (signText edit 678 ++ chars "678"))
  <= internalLength_ (snd c) /\
  EditInteger64 edit 678 c
  = Ok (true,
        (fst c,
         set_buffer
           (memcpy (internal_ (snd c)) (at_ (snd c))
              (Z.of_nat (length (signText edit 678 ++ chars "678")))
              (signText edit 678 ++ chars "678"))
           (at_ (snd c) + Z.of_nat (length (signText edit 678 ++ chars "678")))
           (snd c))).
Proof.
  intros edit c.
  assert (Hp : convertDigits (descriptor edit) (magnitude 678)
               = Some (chars "678")) by reflexivity.
  assert (Hm : digits edit = None) by reflexivity.
  assert (Hn : 678 <> 0) by lia.
  assert (Hw : width edit <= 0 \/
               width edit = Z.of_nat (length (signText edit 678 ++ chars "678")))
    by (left; cbn; lia).
  assert (Hwf : wfStatement (snd c)) by (unfold wfStatement; cbn; lia).
  assert (Hroom : at_ (snd c)
                  + Z.of_nat (length (signText edit 678 ++ chars "678"))
                  <= internalLength_ (snd c)) by (cbn; lia).
  split; [exact Hp|]. split; [exact Hm|]. split; [exact Hn|].
  split; [exact Hw|]. split; [exact Hwf|]. split; [exact Hroom|].
  exact (field_as_wide_as_needed edit 678 (chars "678") c Hp Hm Hn Hw Hwf Hroom).
Defined.

(** What the field of the witness holds. *)
Example plus_sign_under_SP :
  observed (formattedOutput 100 8 8 "(SP,I0)" [678])
  = Ok ([true], 0, "+678    "%string, 4, false).
Proof. vm_compute. reflexivity. Qed.

(** * Signed counts, and the edits at sample FORMATs *)

Lemma digitsValueFrom_nonneg l :
  forall r, 0 <= r -> digitsFitFrom r l = true -> 0 <= digitsValueFrom r l.
Proof.
  induction l as [|x l IH]; intros r Hr Hl; [exact Hr|].
  cbn [digitsFitFrom] in Hl. apply andb_true_iff in Hl as (Hl & Hl').
  apply andb_true_iff in Hl as (Hx & _). apply isDigit_range in Hx.
  unfold digitsValueFrom. cbn [fold_left]. apply IH; [lia|exact Hl'].
Qed.

Section Signs.
Context {C : Type} {ctx : FormatContext C}.

(** X21: a sign handed to [GetIntField] with the digits under the cursor, as
    [CueUpNextDataEdit] does for a repeat count: after a minus the digits
    are read and negated; after a plus nothing is read, the result is 0
    and the digits are left under the cursor. *)
Theorem GetIntField_after_a_sign f pre ds rest (c : C) :
  At f pre (ds ++ rest) ->
  ds <> [] -> (length ds <= 9)%nat -> forallb isDigit ds = true ->
  isDigit (hd ch_nul rest) = false ->
  GetIntField ch_minus (f, c)
  = Ok (- digitsValue ds, (set_offset (offset_ f + Z.of_nat (length ds)) f, c)) /\
  GetIntField ch_plus (f, c) = Ok (0, (f, c)).
Proof.
  intros HAt Hne Hlen Hds Hrest.
  pose proof (short_number ds Hne Hlen Hds) as Hnum.
  assert (Hfit : digitsFitFrom 0 ds = true)
    by (destruct ds; [congruence|exact Hnum]).
  assert (Hend : endsNumber rest = true) by (unfold endsNumber; now rewrite Hrest).
  split.
  - unfold GetIntField. cbn [fst snd].
    change (ch_minus =? ch_nul) with false. cbv iota.
    change (ch_minus =? ch_minus) with true. cbn [negb andb]. cbv iota zeta.
    change (ch_nul =? ch_nul) with true. cbv iota.
    rewrite (GetIntField_loop_digits ds 0 f pre rest HAt Hfit Hend).
    fold (digitsValue ds).
    pose proof (digitsValueFrom_nonneg ds 0 ltac:(lia) Hfit) as Hv.
    fold (digitsValue ds) in Hv.
    destruct (Z.gtb_spec (digitsValue ds * -1) 0); [lia|].
    cbn [andb]. f_equal. f_equal. lia.
  - unfold GetIntField. cbn [fst snd].
    change (ch_plus =? ch_nul) with false. cbv iota.
    change (ch_plus =? ch_minus) with false.
    change (ch_plus =? ch_plus) with true. cbn [negb andb]. cbv iota zeta.
    change (ch_plus =? ch_nul) with false. cbv iota.
    change (isDigit ch_plus) with false. cbv iota. reflexivity.
Qed.

End Signs.

(** ** The properties at work *)

Lemma At_controlAt (pre rest : string) :
  At (controlAt (pre ++ rest) (Z.of_nat (length (chars pre))))
     (chars pre) (chars rest).
Proof.
  unfold At, controlAt, chars. cbn [format_ offset_ formatLength_].
  assert (H : list_ascii_of_string (pre ++ rest)
              = list_ascii_of_string pre ++ list_ascii_of_string rest).
  { induction pre as [|a pre IH]; [reflexivity|]. cbn. now rewrite IH. }
  rewrite H, map_app. auto.
Qed.

Lemma GetIntField_reads_short_numbers_witness :
  GetIntField ch_nul (controlAt "(I12)" 2, blank8)
  = Ok (12, (set_offset 4 (controlAt "(I12)" 2), blank8)).
Proof.
  refine (GetIntField_reads_short_numbers (controlAt "(I12)" 2)
            (chars "(I") (chars "12") (chars ")") blank8 _ _ _ _ _).
  - exact (At_controlAt "(I" "12)").
  - discriminate.
  - cbn. lia.
  - reflexivity.
  - reflexivity.
Defined.

Lemma GetIntField_result_in_range_witness :
  - INT_MAX <= 12 <= INT_MAX /\
  snd (set_offset 4 (controlAt "(I12)" 2), blank8) = blank8 /\
  fst (set_offset 4 (controlAt "(I12)" 2), blank8)
  = set_offset (offset_ (fst (set_offset 4 (controlAt "(I12)" 2), blank8)))
      (controlAt "(I12)" 2) /\
  offset_ (controlAt "(I12)" 2)
  <= offset_ (fst (set_offset 4 (controlAt "(I12)" 2), blank8))
  <= Z.max (offset_ (controlAt "(I12)" 2)) (formatLength_ (controlAt "(I12)" 2)).
Proof.
  refine (GetIntField_result_in_range ch_nul (controlAt "(I12)" 2) blank8 12
            (set_offset 4 (controlAt "(I12)" 2), blank8) _).
  reflexivity.
Defined.

Lemma GetIntField_after_a_sign_witness :
  GetIntField ch_minus (controlAt "(-2P)" 2, blank8)
  = Ok (- 2, (set_offset 3 (controlAt "(-2P)" 2), blank8)) /\
  GetIntField ch_plus (controlAt "(-2P)" 2, blank8)
  = Ok (0, (controlAt "(-2P)" 2, blank8)).
Proof.
  refine (GetIntField_after_a_sign (controlAt "(-2P)" 2)
            (chars "(-") (chars "2") (chars "P)") blank8 _ _ _ _ _).
  - exact (At_controlAt "(-" "2P)").
  - discriminate.
  - cbn. lia.
  - reflexivity.
  - reflexivity.
Defined.


Lemma unknown_letter_is_refused_witness :
  CueUpTrip false 0 (controlAt "(Q,I1)" 1, blank8)
  = Crash "Unknown '%c' edit descriptor in FORMAT".
Proof.
  refine (unknown_letter_is_refused false 0 (controlAt "(Q,I1)" 1)
            (chars "(") [] (code "Q") (chars ",I1)") blank8 _ _ _ _ _ _).
  - exact (At_controlAt "(" "Q,I1)").
  - reflexivity.
  - reflexivity.
  - reflexivity.
  - left. reflexivity.
  - discriminate.
Defined.

Lemma format_must_begin_with_parenthesis_witness :
  CueUpTrip false (-1) (mkControl 0 100 [] (chars "I3)") 0 3, blank8)
  = Crash "FORMAT lacks initial '('".
Proof.
  refine (format_must_begin_with_parenthesis false (-1)
            (mkControl 0 100 [] (chars "I3)") 0 3)
            [] [] (code "I") (chars "3)") blank8 _ _ _ _ _).
  - reflexivity.
  - unfold At. cbn. auto.
  - reflexivity.
  - reflexivity.
  - discriminate.
Defined.

Lemma invalid_character_is_refused_witness :
  CueUpTrip false 0 (controlAt "(?)" 1, blank8)
  = Crash "Invalid character '%c' in FORMAT".
Proof.
  refine (invalid_character_is_refused false 0 (controlAt "(?)" 1)
            (chars "(") [] (code "?") (chars ")") blank8 _ _ _ _ _ _ _).
  - discriminate.
  - exact (At_controlAt "(" "?)").
  - reflexivity.
  - reflexivity.
  - cbn. lia.
  - reflexivity.
  - reflexivity.
Defined.

Lemma unterminated_literal_is_refused_witness :
  CueUpTrip false 0 (controlAt "('ab" 1, blank8)
  = Crash "FORMAT missing closing quote on character literal".
Proof.
  refine (unterminated_literal_is_refused false 0 (controlAt "('ab" 1)
            (chars "(") ch_squote (chars "ab") blank8 _ _ _ _).
  - exact (At_controlAt "(" "'ab").
  - reflexivity.
  - reflexivity.
  - discriminate.
Defined.

Lemma doubled_quote_is_emitted_once_witness :
  CueUpTrip false 0 (controlAt "('a''b')" 1, blank8)
  = match Emit (chars "a" ++ [ch_squote]) blank8 with
    | Ok c' =>
        Ok (Continue 0,
            (set_offset (offset_ (controlAt "('a''b')" 1)
                         + Z.of_nat (length (chars "a") + 2))
               (controlAt "('a''b')" 1), c'))
    | Crash msg => Crash msg
    | OutOfFuel => OutOfFuel
    end /\
  At (set_offset (offset_ (controlAt "('a''b')" 1)
                  + Z.of_nat (length (chars "a") + 2))
        (controlAt "('a''b')" 1))
     (chars "(" ++ ch_squote :: chars "a" ++ [ch_squote])
     (ch_squote :: chars "b')").
Proof.
  refine (doubled_quote_is_emitted_once false 0 (controlAt "('a''b')" 1)
            (chars "(") ch_squote (chars "a") (chars "b')") blank8 _ _ _ _).
  - exact (At_controlAt "(" "'a''b')").
  - reflexivity.
  - reflexivity.
  - discriminate.
Defined.


Lemma colon_stops_only_the_end_witness :
  FinishOutput 1 (controlAt "(I1:'x')" 3, blank8)
  = Ok (tt, (set_offset (offset_ (controlAt "(I1:'x')" 3) + 1)
               (controlAt "(I1:'x')" 3), blank8)) /\
  CueUpTrip false 0 (controlAt "(I1:'x')" 3, blank8)
  = CueUpTrip false 0
      (set_offset (offset_ (controlAt "(I1:'x')" 3) + 1)
         (controlAt "(I1:'x')" 3), blank8).
Proof.
  refine (colon_stops_only_the_end 0 0 (controlAt "(I1:'x')" 3)
            (chars "(I1") ch_squote (chars "x')") blank8 _).
  exact (At_controlAt "(I1" ":'x')").
Defined.

Lemma FinishOutput_at_the_last_parenthesis_witness :
  FinishOutput 1 (controlAt "(I1)" 3, blank8)
  = Ok (tt, (set_offset (offset_ (controlAt "(I1)" 3) + 1) (controlAt "(I1)" 3),
             blank8)).
Proof.
  refine (FinishOutput_at_the_last_parenthesis 0 (controlAt "(I1)" 3)
            (chars "(I1") [] (mkIteration 0 unlimited) blank8 _ _).
  - exact (At_controlAt "(I1" ")").
  - reflexivity.
Defined.

Lemma internal_unit_has_no_slash_witness :
  GetNext 1 1 (controlAt "(I1/I2)" 3, blank8)
  = Crash "A / control edit descriptor may not appear in this FORMAT string".
Proof.
  refine (internal_unit_has_no_slash 0 (controlAt "(I1/I2)" 3)
            (chars "(I1") [] (chars "I2)") (mkIteration 0 unlimited) blank8 _ _).
  - reflexivity.
  - right. split; [exact (At_controlAt "(I1" "/I2)")|reflexivity].
Defined.

Lemma converted_digits_denote_the_value_witness :
  valueIn (radixOf ch_Z) (chars "FE") = 254 /\
  Forall (fun d => isHexDigit d = true /\ 0 <= digitValue d < radixOf ch_Z)
    (chars "FE") /\
  (254 = 0 -> chars "FE" = []) /\
  (0 < 254 -> digitValue (hd ch_0 (chars "FE")) <> 0).
Proof.
  refine (converted_digits_denote_the_value ch_Z 254 (chars "FE") _ _).
  - lia.
  - reflexivity.
Defined.

(** * The scan stays inside the FORMAT and the stack *)

Lemma bind_inv {S A B} (m : M S A) (k : A -> M S B) s r :
  bind m k s = Ok r -> exists a s1, m s = Ok (a, s1) /\ k a s1 = Ok r.
Proof.
  unfold bind. destruct (m s) as [[a s1]| |]; try discriminate. eauto.
Qed.

Lemma Fwd_refl f : Fwd f f.
Proof. unfold Fwd. repeat split; lia. Qed.

Lemma Fwd_trans f1 f2 f3 : Fwd f1 f2 -> Fwd f2 f3 -> Fwd f1 f3.
Proof.
  unfold Fwd. intros (A1 & A2 & A3 & A4 & A5) (B1 & B2 & B3 & B4 & B5).
  repeat split; try congruence; rewrite ?A2 in *; lia.
Qed.

Lemma Fwd_set_offset f o :
  offset_ f <= o <= Z.max (offset_ f) (formatLength_ f) -> Fwd f (set_offset o f).
Proof. unfold Fwd. cbn. auto. Qed.

Section Bounds.
Context {C : Type} {ctx : FormatContext C}.

Lemma GetNextChar_inv f (c : C) ch f' c' :
  GetNextChar (f, c) = Ok (ch, (f', c')) ->
  f' = set_offset (offset_ f + 1) f /\ c' = c /\ offset_ f < formatLength_ f.
Proof.
  unfold GetNextChar. cbn [fst snd].
  destruct (Z.leb_spec (formatLength_ f) (offset_ f)) as [|Hlt]; [discriminate|].
  intros Heq. injection Heq as _ <- <-. auto.
Qed.

Lemma GetNextChar_Fwd f (c : C) ch f' c' :
  GetNextChar (f, c) = Ok (ch, (f', c')) ->
  Fwd f f' /\ c' = c /\ offset_ f < offset_ f'.
Proof.
  intros H. apply GetNextChar_inv in H as (-> & -> & Hlt).
  split; [apply Fwd_set_offset; lia|]. split; [reflexivity|cbn; lia].
Qed.

Lemma GetIntField_Fwd first f (c : C) n f' c' :
  GetIntField first (f, c) = Ok (n, (f', c')) -> Fwd f f' /\ c' = c.
Proof.
  intros H. apply GetIntField_range in H as (_ & Hc & Hf & Ho).
  cbn [fst snd] in *. split; [|exact Hc].
  rewrite Hf. apply Fwd_set_offset. exact Ho.
Qed.

Lemma skipSeparators_Fwd fuel stop :
  forall ch f (c : C) r f' c',
    skipSeparators fuel stop ch (f, c) = Ok (r, (f', c')) ->
    Fwd f f' /\ c' = c.
Proof.
  induction fuel as [|fuel IH]; intros ch f c r f' c' H; cbn [skipSeparators] in H;
    destruct ((ch =? ch_comma) || (ch =? ch_colon));
    try (injection H as _ <- <-; split; [apply Fwd_refl|reflexivity]);
    destruct (stop && (ch =? ch_colon));
    try (injection H as _ <- <-; split; [apply Fwd_refl|reflexivity]);
    try discriminate.
  apply bind_inv in H as (x & [f1 c1] & H1 & H2).
  apply GetNextChar_Fwd in H1 as (F1 & -> & _).
  apply IH in H2 as (F2 & ->).
  split; [exact (Fwd_trans _ _ _ F1 F2)|reflexivity].
Qed.

Lemma readRepeat_Fwd ch0 f (c : C) r f' c' :
  readRepeat ch0 (f, c) = Ok (r, (f', c')) ->
  Fwd f f' /\ c' = c.
Proof.
  unfold readRepeat. intros H.
  destruct ((ch0 =? ch_minus) || (ch0 =? ch_plus) || isDigit ch0).
  - apply bind_inv in H as (n & [f1 c1] & H1 & H).
    apply bind_inv in H as (x & [f2 c2] & H2 & H).
    apply GetIntField_Fwd in H1 as (F1 & ->).
    apply GetNextChar_Fwd in H2 as (F2 & -> & _).
    injection H as _ <- <-. split; [exact (Fwd_trans _ _ _ F1 F2)|reflexivity].
  - destruct (ch0 =? ch_star).
    + apply bind_inv in H as (x & [f1 c1] & H1 & H).
      apply GetNextChar_Fwd in H1 as (F1 & -> & _).
      destruct (negb (x =? ch_lparen)); [discriminate|].
      injection H as _ <- <-. split; [exact F1|reflexivity].
    + injection H as _ <- <-. split; [apply Fwd_refl|reflexivity].
Qed.

Lemma PeekNext_inside f :
  PeekNext f <> ch_nul -> offset_ f < formatLength_ f.
Proof.
  unfold PeekNext. destruct (Z.ltb_spec (offset_ f) (formatLength_ f)); [auto|].
  congruence.
Qed.

Lemma readDataEdit_Fwd f (c : C) e f' c' :
  readDataEdit (f, c) = Ok (e, (f', c')) ->
  Fwd f f' /\ c' = c /\ offset_ f < formatLength_ f.
Proof.
  unfold readDataEdit. intros H.
  apply bind_inv in H as (x & [f1 c1] & H1 & H).
  pose proof (GetNextChar_inv _ _ _ _ _ H1) as (_ & _ & Hlt).
  apply GetNextChar_Fwd in H1 as (F1 & -> & _).
  apply bind_inv in H as (v & [f2 c2] & H2 & H).
  assert (F2 : Fwd f1 f2 /\ c2 = c).
  { unfold readVariation in H2. destruct (Capitalize x =? ch_E).
    - rewrite bind_getControl in H2. cbn [fst snd] in H2.
      destruct (isUpper (Capitalize (PeekNext f1))) eqn:Hup.
      + unfold bind, setOffset, onControl, ret in H2. cbn [fst snd] in H2.
        injection H2 as _ <- <-. split; [|reflexivity].
        apply Fwd_set_offset.
        assert (Hnz : PeekNext f1 <> ch_nul) by (intros E; now rewrite E in Hup).
        pose proof (PeekNext_inside _ Hnz). lia.
      + injection H2 as _ <- <-. split; [apply Fwd_refl|reflexivity].
    - injection H2 as _ <- <-. split; [apply Fwd_refl|reflexivity]. }
  destruct F2 as (F2 & ->).
  apply bind_inv in H as (w & [f3 c3] & H3 & H).
  apply GetIntField_Fwd in H3 as (F3 & ->).
  unfold getContext in H. apply bind_inv in H as (cx & [f4 c4] & H4 & H).
  injection H4 as _ <- <-. cbn [fst snd] in H.
  apply bind_inv in H as (de & [f5 c5] & H5 & H).
  injection H as _ <- <-.
  assert (F5 : Fwd f3 f5 /\ c5 = c).
  { unfold readFraction in H5. rewrite bind_getControl in H5. cbn [fst snd] in H5.
    destruct (Z.eqb_spec (PeekNext f3) ch_dot) as [Hdot|].
    - assert (Hin : offset_ f3 < formatLength_ f3)
        by (apply PeekNext_inside; rewrite Hdot; discriminate).
      apply bind_inv in H5 as (u & [g1 d1] & G1 & H5).
      unfold setOffset, onControl in G1. cbn [fst snd] in G1.
      injection G1 as _ <- <-.
      apply bind_inv in H5 as (d & [g2 d2] & G2 & H5).
      apply GetIntField_Fwd in G2 as (FG2 & ->).
      rewrite bind_getControl in H5. cbn [fst snd] in H5.
      assert (FG1 : Fwd f3 (set_offset (offset_ f3 + 1) f3))
        by (apply Fwd_set_offset; lia).
      destruct (isExpoLetter (PeekNext g2)) eqn:Hexp.
      + assert (Hin2 : offset_ g2 < formatLength_ g2).
        { apply PeekNext_inside. intros E. now rewrite E in Hexp. }
        apply bind_inv in H5 as (u2 & [g3 d3] & G3 & H5).
        unfold setOffset, onControl in G3. cbn [fst snd] in G3.
        injection G3 as _ <- <-.
        apply bind_inv in H5 as (e2 & [g4 d4] & G4 & H5).
        apply GetIntField_Fwd in G4 as (FG4 & ->).
        injection H5 as _ <- <-. split; [|reflexivity].
        apply (Fwd_trans _ _ _ FG1). apply (Fwd_trans _ _ _ FG2).
        refine (Fwd_trans _ _ _ _ FG4). apply Fwd_set_offset. lia.
      + injection H5 as _ <- <-. split; [|reflexivity].
        exact (Fwd_trans _ _ _ FG1 FG2).
    - injection H5 as _ <- <-. split; [apply Fwd_refl|reflexivity]. }
  destruct F5 as (F5 & ->).
  split; [|split; [reflexivity|exact Hlt]].
  exact (Fwd_trans _ _ _ F1 (Fwd_trans _ _ _ F2 (Fwd_trans _ _ _ F3 F5))).
Qed.

End Bounds.

Lemma scanQuote_ge fuel q f :
  forall o, o <= scanQuote fuel q f o.
Proof.
  induction fuel as [|fuel IH]; intros o; cbn [scanQuote]; [lia|].
  destruct (charAt f o =? q); [lia|]. specialize (IH (o + 1)). lia.
Qed.

Lemma Fwd_inBounds f f' : Fwd f f' -> inBounds f -> inBounds f'.
Proof.
  intros (A1 & A2 & A3 & A4 & A5) (B1 & B2). unfold inBounds.
  rewrite A2, A4. split; [lia|exact B2].
Qed.

Lemma Fwd_sameFormat f f' : Fwd f f' -> sameFormat f f'.
Proof. intros (A1 & A2 & A3 & _). unfold sameFormat. auto. Qed.

Lemma sameFormat_trans f1 f2 f3 :
  sameFormat f1 f2 -> sameFormat f2 f3 -> sameFormat f1 f3.
Proof.
  unfold sameFormat. intros (A1 & A2 & A3) (B1 & B2 & B3).
  repeat split; congruence.
Qed.

Lemma Fwd_height f f' : Fwd f f' -> height_ f' = height_ f.
Proof. intros (_ & _ & _ & A4 & _). unfold height_. now rewrite A4. Qed.

Section Dispatch.
Context {C : Type} {ctx : FormatContext C}.

Lemma onContext_inv (g : C -> outcome C) f (c : C) u f' c' :
  onContext g (f, c) = Ok (u, (f', c')) -> f' = f.
Proof.
  unfold onContext. cbn [fst snd]. destruct (g c); try discriminate.
  intros H. now injection H as _ <- _.
Qed.

(** What a trip does once its character is read. *)
Lemma dispatch_bounds (H : Z) stop chk rep flag ch f (c : C) t f' c' :
  1 <= offset_ f ->
  inBounds f -> height_ f <= H -> maxHeight_ f <= H ->
  dispatch stop chk rep flag ch (f, c) = Ok (t, (f', c')) ->
  inBounds f' /\ height_ f' <= H /\ sameFormat f f'.
Proof.
  intros Hone (Hoff & Hfr) Hh Hmax Hd.
  unfold dispatch in Hd. rewrite bind_getControl in Hd. cbn [fst snd] in Hd.
  destruct (ch =? ch_lparen).
  { (* a left parenthesis *)
    unfold openParen in Hd.
    destruct (Z.geb_spec (height_ f) (maxHeight_ f)) as [|Hroom];
      [discriminate|].
    assert (Hpush : forall it,
              start it = offset_ f - 1 ->
              inBounds (set_stack (it :: stack_ f) f) /\
              height_ (set_stack (it :: stack_ f) f) <= H /\
              sameFormat f (set_stack (it :: stack_ f) f)).
    { intros it Hit. split; [split|split].
      - exact Hoff.
      - cbn [stack_ set_stack formatLength_]. constructor; [lia|exact Hfr].
      - unfold height_ in *. cbn [stack_ set_stack length]. lia.
      - unfold sameFormat. auto. }
    destruct (flag || (height_ f =? 0)).
    - unfold bind, pushFrame, onControl, ret in Hd. cbn [fst snd] in Hd.
      injection Hd as _ <- _. now apply Hpush.
    - destruct rep as [r|];
        unfold bind, pushFrame, onControl, ret in Hd; cbn [fst snd] in Hd;
        injection Hd as _ <- _; now apply Hpush. }
  destruct (stack_ f) as [|top below] eqn:Hst; [discriminate|].
  pose proof (Forall_inv Hfr) as Htop. pose proof (Forall_inv_tail Hfr) as Hbelow.
  cbv beta in Htop.
  assert (Hkeep : inBounds f /\ height_ f <= H /\ sameFormat f f).
  { split; [split; [exact Hoff|now rewrite Hst]|].
    split; [exact Hh|unfold sameFormat; auto]. }
  destruct (ch =? ch_rparen).
  { (* a right parenthesis *)
    unfold closeParen in Hd.
    destruct ((height_ f =? 1) && stop).
    { injection Hd as _ <- _. exact Hkeep. }
    apply bind_inv in Hd as (u & [f1 c1] & H1 & Hd).
    assert (f1 = f) as ->.
    { destruct (height_ f =? 1).
      - exact (onContext_inv _ _ _ _ _ _ H1).
      - now injection H1 as _ <- _. }
    destruct (remaining top =? unlimited).
    - unfold bind, setOffset, onControl in Hd. cbn [fst snd] in Hd.
      destruct (start top + 1 =? chk); [discriminate|].
      injection Hd as _ <- _.
      split; [split|split].
      + cbn [offset_ set_offset formatLength_]. lia.
      + cbn [stack_ set_offset formatLength_]. now rewrite Hst.
      + exact Hh.
      + unfold sameFormat. auto.
    - destruct (remaining top >? 0);
        unfold bind, onControl, ret in Hd; cbn [fst snd] in Hd;
        injection Hd as _ <- _.
      + split; [split|split].
        * cbn [offset_ set_offset formatLength_ set_stack]. lia.
        * cbn [stack_ set_offset set_stack formatLength_].
          constructor; [exact Htop|exact Hbelow].
        * unfold height_ in *. rewrite Hst in Hh.
          cbn [stack_ set_offset set_stack length] in *. exact Hh.
        * unfold sameFormat. auto.
      + split; [split|split].
        * exact Hoff.
        * exact Hbelow.
        * unfold height_ in *. rewrite Hst in Hh.
          cbn [stack_ set_stack length] in *. lia.
        * unfold sameFormat. auto. }
  destruct ((ch =? ch_squote) || (ch =? ch_dquote)).
  { (* a character literal *)
    unfold characterLiteral in Hd.
    pose proof (scanQuote_ge (remainingChars f) ch f (offset_ f)) as Hge.
    set (close := scanQuote (remainingChars f) ch f (offset_ f)) in *.
    destruct (Z.geb_spec close (formatLength_ f)) as [|Hlt]; [discriminate|].
    cbv zeta in Hd.
    apply bind_inv in Hd as (u & [f1 c1] & H1 & Hd).
    unfold setOffset, onControl in H1. cbn [fst snd] in H1.
    injection H1 as _ <- <-.
    apply bind_inv in Hd as (u2 & [f2 c2] & H2 & Hd).
    apply onContext_inv in H2 as ->. injection Hd as _ <- _.
    split; [split|split].
    - cbn [offset_ set_offset formatLength_]. lia.
    - cbn [stack_ set_offset formatLength_]. now rewrite Hst.
    - exact Hh.
    - unfold sameFormat. auto. }
  destruct (ch =? ch_H).
  { (* a Hollerith field *)
    unfold hollerith in Hd. destruct rep as [r|]; [|discriminate].
    destruct (Z.ltb_spec r 1) as [|Hr1]; [discriminate|].
    destruct (Z.gtb_spec (offset_ f + r) (formatLength_ f)) as [|Hr2];
      [discriminate|].
    cbn [orb] in Hd.
    apply bind_inv in Hd as (u & [f1 c1] & E1 & Hd).
    apply onContext_inv in E1 as ->.
    unfold bind, setOffset, onControl, ret in Hd. cbn [fst snd] in Hd.
    injection Hd as _ <- _.
    split; [split|split].
    - cbn [offset_ set_offset formatLength_]. lia.
    - cbn [stack_ set_offset formatLength_]. now rewrite Hst.
    - exact Hh.
    - unfold sameFormat. auto. }
  destruct (isUpper ch).
  { (* an edit descriptor *)
    unfold editDescriptor in Hd. cbv zeta in Hd.
    destruct ((ch =? ch_E) ||
              (((if isUpper (Capitalize (PeekNext f))
                 then Capitalize (PeekNext f) else ch_nul) =? ch_nul)
               && isDataLetter ch)).
    - unfold bind, setOffset, onControl, ret in Hd. cbn [fst snd] in Hd.
      injection Hd as _ <- _.
      split; [split|split].
      + cbn [offset_ set_offset formatLength_]. lia.
      + cbn [stack_ set_offset formatLength_]. now rewrite Hst.
      + exact Hh.
      + unfold sameFormat. auto.
    - apply bind_inv in Hd as (rep' & [f1 c1] & H1 & Hd).
      assert (F1 : Fwd f f1).
      { destruct (ch =? ch_T).
        - apply bind_inv in H1 as (n & [f2 c2] & H1 & H2).
          apply GetIntField_Fwd in H1 as (F1 & _).
          now injection H2 as _ <- _.
        - injection H1 as _ <- _. apply Fwd_refl. }
      apply bind_inv in Hd as (u & [f2 c2] & H2 & Hd).
      injection Hd as _ <- _.
      rewrite HandleControl_frame in H2.
      destruct (HandleControl ch _ _ (mkControl (scale_ f1) 0 [] [] 0 0, c1))
        as [[[] [f0 c0]]| |]; try discriminate.
      injection H2 as _ <- _.
      assert (F2 : Fwd f (set_scale (scale_ f0) f1)).
      { destruct F1 as (A1 & A2 & A3 & A4 & A5). unfold Fwd.
        cbn [format_ formatLength_ maxHeight_ stack_ offset_ set_scale]. auto. }
      split; [exact (Fwd_inBounds _ _ F2 (proj1 Hkeep))|].
      split; [rewrite (Fwd_height _ _ F2); exact Hh|].
      exact (Fwd_sameFormat _ _ F2). }
  destruct (ch =? ch_slash); [|discriminate].
  apply bind_inv in Hd as (u & [f1 c1] & H1 & Hd).
  apply onContext_inv in H1 as ->. injection Hd as _ <- _. exact Hkeep.
Qed.

Lemma CueUpTrip_bounds (H : Z) stop chk f (c : C) t f' c' :
  inBounds f -> height_ f <= H -> maxHeight_ f <= H ->
  CueUpTrip stop chk (f, c) = Ok (t, (f', c')) ->
  inBounds f' /\ height_ f' <= H /\ sameFormat f f'.
Proof.
  intros Hin Hh Hmax Ht. unfold CueUpTrip in Ht.
  apply bind_inv in Ht as (c0 & [f1 c1] & H1 & Ht).
  apply GetNextChar_Fwd in H1 as (F1 & -> & Hlt).
  rewrite bind_getControl in Ht. cbn [fst snd] in Ht.
  apply bind_inv in Ht as (sep & [f2 c2] & H2 & Ht).
  apply skipSeparators_Fwd in H2 as (F2 & ->).
  pose proof (Fwd_trans _ _ _ F1 F2) as F12.
  destruct sep as [ch0|].
  - apply bind_inv in Ht as (pre & [f3 c3] & H3 & Ht).
    apply readRepeat_Fwd in H3 as (F3 & ->).
    pose proof (Fwd_trans _ _ _ F12 F3) as F123.
    pose proof (Fwd_inBounds _ _ F123 Hin) as Hin3.
    assert (Hone : 1 <= offset_ f3).
    { destruct Hin as ((Ho & _) & _).
      destruct F2 as (_ & _ & _ & _ & Ho2). destruct F3 as (_ & _ & _ & _ & Ho3).
      lia. }
    pose proof (Fwd_sameFormat _ _ F123) as S3.
    destruct (dispatch_bounds H stop chk _ _ _ f3 c t f' c' Hone Hin3
                ltac:(rewrite (Fwd_height _ _ F123); exact Hh)
                ltac:(destruct S3 as (_ & _ & ->); exact Hmax) Ht)
      as (B1 & B2 & B3).
    split; [exact B1|]. split; [exact B2|]. exact (sameFormat_trans _ _ _ S3 B3).
  - injection Ht as _ <- _.
    split; [exact (Fwd_inBounds _ _ F12 Hin)|].
    split; [rewrite (Fwd_height _ _ F12); exact Hh|].
    exact (Fwd_sameFormat _ _ F12).
Qed.

Lemma CueUpLoop_bounds (H : Z) fuel stop :
  forall chk f (c : C) r f' c',
    inBounds f -> height_ f <= H -> maxHeight_ f <= H ->
    CueUpLoop fuel stop chk (f, c) = Ok (r, (f', c')) ->
    inBounds f' /\ height_ f' <= H /\ sameFormat f f'.
Proof.
  induction fuel as [|fuel IH]; intros chk f c r f' c' Hin Hh Hmax Hl;
    [discriminate|].
  cbn [CueUpLoop] in Hl.
  apply bind_inv in Hl as (t & [f1 c1] & H1 & Hl).
  destruct (CueUpTrip_bounds H stop chk f c t f1 c1 Hin Hh Hmax H1)
    as (B1 & B2 & B3).
  destruct t as [chk'|res].
  - destruct (IH chk' f1 c1 r f' c' B1 B2
                ltac:(destruct B3 as (_ & _ & ->); exact Hmax) Hl)
      as (D1 & D2 & D3).
    split; [exact D1|]. split; [exact D2|]. exact (sameFormat_trans _ _ _ B3 D3).
  - injection Hl as _ <- _. auto.
Qed.



End Dispatch.

(** * Zero-filled fields, format lists and positioning *)

Lemma emitRepeated_none (c : Cookie) ch : emitRepeated 0 ch c = Ok (true, c).
Proof. reflexivity. Qed.

Lemma wf_after_copy (c : Cookie) data :
  wfStatement (snd c) ->
  at_ (snd c) + Z.of_nat (length data) <= internalLength_ (snd c) ->
  wfStatement
    (set_buffer (memcpy (internal_ (snd c)) (at_ (snd c))
                   (Z.of_nat (length data)) data)
       (at_ (snd c) + Z.of_nat (length data)) (snd c)).
Proof.
  intros (Hlen & Hat & Hsz) Hfit. unfold wfStatement; cbn.
  rewrite memcpy_length by lia. lia.
Qed.

(** Three texts emitted one after the other, where they fit, are in the
    buffer side by side. *)
Lemma three_emissions (c : Cookie) (a : list Z) (k : nat) (z : Z) (p : list Z) :
  wfStatement (snd c) ->
  at_ (snd c) + Z.of_nat (length (a ++ List.repeat z k ++ p))
  <= internalLength_ (snd c) ->
  (ok <- (if length a =? 0 then ret true else io_Emit a)%nat ;;
   if negb ok then ret false
   else
     ok <- emitRepeated k z ;;
     if negb ok then ret false else io_Emit p) c
  = Ok (true,
        (fst c,
         set_buffer
           (memcpy (internal_ (snd c)) (at_ (snd c))
              (Z.of_nat (length (a ++ List.repeat z k ++ p)))
              (a ++ List.repeat z k ++ p))
           (at_ (snd c) + Z.of_nat (length (a ++ List.repeat z k ++ p)))
           (snd c))).
Proof.
  intros Hwf Hroom. rewrite !length_app, repeat_length in Hroom.
  pose proof Hwf as (Hlen & Hat & Hsz).
  assert (Ha : (if (length a =? 0)%nat then ret true else io_Emit a) c
               = Ok (true,
                     (fst c,
                      set_buffer (memcpy (internal_ (snd c)) (at_ (snd c))
                                    (Z.of_nat (length a)) a)
                        (at_ (snd c) + Z.of_nat (length a)) (snd c)))).
  { destruct a as [|x a].
    - cbn [length Nat.eqb ret Z.of_nat]. rewrite memcpy_nothing by lia.
      rewrite Z.add_0_r. destruct c as [f s]; destruct s; reflexivity.
    - cbn [length Nat.eqb]. apply Emit_cookie; [exact Hwf|lia]. }
  unfold bind at 1. rewrite Ha. cbn [negb].
  set (c1 := (fst c, set_buffer _ _ (snd c))).
  assert (Hwf1 : wfStatement (snd c1)) by (apply wf_after_copy; [exact Hwf|lia]).
  unfold bind at 1.
  rewrite (emitRepeated_fits k z c1 Hwf1) by (unfold c1; cbn; lia).
  cbn [negb].
  set (c2 := (fst c1, set_buffer _ _ (snd c1))).
  assert (Hwf2 : wfStatement (snd c2)).
  { unfold c2. rewrite <- (repeat_length z k) at 1 3.
    apply wf_after_copy; [exact Hwf1|].
    unfold c1; cbn. rewrite repeat_length. lia. }
  rewrite (Emit_cookie p c2 Hwf2) by (unfold c2, c1; cbn; lia).
  unfold c2, c1.
  cbn [fst snd set_buffer internal_ at_ internalLength_ modes_ eor_].
  assert (Hb :
            memcpy
              (memcpy
                 (memcpy (internal_ (snd c)) (at_ (snd c))
                    (Z.of_nat (length a)) a)
                 (at_ (snd c) + Z.of_nat (length a))
                 (Z.of_nat k) (List.repeat z k))
              (at_ (snd c) + Z.of_nat (length a) + Z.of_nat k)
              (Z.of_nat (length p)) p
            = memcpy (internal_ (snd c)) (at_ (snd c))
                (Z.of_nat (length (a ++ List.repeat z k ++ p)))
                (a ++ List.repeat z k ++ p)).
  { rewrite <- (repeat_length z k) at 1 3.
    rewrite (memcpy_adjacent (internal_ (snd c)) (at_ (snd c)) a
               (List.repeat z k)) by lia.
    replace (at_ (snd c) + Z.of_nat (length a)
             + Z.of_nat (length (List.repeat z k)))
      with (at_ (snd c) + Z.of_nat (length (a ++ List.repeat z k)))
      by (rewrite length_app; lia).
    rewrite (memcpy_adjacent (internal_ (snd c)) (at_ (snd c))
               (a ++ List.repeat z k) p)
      by (rewrite ?length_app, ?repeat_length; lia).
    now rewrite <- !app_assoc. }
  rewrite Hb.
  replace (at_ (snd c) + Z.of_nat (length a) + Z.of_nat k
           + Z.of_nat (length p))
    with (at_ (snd c) + Z.of_nat (length (a ++ List.repeat z k ++ p)))
    by (rewrite !length_app, repeat_length; lia).
  reflexivity.
Qed.

(** X24: [Iw.m]: a value with fewer than [m] digits is written with zeroes in
    front to make [m] digits, after the sign; in a field whose width is
    0, or just what that needs, nothing else is written, and
    [OutputInteger64] reports success.  The value 0 has no digit of its
    own and is written as [m] zeroes. *)
Theorem minimum_digits_are_zero_filled (edit : DataEdit) (n m : Z) (p : list Z)
    (c : Cookie) :
  convertDigits (descriptor edit) (magnitude n) = Some p ->
  digits edit = Some m ->
  Z.of_nat (length p) <= m ->
  0 < m ->
  let field :=
    signText edit n ++ List.repeat ch_0 (Z.to_nat (m - Z.of_nat (length p))) ++ p in
  width edit <= 0 \/ width edit = Z.of_nat (length field) ->
  wfStatement (snd c) ->
  at_ (snd c) + Z.of_nat (length field) <= internalLength_ (snd c) ->
  EditInteger64 edit n c
  = Ok (true,
        (fst c,
         set_buffer
           (memcpy (internal_ (snd c)) (at_ (snd c))
              (Z.of_nat (length field)) field)
           (at_ (snd c) + Z.of_nat (length field)) (snd c))).
Proof.
  intros Hp Hm Hle Hpos field Hw Hwf Hroom.
  unfold EditInteger64. rewrite Hp, Hm. cbv zeta.
  destruct (Z.leb_spec (Z.of_nat (length p)) m) as [_|]; [|lia].
  destruct (Z.eqb_spec m 0) as [|_]; [lia|]. cbn [andb].
  set (nd := Z.of_nat (length p)) in *.
  set (signChars := if _ && _ then 1 else 0).
  assert (Hsign : signChars = Z.of_nat (length (signText edit n))).
  { unfold signChars, signText. destruct (_ && _); reflexivity. }
  assert (Hfield : Z.of_nat (length field) = signChars + (m - nd) + nd).
  { unfold field. rewrite !length_app, repeat_length, Hsign. fold nd. lia. }
  rewrite Hfield in Hw.
  replace ((width edit >? 0) && (signChars + (m - nd) + nd >? width edit))
    with false
    by (destruct (Z.gtb_spec (width edit) 0);
        destruct (Z.gtb_spec (signChars + (m - nd) + nd) (width edit));
        cbn; lia).
  destruct (Z.ltb_spec (signChars + (m - nd) + nd) (width edit)); [lia|].
  assert (Hsc : (signChars =? 0) = (length (signText edit n) =? 0)%nat).
  { rewrite Hsign. destruct (signText edit n); reflexivity. }
  rewrite Hsc.
  assert (Hsg : io_Emit [if n <? 0 then ch_minus else ch_plus] c
                = io_Emit (signText edit n) c
                \/ signText edit n = []).
  { unfold signText. destruct (_ && _); auto. }
  assert (Hfirst :
            (if (length (signText edit n) =? 0)%nat then ret true
             else io_Emit [if n <? 0 then ch_minus else ch_plus]) c
            = (if (length (signText edit n) =? 0)%nat then ret true
               else io_Emit (signText edit n)) c).
  { destruct Hsg as [E|E]; [|now rewrite E].
    destruct (length (signText edit n) =? 0)%nat; [reflexivity|exact E]. }
  pose proof (three_emissions c (signText edit n) (Z.to_nat (m - nd)) ch_0 p
                Hwf Hroom) as H3.
  unfold bind at 1 in H3. unfold bind at 1. rewrite Hfirst. exact H3.
Qed.

Lemma minimum_digits_are_zero_filled_witness :
  let edit := mkEdit ch_I ch_nul 0 (Some 3) None defaultModes 1 in
  let c : Cookie :=
    (mkControl 0 100 [mkIteration 0 unlimited] (chars "(I0.3)") 5 6,
     mkStatement (chars "        ") 8 1 defaultModes false) in
  EditInteger64 edit (-7) c
  = Ok (true,
        (fst c, mkStatement (chars " -007   ") 8 5 defaultModes false)).
Proof.
  intros edit c.
  refine (minimum_digits_are_zero_filled edit (-7) 3 (chars "7") c _ _ _ _ _ _ _).
  - reflexivity.
  - reflexivity.
  - cbn. lia.
  - lia.
  - left. cbn. lia.
  - unfold wfStatement; cbn; lia.
  - vm_compute. discriminate.
Defined.

Section FormatLists.
Context {C : Type} {ctx : FormatContext C}.


End FormatLists.

(** X26: [Tn] and [nX] on the internal unit: the count reaches
    [HandleAbsolutePosition] and [HandleRelativePosition]; a count of 0
    is taken as 1, and so is the missing count of [X]. *)
Theorem position_edits_reach_the_sink stop chk f pre ds rest (s : Statement) :
  forallb isDigit ds = true -> (length ds <= 9)%nat ->
  isDelim rest ->
  stack_ f <> [] ->
  (ds <> [] ->
   At f pre (ch_T :: ds ++ rest) ->
   CueUpTrip stop chk (f, s)
   = Ok (Continue chk,
         (set_offset (offset_ f + Z.of_nat (length ds + 1)) f,
          snd (Internal.HandleAbsolutePosition
                 (if digitsValue ds =? 0 then 1 else digitsValue ds) s)))) /\
  (At f pre (ds ++ ch_X :: rest) ->
   CueUpTrip stop chk (f, s)
   = Ok (Continue chk,
         (set_offset (offset_ f + Z.of_nat (length ds + 1)) f,
          snd (Internal.HandleRelativePosition
                 (match ds with
                  | [] => 1
                  | _ => if digitsValue ds =? 0 then 1 else digitsValue ds
                  end) s)))).
Proof.
  intros Hds Hlen Hrest Hst.
  destruct (delim_facts _ Hrest) as (Hnd & Hup & _).
  assert (Hval : ds <> [] -> 0 <= digitsValue ds /\ isNumber ds = true).
  { intros Hne. pose proof (short_number ds Hne Hlen Hds) as Hnum.
    split; [|exact Hnum].
    apply digitsValueFrom_nonneg; [lia|].
    destruct ds; [congruence|exact Hnum]. }
  split.
  - intros Hne HAt. destruct (Hval Hne) as (Hv & Hnum).
    destruct (trip_dispatch stop chk f pre [] ch_T (ds ++ rest) s HAt
                eq_refl eq_refl) as (Htrip & HAt1).
    cbn [length Nat.add app] in Htrip, HAt1. rewrite Htrip.
    unfold dispatch. rewrite bind_getControl. cbn [fst snd].
    change (ch_T =? ch_lparen) with false. cbv iota.
    change (stack_ (advance 1 f)) with (stack_ f).
    destruct (stack_ f) as [|top below] eqn:Est; [congruence|].
    change (ch_T =? ch_rparen) with false.
    change ((ch_T =? ch_squote) || (ch_T =? ch_dquote)) with false.
    change (ch_T =? ch_H) with false. change (isUpper ch_T) with true.
    cbv iota. unfold editDescriptor.
    rewrite (At_PeekNext _ _ _ HAt1).
    destruct (isNumber_head ds Hnum) as (d0 & ds' & Eds & Hd0).
    assert (Hnext : isUpper (Capitalize (hd ch_nul (ds ++ rest))) = false)
      by (rewrite Eds; exact (digit_not_upper d0 Hd0)).
    rewrite Hnext. cbv zeta.
    change (ch_T =? ch_E) with false. change (isDataLetter ch_T) with false.
    change (ch_T =? ch_T) with true. rewrite andb_false_r. cbn [orb]. cbv iota.
    rewrite !bind_assoc.
    rewrite (bind_Ok _ _ _ _ _
               (GetIntField_number (advance 1 f) _ ds rest s HAt1 Hnum
                  ltac:(unfold endsNumber; now rewrite Hnd))).
    rewrite bind_ret. cbn [countOf].
    unfold HandleControl.
    change (ch_T =? ch_B) with false. change (ch_T =? ch_D) with false.
    change (ch_T =? ch_P) with false. change (ch_T =? ch_R) with false.
    change (ch_T =? ch_X) with false. change (ch_T =? ch_S) with false.
    change (ch_T =? ch_T) with true. change (ch_nul =? ch_nul) with true.
    cbv iota. unfold bind, onContext, ret. cbn [fst snd].
    cbn [HandleAbsolutePosition Statement_FormatContext].
    rewrite advance_advance.
    replace (digitsValue ds >? 0) with (negb (digitsValue ds =? 0))
      by (destruct (Z.gtb_spec (digitsValue ds) 0);
          destruct (Z.eqb_spec (digitsValue ds) 0); cbn; lia).
    destruct (digitsValue ds =? 0); cbn [negb];
      unfold advance; (replace (1 + length ds)%nat with (length ds + 1)%nat by lia);
      reflexivity.
  - intros HAt.
    assert (Hcnt : okCount ds = true).
    { destruct ds as [|d ds']; [reflexivity|].
      exact (proj2 (Hval ltac:(discriminate))). }
    destruct (trip_dispatch stop chk f pre ds ch_X rest s HAt Hcnt eq_refl)
      as (Htrip & HAt1).
    rewrite (dispatch_control stop chk (countValue ds) false ch_X _ _ rest s HAt1)
      in Htrip; try assumption; try reflexivity; try discriminate.
    rewrite Htrip. unfold controlEffect, HandleControl.
    change (ch_X =? ch_B) with false. change (ch_X =? ch_D) with false.
    change (ch_X =? ch_P) with false. change (ch_X =? ch_R) with false.
    change (ch_X =? ch_X) with true. change (ch_nul =? ch_nul) with true.
    cbv iota. unfold onContext. cbn [fst snd scale_ set_scale].
    cbn [HandleRelativePosition Statement_FormatContext].
    cbn [scale_]. rewrite set_scale_same. unfold advance.
    destruct ds as [|d ds']; [reflexivity|].
    cbn [countValue countOf].
    destruct (Hval ltac:(discriminate)) as (Hv & _).
    replace (digitsValue (d :: ds') >? 0)
      with (negb (digitsValue (d :: ds') =? 0))
      by (destruct (Z.gtb_spec (digitsValue (d :: ds')) 0);
          destruct (Z.eqb_spec (digitsValue (d :: ds')) 0); cbn; lia).
    destruct (digitsValue (d :: ds') =? 0); reflexivity.
Qed.




Lemma position_edits_reach_the_sink_witness :
  CueUpTrip false 0 (controlAt "(T5,I1)" 1, blank8)
  = Ok (Continue 0,
        (set_offset 3 (controlAt "(T5,I1)" 1),
         snd (Internal.HandleAbsolutePosition 5 blank8))) /\
  CueUpTrip false 0 (controlAt "(3X,I1)" 1, blank8)
  = Ok (Continue 0,
        (set_offset 3 (controlAt "(3X,I1)" 1),
         snd (Internal.HandleRelativePosition 3 blank8))).
Proof.
  split.
  - refine (proj1 (position_edits_reach_the_sink false 0
                     (controlAt "(T5,I1)" 1) (chars "(") (chars "5")
                     (chars ",I1)") blank8 _ _ _ _) _ _).
    + reflexivity.
    + cbn. lia.
    + left. reflexivity.
    + discriminate.
    + discriminate.
    + exact (At_controlAt "(" "T5,I1)").
  - refine (proj2 (position_edits_reach_the_sink false 0
                     (controlAt "(3X,I1)" 1) (chars "(") (chars "3")
                     (chars ",I1)") blank8 _ _ _ _) _).
    + reflexivity.
    + cbn. lia.
    + left. reflexivity.
    + discriminate.
    + exact (At_controlAt "(" "3X,I1)").
Defined.

(** * Properties of token sequences *)

Import Tokens.

Section TokenFacts.
Context {Mappings : Type}.


Lemma sorted_app_last l x y :
  StronglySorted Z.le (l ++ [x]) -> x <= y ->
  StronglySorted Z.le ((l ++ [x]) ++ [y]).
Proof.
  induction l as [|a l IH]; cbn [app]; intros Hs Hxy.
  - repeat constructor. exact Hxy.
  - apply StronglySorted_inv in Hs as (Hs & Ha).
    constructor; [now apply IH|].
    apply Forall_app. split; [exact Ha|].
    constructor; [|constructor].
    rewrite Forall_app in Ha. destruct Ha as (_ & Hx).
    apply Forall_inv in Hx. lia.
Qed.

Lemma sorted_prefix (l r : list Z) :
  StronglySorted Z.le (l ++ r) -> StronglySorted Z.le l.
Proof.
  induction l as [|a l IH]; cbn [app]; intros Hs; [constructor|].
  apply StronglySorted_inv in Hs as (Hs & Ha).
  constructor; [now apply IH|]. rewrite Forall_app in Ha. tauto.
Qed.

Lemma last_entry (l : list Z) i s :
  nth_error l i = Some s -> nth_error l (i + 1) = None ->
  exists l1, l = l1 ++ [s] /\ length l1 = i.
Proof.
  intros Hi He. apply nth_error_split in Hi as (l1 & l2 & -> & Hl).
  exists l1. split; [|exact Hl].
  apply nth_error_None in He. rewrite length_app in He. cbn [length] in He.
  destruct l2; [reflexivity|cbn [length] in He; lia].
Qed.

(** Entries of a sorted list that starts at 0 and ends inside the
    buffer are offsets of the buffer. *)
Lemma ordered_entry (t : TokenSequence Mappings) i s :
  ordered t -> nth_error (start_ t) i = Some s ->
  0 <= s <= nextStart_ t.
Proof.
  intros (Hs & Hh & _) Hi.
  remember (nextStart_ t) as ns eqn:E. clear E.
  remember (start_ t) as l eqn:E. clear E.
  assert (Hlo : forall l i s, StronglySorted Z.le (l ++ [ns]) ->
                              nth_error l i = Some s ->
                              hd 0 (l ++ [ns]) <= s <= ns).
  { clear. induction l as [|a l IH]; intros i s Hs Hi.
    - destruct i; discriminate.
    - cbn [app] in Hs. apply StronglySorted_inv in Hs as (Hs & Ha).
      cbn [app hd]. destruct i as [|i]; cbn [nth_error] in Hi.
      + injection Hi as <-. rewrite Forall_app in Ha.
        destruct Ha as (_ & Hx). apply Forall_inv in Hx. lia.
      + destruct (IH i s Hs Hi) as (_ & Hhi). split; [|exact Hhi].
        rewrite Forall_app in Ha. destruct Ha as (Ha & _).
        rewrite Forall_forall in Ha. apply Ha. eapply nth_error_In; eauto. }
  specialize (Hlo l i s Hs Hi). lia.
Qed.

Lemma ordered_consecutive (t : TokenSequence Mappings) i s e :
  ordered t -> nth_error (start_ t) i = Some s ->
  nth_error (start_ t) (i + 1) = Some e -> s <= e.
Proof.
  intros (Hs & _ & _).
  remember (start_ t ++ [nextStart_ t]) as l' eqn:E.
  assert (Hgen : forall l i s e, StronglySorted Z.le l ->
                                 nth_error l i = Some s ->
                                 nth_error l (i + 1) = Some e -> s <= e).
  { clear. induction l as [|a l IH]; intros i s e Hs Hi He.
    - destruct i; discriminate.
    - apply StronglySorted_inv in Hs as (Hs & Ha).
      destruct i as [|i]; cbn [nth_error Nat.add] in *.
      + injection Hi as <-. rewrite Forall_forall in Ha. apply Ha.
        apply (nth_error_In l 0). exact He.
      + eapply IH; eauto. }
  intros Hi He. apply (Hgen l' i s e Hs); subst l'.
  - rewrite nth_error_app1; [exact Hi|]. apply nth_error_Some. congruence.
  - rewrite nth_error_app1; [exact He|]. apply nth_error_Some. congruence.
Qed.

Lemma ordered_new (m : Mappings) : ordered (newTokenSequence m).
Proof.
  unfold ordered, SizeInChars; cbn. repeat split; try lia.
  repeat constructor.
Qed.

Lemma ordered_Close (t : TokenSequence Mappings) : ordered t -> ordered (CloseToken t).
Proof.
  intros (Hs & Hh & Hn). unfold ordered, CloseToken in *.
  cbn [start_ nextStart_ char_].
  split; [now apply sorted_app_last|].
  split; [|unfold SizeInChars; cbn [char_]; lia].
  rewrite <- app_assoc. destruct (start_ t); cbn [app hd] in *; lia.
Qed.

Lemma Reopen_inv (t t' : TokenSequence Mappings) :
  ReopenLastToken t = Some t' ->
  exists l x,
    start_ t = l ++ [x] /\
    t' = mkTokenSequence l x (char_ t) (provenances_ t).
Proof.
  unfold ReopenLastToken. intros Hr.
  assert (Hne : start_ t <> []) by (intros E; now rewrite E in Hr).
  assert (Ht : t' = mkTokenSequence (removelast (start_ t))
                      (last (start_ t) 0) (char_ t) (provenances_ t))
    by (destruct (start_ t); congruence).
  destruct (exists_last Hne) as (l & x & E).
  exists l, x. split; [exact E|].
  rewrite Ht, E, removelast_last, last_last. reflexivity.
Qed.

Lemma ordered_Reopen (t t' : TokenSequence Mappings) :
  ordered t -> ReopenLastToken t = Some t' -> ordered t'.
Proof.
  intros Hord Hr. destruct (Reopen_inv t t' Hr) as (l0 & x & E & ->).
  assert (Hx : 0 <= x <= nextStart_ t).
  { apply (ordered_entry t (length l0) x Hord).
    rewrite E, nth_error_app2 by lia. now rewrite Nat.sub_diag. }
  destruct Hord as (Hs & Hh & Hn). rewrite E in Hs, Hh.
  unfold ordered, SizeInChars in *. cbn [start_ nextStart_ char_].
  split; [|split].
  - exact (sorted_prefix _ _ Hs).
  - rewrite <- Hh. destruct l0; reflexivity.
  - lia.
Qed.

Lemma TokenAt_last (t : TokenSequence Mappings) l s :
  start_ t = l ++ [s] ->
  0 <= s <= SizeInChars t -> SizeInChars t < 2 ^ 64 ->
  tokenChars t (length l) = Some (skipn (Z.to_nat s) (char_ t)).
Proof.
  intros El Hs Hsz. unfold tokenChars, TokenAt, TokenBytes, SizeInTokens.
  rewrite El, nth_error_app2 by lia. rewrite Nat.sub_diag. cbn [nth_error].
  rewrite length_app. cbn [length].
  destruct (Z.geb_spec (Z.of_nat (length l) + 1) (Z.of_nat (length l + 1)));
    [|lia].
  cbn [option_map]. f_equal. unfold blockChars. cbn [begin_ size_].
  rewrite wrap_u64_small by lia.
  apply firstn_all2. rewrite length_skipn. unfold SizeInChars in *. lia.
Qed.

Lemma TokenAt_inner (t : TokenSequence Mappings) i s e :
  nth_error (start_ t) i = Some s ->
  nth_error (start_ t) (i + 1) = Some e ->
  0 <= s <= e -> e < 2 ^ 64 ->
  tokenChars t i
  = Some (firstn (Z.to_nat (e - s)) (skipn (Z.to_nat s) (char_ t))).
Proof.
  intros Hi He Hse Hsz. unfold tokenChars, TokenAt, TokenBytes, SizeInTokens.
  rewrite Hi.
  assert (Hlt : (i + 1 < length (start_ t))%nat)
    by (apply nth_error_Some; congruence).
  destruct (Z.geb_spec (Z.of_nat i + 1) (Z.of_nat (length (start_ t))));
    [lia|].
  rewrite He. cbn [option_map]. unfold blockChars. cbn [begin_ size_].
  now rewrite wrap_u64_small by lia.
Qed.

Lemma pieces_tile (chars : list Z) :
  forall (l : list Z) (s : Z),
    StronglySorted Z.le (s :: l) -> 0 <= s ->
    Forall (fun x => x <= Z.of_nat (length chars)) (s :: l) ->
    exists pieces,
      (forall i, (i < length (s :: l))%nat ->
         nth_error pieces i
         = Some (match nth_error (s :: l) (i + 1) with
                 | Some e => firstn (Z.to_nat (e - nth i (s :: l) 0))
                               (skipn (Z.to_nat (nth i (s :: l) 0)) chars)
                 | None => skipn (Z.to_nat (nth i (s :: l) 0)) chars
                 end)) /\
      length pieces = length (s :: l) /\
      concat pieces = skipn (Z.to_nat s) chars.
Proof.
  induction l as [|e l IH]; intros s Hs H0 Hin.
  - exists [skipn (Z.to_nat s) chars]. split; [|split].
    + intros i Hi. cbn [length] in Hi. assert (i = 0%nat) by lia. subst i.
      reflexivity.
    + reflexivity.
    + cbn. now rewrite app_nil_r.
  - apply StronglySorted_inv in Hs as (Hs & Hall).
    pose proof (Forall_inv Hall) as Hse. cbv beta in Hse.
    pose proof (Forall_inv_tail Hin) as Hin'.
    destruct (IH e Hs ltac:(lia) Hin') as (pieces & Hp & Hl & Hc).
    exists (firstn (Z.to_nat (e - s)) (skipn (Z.to_nat s) chars) :: pieces).
    split; [|split].
    + intros [|i] Hi; [reflexivity|].
      cbn [nth_error Nat.add nth]. cbn [length] in Hi.
      apply (Hp i). cbn [length]. lia.
    + cbn [length]. now rewrite Hl.
    + cbn [concat]. rewrite Hc.
      replace (Z.to_nat e) with (Z.to_nat (e - s) + Z.to_nat s)%nat by lia.
      rewrite <- skipn_skipn. apply firstn_skipn.
Qed.

(** X27: the tokens tile the characters: with at least one token closed,
    the characters of the tokens, one after the other, are all the
    characters of the sequence.  The last token reaches to the end of
    the characters, so it holds the characters of a token that is being
    put and not closed yet. *)
Theorem tokens_tile_the_characters (t : TokenSequence Mappings) :
  ordered t -> start_ t <> [] -> SizeInChars t < 2 ^ 64 ->
  exists pieces,
    allTokens t = map Some pieces /\ concat pieces = char_ t /\
    tokenChars t (length (start_ t) - 1)
    = Some (skipn (Z.to_nat (last (start_ t) 0)) (char_ t)).
Proof.
  intros Hord Hne Hsz.
  pose proof Hord as (Hs & Hh & Hn).
  destruct (start_ t) as [|s l] eqn:El; [congruence|]. clear Hne.
  cbn [app hd] in Hh. subst s.
  assert (Hs' : StronglySorted Z.le (0 :: l)).
  { exact (sorted_prefix _ _ Hs). }
  assert (Hin : Forall (fun x => x <= Z.of_nat (length (char_ t))) (0 :: l)).
  { apply Forall_forall. intros x Hx. apply In_nth_error in Hx as (i & Hi).
    rewrite <- El in Hi.
    pose proof (ordered_entry t i x Hord Hi). unfold SizeInChars in Hn. lia. }
  destruct (pieces_tile (char_ t) l 0 Hs' ltac:(lia) Hin)
    as (pieces & Hp & Hl & Hc).
  exists pieces. split; [|split].
  - unfold allTokens. rewrite El.
    apply nth_error_ext. intros i.
    destruct (Nat.lt_ge_cases i (length (0 :: l))) as [Hi|Hi].
    + rewrite nth_error_map, nth_error_seq.
      destruct (Nat.ltb_spec i (length (0 :: l))) as [_|]; [|lia].
      rewrite nth_error_map, (Hp i Hi). cbn [option_map Nat.add]. f_equal.
      destruct (nth_error (0 :: l) i) as [s|] eqn:Ei;
        [|apply nth_error_None in Ei; lia].
      rewrite (nth_error_nth _ _ 0 Ei).
      assert (Hsb : 0 <= s <= nextStart_ t)
        by (apply (ordered_entry t i s Hord); now rewrite El).
      unfold SizeInChars in *.
      destruct (nth_error (0 :: l) (i + 1)) as [e|] eqn:Ee.
      * assert (Heb : 0 <= e <= nextStart_ t)
          by (apply (ordered_entry t (i + 1) e Hord); now rewrite El).
        assert (Hse : s <= e)
          by (apply (ordered_consecutive t i s e Hord); now rewrite El).
        apply (TokenAt_inner t i s e); rewrite ?El; auto; lia.
      * destruct (last_entry _ _ _ Ei Ee) as (l1 & E1 & <-).
        apply TokenAt_last; [now rewrite El|unfold SizeInChars; lia|exact Hsz].
    + rewrite (proj2 (nth_error_None _ _))
        by (rewrite length_map, length_seq; exact Hi).
      symmetry. apply nth_error_None. rewrite length_map, Hl. exact Hi.
  - rewrite Hc. reflexivity.
  - assert (Es : 0 :: l = removelast (0 :: l) ++ [last (0 :: l) 0])
      by (apply app_removelast_last; discriminate).
    replace (length (0%Z :: l) - 1)%nat with (length (removelast (0 :: l)))
      by (rewrite Es at 2; rewrite length_app; cbn [length]; lia).
    apply TokenAt_last; [now rewrite El|  |exact Hsz].
    assert (Hlast : nth_error (start_ t) (length (removelast (0 :: l)))
                    = Some (last (0 :: l) 0)).
    { rewrite El. rewrite Es at 1. rewrite nth_error_app2 by lia.
      now rewrite Nat.sub_diag. }
    pose proof (ordered_entry t _ _ Hord Hlast). lia.
Qed.

(** X28: reopening undoes closing: [ReopenLastToken] after [CloseToken]
    gives the sequence back, and [CloseToken] after [ReopenLastToken]
    gives it back when no token was being put. *)
Theorem ReopenLastToken_undoes_CloseToken (t : TokenSequence Mappings) :
  ReopenLastToken (CloseToken t) = Some t /\
  (forall t', ReopenLastToken t = Some t' ->
              nextStart_ t = SizeInChars t ->
              CloseToken t' = t).
Proof.
  split.
  - unfold ReopenLastToken, CloseToken. cbn [start_ nextStart_ char_ provenances_].
    destruct (start_ t ++ [nextStart_ t]) eqn:E;
      [now destruct (start_ t)|].
    rewrite <- E, removelast_last, last_last. now destruct t.
  - intros t' Hr Hn. destruct (Reopen_inv t t' Hr) as (l0 & x & E & ->).
    unfold CloseToken, SizeInChars in *.
    cbn [start_ nextStart_ char_ provenances_].
    rewrite <- E, <- Hn. now destruct t.
Qed.

End TokenFacts.

Section TokenBuilding.
Context {Provenance : Type} {Mappings : Type}.
Variable PutRange : Provenance * Z -> Mappings -> Mappings.

Lemma putChars_char cs (t : TokenSequence Mappings) :
  char_ (putChars PutRange cs t) = char_ t ++ map fst cs.
Proof.
  revert t. induction cs as [|[ch p] cs IH]; intros t; cbn [putChars map fst].
  - now rewrite app_nil_r.
  - rewrite IH. cbn. now rewrite <- app_assoc.
Qed.

Lemma putChars_start cs (t : TokenSequence Mappings) :
  start_ (putChars PutRange cs t) = start_ t /\
  nextStart_ (putChars PutRange cs t) = nextStart_ t.
Proof.
  revert t. induction cs as [|[ch p] cs IH]; intros t; cbn [putChars].
  - auto.
  - destruct (IH (PutNextTokenChar PutRange ch p t)) as (A & B).
    rewrite A, B. auto.
Qed.

Lemma ordered_Put ch p (t : TokenSequence Mappings) :
  ordered t -> ordered (PutNextTokenChar PutRange ch p t).
Proof.
  intros (Hs & Hh & Hn). unfold ordered, SizeInChars, PutNextTokenChar in *.
  cbn [start_ nextStart_ char_].
  rewrite length_app. cbn [length]. repeat split; [exact Hs|exact Hh|lia].
Qed.

(** X29: the three operations that build a token sequence keep the
    starts of its tokens in ascending order, beginning at 0 and inside
    the characters. *)
Theorem token_operations_keep_the_starts_ordered (t : TokenSequence Mappings) :
  ordered t ->
  (forall ch p, ordered (PutNextTokenChar PutRange ch p t)) /\
  ordered (CloseToken t) /\
  (forall t', ReopenLastToken t = Some t' -> ordered t').
Proof.
  intros H. split; [|split].
  - intros ch p. now apply ordered_Put.
  - now apply ordered_Close.
  - intros t' Hr. exact (ordered_Reopen t t' H Hr).
Qed.

(** X30: a token that is put and closed is the token read back: when no
    token is being put, the characters put one after the other and
    closed make one more token, which holds just those characters, and
    the tokens before it hold what they held. *)
Theorem closed_token_is_what_was_put (cs : list (Z * Provenance)) (t : TokenSequence Mappings) :
  ordered t ->
  nextStart_ t = SizeInChars t ->
  SizeInChars t + Z.of_nat (length cs) < 2 ^ 64 ->
  let t' := CloseToken (putChars PutRange cs t) in
  SizeInTokens t' = SizeInTokens t + 1 /\
  tokenChars t' (length (start_ t)) = Some (map fst cs) /\
  forall i, (i < length (start_ t))%nat -> tokenChars t' i = tokenChars t i.
Proof.
  intros Hord Hclosed Hsz t'.
  destruct (putChars_start cs t) as (Hst & Hns).
  pose proof (putChars_char cs t) as Hch.
  assert (Est : start_ t' = start_ t ++ [SizeInChars t])
    by (unfold t'; cbn; now rewrite Hst, Hns, Hclosed).
  assert (Ech : char_ t' = char_ t ++ map fst cs)
    by (unfold t'; cbn; exact Hch).
  assert (Hsz' : SizeInChars t' = SizeInChars t + Z.of_nat (length cs)).
  { unfold SizeInChars. rewrite Ech, length_app, length_map. lia. }
  split; [|split].
  - unfold SizeInTokens. rewrite Est, length_app. cbn [length]. lia.
  - rewrite (TokenAt_last t' (start_ t) (SizeInChars t) Est)
      by (unfold SizeInChars in *; lia).
    f_equal. rewrite Ech. unfold SizeInChars. rewrite Nat2Z.id.
    rewrite skipn_app, skipn_all, Nat.sub_diag. reflexivity.
  - intros i Hi.
    destruct (nth_error (start_ t) i) as [s|] eqn:Ei;
      [|apply nth_error_None in Ei; lia].
    pose proof (ordered_entry t i s Hord Ei) as Hs.
    assert (Ei' : nth_error (start_ t') i = Some s)
      by (rewrite Est, nth_error_app1 by lia; exact Ei).
    assert (Hcut : forall n, (n <= length (char_ t) - Z.to_nat s)%nat ->
                     firstn n (skipn (Z.to_nat s) (char_ t'))
                     = firstn n (skipn (Z.to_nat s) (char_ t))).
    { intros n Hn. rewrite Ech, skipn_app, firstn_app.
      rewrite length_skipn.
      replace (n - (length (char_ t) - Z.to_nat s))%nat with 0%nat by lia.
      cbn [firstn]. now rewrite app_nil_r. }
    unfold SizeInChars in *.
    destruct (nth_error (start_ t) (i + 1)) as [e|] eqn:Ee.
    + pose proof (ordered_entry t (i + 1) e Hord Ee) as He.
      pose proof (ordered_consecutive t i s e Hord Ei Ee) as Hse.
      assert (Ee' : nth_error (start_ t') (i + 1) = Some e).
      { rewrite Est, nth_error_app1; [exact Ee|].
        apply nth_error_Some. congruence. }
      rewrite (TokenAt_inner t' i s e Ei' Ee') by lia.
      rewrite (TokenAt_inner t i s e Ei Ee) by lia.
      f_equal. apply Hcut. lia.
    + destruct (last_entry _ _ _ Ei Ee) as (l1 & Es & Eil).
      assert (Ee' : nth_error (start_ t') (i + 1)
                    = Some (Z.of_nat (length (char_ t)))).
      { assert (Hlen : length (start_ t) = (i + 1)%nat)
          by (rewrite Es, length_app; cbn [length]; lia).
        rewrite Est, nth_error_app2 by lia.
        rewrite Hlen, Nat.sub_diag. reflexivity. }
      rewrite (TokenAt_inner t' i s _ Ei' Ee') by lia.
      rewrite <- Eil.
      rewrite (TokenAt_last t _ s Es) by (unfold SizeInChars; lia).
      f_equal. rewrite Hcut by lia.
      apply firstn_all2. rewrite length_skipn. lia.
Qed.

End TokenBuilding.

Lemma token_operations_keep_the_starts_ordered_witness :
  let put := fun (r : Z * Z) (m : list (Z * Z)) => m ++ [r] in
  let t := CloseToken (putChars put [(97, 0); (98, 1)] (newTokenSequence [])) in
  ordered t /\
  (forall ch p, ordered (PutNextTokenChar put ch p t)) /\
  ordered (CloseToken t) /\
  (forall t', ReopenLastToken t = Some t' -> ordered t').
Proof.
  intros put t.
  assert (Hord : ordered t).
  { unfold ordered, SizeInChars. cbn. split; [|split; lia].
    repeat constructor; lia. }
  split; [exact Hord|].
  exact (token_operations_keep_the_starts_ordered put t Hord).
Defined.

Lemma tokens_tile_the_characters_witness :
  let put := fun (r : Z * Z) (m : list (Z * Z)) => m ++ [r] in
  let t := putChars put [(99, 2)]
             (CloseToken (putChars put [(97, 0); (98, 1)] (newTokenSequence []))) in
  ordered t /\ start_ t <> [] /\ SizeInChars t < 2 ^ 64 /\
  exists pieces,
    allTokens t = map Some pieces /\ concat pieces = char_ t /\
    tokenChars t (length (start_ t) - 1)
    = Some (skipn (Z.to_nat (last (start_ t) 0)) (char_ t)).
Proof.
  intros put t.
  assert (Hord : ordered t).
  { unfold ordered, SizeInChars. cbn. split; [|split; lia].
    repeat constructor; lia. }
  assert (Hne : start_ t <> []) by discriminate.
  assert (Hsz : SizeInChars t < 2 ^ 64) by reflexivity.
  split; [exact Hord|]. split; [exact Hne|]. split; [exact Hsz|].
  exact (tokens_tile_the_characters t Hord Hne Hsz).
Defined.

Lemma closed_token_is_what_was_put_witness :
  let put := fun (r : Z * Z) (m : list (Z * Z)) => m ++ [r] in
  let t := CloseToken (putChars put [(97, 0); (98, 1)] (newTokenSequence [])) in
  let t' := CloseToken (putChars put [(99, 2)] t) in
  ordered t /\ nextStart_ t = SizeInChars t /\
  SizeInChars t + Z.of_nat (length [(99, 2)]) < 2 ^ 64 /\
  SizeInTokens t' = SizeInTokens t + 1 /\
  tokenChars t' (length (start_ t)) = Some (map fst [(99, 2)]) /\
  forall i, (i < length (start_ t))%nat -> tokenChars t' i = tokenChars t i.
Proof.
  intros put t t'.
  assert (Hord : ordered t).
  { unfold ordered, SizeInChars. cbn. split; [|split; lia].
    repeat constructor; lia. }
  assert (Hcl : nextStart_ t = SizeInChars t) by reflexivity.
  assert (Hsz : SizeInChars t + Z.of_nat (length [(99, 2)]) < 2 ^ 64)
    by reflexivity.
  split; [exact Hord|]. split; [exact Hcl|]. split; [exact Hsz|].
  exact (closed_token_is_what_was_put put [(99, 2)] t Hord Hcl Hsz).
Defined.

Lemma ReopenLastToken_undoes_CloseToken_witness :
  let put := fun (r : Z * Z) (m : list (Z * Z)) => m ++ [r] in
  let t' := putChars put [(97, 0); (98, 1)] (newTokenSequence []) in
  let t := CloseToken t' in
  ReopenLastToken (CloseToken t) = Some t /\
  ReopenLastToken t = Some t' /\ nextStart_ t = SizeInChars t /\
  CloseToken t' = t.
Proof.
  intros put t' t.
  assert (Hr : ReopenLastToken t = Some t') by reflexivity.
  assert (Hcl : nextStart_ t = SizeInChars t) by reflexivity.
  split; [exact (proj1 (ReopenLastToken_undoes_CloseToken t))|].
  split; [exact Hr|]. split; [exact Hcl|].
  exact (proj2 (ReopenLastToken_undoes_CloseToken t) t' Hr Hcl).
Defined.
